(** * zguiElementComparator.h: sortArray, findInsertIndexInSortedArray and
    DefaultElementComparator, embedded and verified.

    The C++ header works on a raw pointer [ElementType* const array] that is
    addressed with [int] indices.  The embedding keeps that view: the array is
    the memory seen through the pointer, a total function from indices to
    elements.

    An [int] is a 32-bit signed integer.  Signed overflow is undefined
    behaviour in C++, so the embedding does not pick a result for it: every
    [int] operation of the non-stable branch of [sortArray] and of
    [findInsertIndexInSortedArray] ([++k], [lastElement + 1],
    [firstElement + lastElement], ...) is checked, and a run ends with
    [Overflow] at the first operation whose result leaves
    [INT_MIN .. INT_MAX].  The theorems about these functions carry the
    bounds on the indices under which no operation overflows.  The cursor
    of the stable branch stays in [firstElement - 1 .. lastElement], and
    the one value outside [firstElement .. lastElement], left by [i -= 2]
    at [i = firstElement + 1], is incremented before it is used; that
    branch is modelled over the integers.

    Every access that the source makes to the array, and every write to the
    auxiliary stack arrays, is recorded in a trace so that frame and bounds
    properties can be stated about what the code touches, not only about the
    final contents. *)

From Stdlib Require Import ZArith List Lia Bool Permutation Sorted Finite.
Import ListNotations.
Local Open Scope Z_scope.

(* ================================================================== *)
(** * Part I - the embedding                                            *)
(* ================================================================== *)

(** What the code does to its environment, one event per source-level
    action. *)
Inductive Event : Type :=
| EvCompare (i j : Z)   (* comparator.compareElements (array[i], array[j]) *)
| EvSwap (i j : Z)      (* swapVariables (array[i], array[j])              *)
| EvPush (idx : Z).     (* fromStack[idx] = ...; toStack[idx] = ...        *)

(** Result of running a loop with a bound on the number of iterations:
    the source would have returned with state [s]; or the bound was
    reached and [s] is the state at that point of the (unfinished) run; or
    an [int] operation overflowed in state [s], where the behaviour of the
    source is undefined. *)
Inductive Outcome (St : Type) : Type :=
| Returned (s : St)
| OutOfFuel (s : St)
| Overflow (s : St).
Arguments Returned {St} s.
Arguments OutOfFuel {St} s.
Arguments Overflow {St} s.

Definition outcomeState {St : Type} (o : Outcome St) : St :=
  match o with Returned s => s | OutOfFuel s => s | Overflow s => s end.

(** A [for (;;)] loop whose body either continues with a new configuration
    ([inl]) or leaves the loop ([inr]). *)
Fixpoint runLoop {C St : Type} (body : C -> C + St) (stateOf : C -> St)
         (fuel : nat) (c : C) : Outcome St :=
  match fuel with
  | O => OutOfFuel (stateOf c)
  | S fuel' =>
      match body c with
      | inl c' => runLoop body stateOf fuel' c'
      | inr s => Returned s
      end
  end.

(** ** 32-bit [int] arithmetic

    The value of an [int] expression, or the state in which it
    overflowed. *)
Definition INT_MIN : Z := -2147483648.
Definition INT_MAX : Z := 2147483647.

Inductive Checked (St A : Type) : Type :=
| Ok (a : A)
| IntOverflow (s : St).
Arguments Ok {St A} a.
Arguments IntOverflow {St A} s.

Definition bind {St A B : Type} (m : Checked St A) (k : A -> Checked St B)
  : Checked St B :=
  match m with
  | Ok a => k a
  | IntOverflow s => IntOverflow s
  end.

Notation "x <- m ;; k" := (bind m (fun x => k))
  (at level 61, m at next level, right associativity).
Notation "' p <- m ;; k" := (bind m (fun x => match x with p => k end))
  (at level 61, p pattern, m at next level, right associativity).

(** [int s z]: the result [z] of an [int] operation made in state [s]. *)
Definition int {St : Type} (s : St) (z : Z) : Checked St Z :=
  if (INT_MIN <=? z) && (z <=? INT_MAX) then Ok z else IntOverflow s.

(** A [for (;;)] loop whose body can overflow. *)
Fixpoint runChecked {C St : Type} (body : C -> Checked St (C + St))
         (stateOf : C -> St) (fuel : nat) (c : C) : Outcome St :=
  match fuel with
  | O => OutOfFuel (stateOf c)
  | S fuel' =>
      match body c with
      | Ok (inl c') => runChecked body stateOf fuel' c'
      | Ok (inr s) => Returned s
      | IntOverflow s => Overflow s
      end
  end.

Section Model.

Context {ElementType : Type}.

(** The comparator capability: [comparator.compareElements (first, second)]. *)
Variable compareElements : ElementType -> ElementType -> Z.

(** The array seen through the pointer, with the trace of what has been
    done so far (most recent event first). *)
Record State : Type := mkState {
  array : Z -> ElementType;
  trace : list Event
}.

Definition logEvent (s : State) (e : Event) : State :=
  mkState (array s) (e :: trace s).

(** Modelled from the spec: [swapVariables] is not defined in this header;
    the spec describes the swap primitive as an in-place exchange of two
    cells ("read-read-write-write").  With [i = j] nothing changes. *)
Definition swapVariables (a : Z -> ElementType) (i j : Z) : Z -> ElementType :=
  fun k => if k =? i then a j else if k =? j then a i else a k.

Definition swapAt (s : State) (i j : Z) : State :=
  mkState (swapVariables (array s) i j) (EvSwap i j :: trace s).

Definition compareAt (s : State) (i j : Z) : Z * State :=
  (compareElements (array s i) (array s j), logEvent s (EvCompare i j)).

(** ** Stable mode (lines 70-77)

    One iteration of
    [for (int i = firstElement; i < lastElement; ++i) { ... }]:
    the loop test, the body and the [++i]. *)
Definition stableStep (firstElement lastElement : Z) (c : State * Z)
  : (State * Z) + State :=
  let (s, i) := c in
  if i <? lastElement then
    let (r, s1) := compareAt s i (i + 1) in
    if r >? 0 then
      let s2 := swapAt s1 i (i + 1) in
      let i' := if i >? firstElement then i - 2 else i in
      inl (s2, i' + 1)
    else inl (s1, i + 1)
  else inr s.

Definition stableSort (fuel : nat) (s : State) (firstElement lastElement : Z)
  : Outcome State :=
  runLoop (stableStep firstElement lastElement) fst fuel (s, firstElement).

(** ** Selection sort for ranges of at most 8 elements (lines 87-100)

    [for (int k = firstElement + 1; k <= j; ++k)]: [n] bounds the remaining
    trip count, the caller passes [j + 1 - k]; the loop is left earlier
    only by an overflow of [++k]. *)
Fixpoint maxScan (n : nat) (j : Z) (s : State) (k maxIndex : Z)
  : Checked State (Z * State) :=
  match n with
  | O => Ok (maxIndex, s)
  | S n' =>
      if k <=? j then
        let (r, s1) := compareAt s k maxIndex in
        k1 <- int s1 (k + 1) ;;
        maxScan n' j s1 k1 (if r >? 0 then k else maxIndex)
      else Ok (maxIndex, s)
  end.

(** [while (j > firstElement) { ...; --j; }]: [n] bounds the trip count,
    the caller passes [j - firstElement]. *)
Fixpoint selectionLoop (n : nat) (firstElement : Z) (s : State) (j : Z)
  : Checked State State :=
  match n with
  | O => Ok s
  | S n' =>
      if j >? firstElement then
        k0 <- int s (firstElement + 1) ;;
        ' (maxIndex, s1) <-
          maxScan (Z.to_nat (j - firstElement)) j s k0 firstElement ;;
        let s2 := swapAt s1 j maxIndex in
        j1 <- int s2 (j - 1) ;;
        selectionLoop n' firstElement s2 j1
      else Ok s
  end.

Definition selectionSort (s : State) (firstElement lastElement : Z)
  : Checked State State :=
  selectionLoop (Z.to_nat (lastElement - firstElement)) firstElement s lastElement.

(** ** Hoare partition (lines 104-126)

    [while (++i <= lastElement && compareElements (array[i], array[firstElement]) <= 0) {}]
    The argument [i] is the cursor before [++i]; the result is the cursor
    when the loop is left.  [n] bounds the trip count by the number of
    cells above [i], namely [lastElement - i]. *)
Fixpoint scanUp (n : nat) (firstElement lastElement : Z) (s : State) (i : Z)
  : Checked State (Z * State) :=
  i1 <- int s (i + 1) ;;
  match n with
  | O => Ok (i1, s)
  | S n' =>
      if i1 <=? lastElement then
        let (r, s1) := compareAt s i1 firstElement in
        if r <=? 0 then scanUp n' firstElement lastElement s1 i1 else Ok (i1, s1)
      else Ok (i1, s)
  end.

(** [while (--j > firstElement && compareElements (array[j], array[firstElement]) >= 0) {}]
    [n] bounds the trip count by [j - 1 - firstElement]. *)
Fixpoint scanDown (n : nat) (firstElement : Z) (s : State) (j : Z)
  : Checked State (Z * State) :=
  j1 <- int s (j - 1) ;;
  match n with
  | O => Ok (j1, s)
  | S n' =>
      if j1 >? firstElement then
        let (r, s1) := compareAt s j1 firstElement in
        if r >=? 0 then scanDown n' firstElement s1 j1 else Ok (j1, s1)
      else Ok (j1, s)
  end.

(** The inner [for (;;)] of lines 110-124; [n] bounds the trip count by
    [j - i] (every trip moves both cursors). *)
Fixpoint partitionLoop (n : nat) (firstElement lastElement : Z) (s : State)
         (i j : Z) : Checked State (Z * Z * State) :=
  match n with
  | O => Ok (i, j, s)
  | S n' =>
      ' (i1, s1) <-
        scanUp (Z.to_nat (lastElement - i)) firstElement lastElement s i ;;
      ' (j1, s2) <-
        scanDown (Z.to_nat (j - 1 - firstElement)) firstElement s1 j ;;
      if j1 <? i1 then Ok (i1, j1, s2)
      else partitionLoop n' firstElement lastElement (swapAt s2 i1 j1) i1 j1
  end.

(** Lines 104-126: move the middle element to the front, partition, put
    the pivot at [j].  [size] is the [const int size] of line 84.  Returns
    the cursors [i], [j] and the state. *)
Definition partitionRange (s : State) (firstElement lastElement size : Z)
  : Checked State (Z * Z * State) :=
  mid <- int s (firstElement + Z.shiftr size 1) ;;
  let s1 := swapAt s mid firstElement in
  j0 <- int s1 (lastElement + 1) ;;
  ' (i, j, s2) <-
    partitionLoop (Z.to_nat (j0 - firstElement))
                  firstElement lastElement s1 firstElement j0 ;;
  Ok (i, j, swapAt s2 j firstElement).

(** ** The work stack and the outer loop (lines 80-165)

    [fromStack] and [toStack] are used as one stack of ranges; the list
    holds its live entries, top first, and [stackIndex] is its length.  A
    write to slot [stackIndex] is recorded as [EvPush stackIndex]. *)
Definition Stack : Type := list (Z * Z).

Record QConfig : Type := mkQ {
  qstate : State;
  qfirst : Z;     (* firstElement *)
  qlast : Z;      (* lastElement  *)
  qstack : Stack
}.

Definition push (s : State) (stack : Stack) (from to : Z) : State * Stack :=
  (logEvent s (EvPush (Z.of_nat (length stack))), (from, to) :: stack).

(** Lines 160-164: [if (--stackIndex < 0) break;] and the reload of
    [firstElement], [lastElement]. *)
Definition popNext (s : State) (stack : Stack) : QConfig + State :=
  match stack with
  | [] => inr s
  | (from, to) :: rest => inl (mkQ s from to rest)
  end.

(** What the code decides after a partition (lines 128-157): the state and
    stack after the optional push, and the range to loop on at once, if
    any ([None]: fall through to the pop). *)
Definition deferLarger (s : State) (stack : Stack)
           (firstElement lastElement i j : Z)
  : Checked State (State * Stack * option (Z * Z)) :=
  jm <- int s (j - 1) ;;
  left <- int s (jm - firstElement) ;;
  right <- int s (lastElement - i) ;;
  if left >=? right then
    f1 <- int s (firstElement + 1) ;;
    ' (s', stack') <-
      (if f1 <? j
       then (to <- int s (j - 1) ;; Ok (push s stack firstElement to))
       else Ok (s, stack)) ;;
    Ok (s', stack', if i <? lastElement then Some (i, lastElement) else None)
  else
    let (s', stack') :=
      if i <? lastElement then push s stack i lastElement
      else (s, stack) in
    f1 <- int s' (firstElement + 1) ;;
    if f1 <? j
    then (to <- int s' (j - 1) ;; Ok (s', stack', Some (firstElement, to)))
    else Ok (s', stack', None).

(** One trip through the outer [for ( ; ; )]. *)
Definition quickStep (c : QConfig) : Checked State (QConfig + State) :=
  let firstElement := qfirst c in
  let lastElement := qlast c in
  width <- int (qstate c) (lastElement - firstElement) ;;
  size <- int (qstate c) (width + 1) ;;
  if size <=? 8 then
    s1 <- selectionSort (qstate c) firstElement lastElement ;;
    Ok (popNext s1 (qstack c))
  else
    ' (i, j, s1) <- partitionRange (qstate c) firstElement lastElement size ;;
    ' (s2, stack', next) <-
      deferLarger s1 (qstack c) firstElement lastElement i j ;;
    Ok (match next with
        | Some (f, l) => inl (mkQ s2 f l stack')
        | None => popNext s2 stack'
        end).

Definition quickSort (fuel : nat) (s : State) (firstElement lastElement : Z)
  : Outcome State :=
  runChecked quickStep qstate fuel (mkQ s firstElement lastElement []).

(** ** sortArray (lines 58-168) *)
Definition sortArray (fuel : nat) (a : Z -> ElementType)
           (firstElement lastElement : Z)
           (retainOrderOfEquivalentItems : bool) : Outcome State :=
  let s := mkState a [] in
  if lastElement >? firstElement then
    if retainOrderOfEquivalentItems
    then stableSort fuel s firstElement lastElement
    else quickSort fuel s firstElement lastElement
  else Returned s.

(** ** findInsertIndexInSortedArray (lines 195-237) *)

(** Modelled from the spec: the macro [jassert] is not defined in this
    header; the spec calls a violated [firstIndex <= lastIndex] a caller
    programming error, "checked with an assertion that is enabled in debug
    builds and is undefined behavior in release builds".  A run whose
    assertion fails has no result. *)
Definition jassert {A : Type} (condition : bool) (continue : A) : option A :=
  if condition then Some continue else None.

(** The cells read so far are kept when a result is passed up. *)
Definition withProbes {A : Type} (ps : list Z)
           (m : Checked (list Z) (A * list Z)) : Checked (list Z) (A * list Z) :=
  match m with
  | Ok (r, probes) => Ok (r, ps ++ probes)
  | IntOverflow probes => IntOverflow (ps ++ probes)
  end.

(** The [while] loop of lines 207-234.  Returns the index and the list of
    array cells that were compared with [newElement], in the order in
    which the code reads them, or the cells read before
    [firstElement + lastElement] or [++firstElement] overflowed.  [n]
    bounds the trip count by [lastElement - firstElement] (every trip that
    does not leave the loop shrinks the interval). *)
Fixpoint findInsertLoop (n : nat) (a : Z -> ElementType) (newElement : ElementType)
         (firstElement lastElement : Z) : Checked (list Z) (Z * list Z) :=
  match n with
  | O => Ok (firstElement, [])
  | S n' =>
      if firstElement <? lastElement then
        if compareElements newElement (a firstElement) =? 0
        then (f1 <- int [firstElement] (firstElement + 1) ;;
              Ok (f1, [firstElement]))
        else
          sum <- int [firstElement] (firstElement + lastElement) ;;
          let halfway := Z.shiftr sum 1 in
          if halfway =? firstElement then
            if compareElements newElement (a halfway) >=? 0
            then (f1 <- int [firstElement; halfway] (firstElement + 1) ;;
                  Ok (f1, [firstElement; halfway]))
            else Ok (firstElement, [firstElement; halfway])
          else if compareElements newElement (a halfway) >=? 0 then
            withProbes [firstElement; halfway]
                       (findInsertLoop n' a newElement halfway lastElement)
          else
            withProbes [firstElement; halfway]
                       (findInsertLoop n' a newElement firstElement halfway)
      else Ok (firstElement, [])
  end.

(** [None]: the [jassert] of line 202 failed. *)
Definition findInsertIndexInSortedArray (a : Z -> ElementType)
           (newElement : ElementType) (firstElement lastElement : Z)
  : option (Checked (list Z) (Z * list Z)) :=
  jassert (firstElement <=? lastElement)
          (findInsertLoop (Z.to_nat (lastElement - firstElement)) a newElement
                          firstElement lastElement).

(** ** The same loops over unbounded integers

    The loops above with every [int] operation taken over the
    mathematical integers.  They are not a model of the source; they are
    what the proofs reason about, and [Part II] shows that the functions
    above return exactly their results whenever the indices leave room
    for the arithmetic of the source. *)
Fixpoint maxScanZ (n : nat) (j : Z) (s : State) (k maxIndex : Z) : Z * State :=
  match n with
  | O => (maxIndex, s)
  | S n' =>
      if k <=? j then
        let (r, s1) := compareAt s k maxIndex in
        maxScanZ n' j s1 (k + 1) (if r >? 0 then k else maxIndex)
      else (maxIndex, s)
  end.

Fixpoint selectionLoopZ (n : nat) (firstElement : Z) (s : State) (j : Z) : State :=
  match n with
  | O => s
  | S n' =>
      if j >? firstElement then
        let (maxIndex, s1) :=
          maxScanZ (Z.to_nat (j - firstElement)) j s (firstElement + 1) firstElement in
        selectionLoopZ n' firstElement (swapAt s1 j maxIndex) (j - 1)
      else s
  end.

Definition selectionSortZ (s : State) (firstElement lastElement : Z) : State :=
  selectionLoopZ (Z.to_nat (lastElement - firstElement)) firstElement s lastElement.

Fixpoint scanUpZ (n : nat) (firstElement lastElement : Z) (s : State) (i : Z)
  : Z * State :=
  let i1 := i + 1 in
  match n with
  | O => (i1, s)
  | S n' =>
      if i1 <=? lastElement then
        let (r, s1) := compareAt s i1 firstElement in
        if r <=? 0 then scanUpZ n' firstElement lastElement s1 i1 else (i1, s1)
      else (i1, s)
  end.

Fixpoint scanDownZ (n : nat) (firstElement : Z) (s : State) (j : Z) : Z * State :=
  let j1 := j - 1 in
  match n with
  | O => (j1, s)
  | S n' =>
      if j1 >? firstElement then
        let (r, s1) := compareAt s j1 firstElement in
        if r >=? 0 then scanDownZ n' firstElement s1 j1 else (j1, s1)
      else (j1, s)
  end.

Fixpoint partitionLoopZ (n : nat) (firstElement lastElement : Z) (s : State)
         (i j : Z) : Z * Z * State :=
  match n with
  | O => (i, j, s)
  | S n' =>
      let (i1, s1) := scanUpZ (Z.to_nat (lastElement - i)) firstElement lastElement s i in
      let (j1, s2) := scanDownZ (Z.to_nat (j - 1 - firstElement)) firstElement s1 j in
      if j1 <? i1 then (i1, j1, s2)
      else partitionLoopZ n' firstElement lastElement (swapAt s2 i1 j1) i1 j1
  end.

Definition partitionRangeZ (s : State) (firstElement lastElement : Z)
  : Z * Z * State :=
  let size := (lastElement - firstElement) + 1 in
  let mid := firstElement + Z.shiftr size 1 in
  let s1 := swapAt s mid firstElement in
  let '(i, j, s2) :=
    partitionLoopZ (Z.to_nat (lastElement + 1 - firstElement))
                  firstElement lastElement s1 firstElement (lastElement + 1) in
  (i, j, swapAt s2 j firstElement).

Definition deferLargerZ (s : State) (stack : Stack)
           (firstElement lastElement i j : Z)
  : State * Stack * option (Z * Z) :=
  if j - 1 - firstElement >=? lastElement - i then
    let (s', stack') :=
      if firstElement + 1 <? j then push s stack firstElement (j - 1)
      else (s, stack) in
    (s', stack', if i <? lastElement then Some (i, lastElement) else None)
  else
    let (s', stack') :=
      if i <? lastElement then push s stack i lastElement
      else (s, stack) in
    (s', stack', if firstElement + 1 <? j then Some (firstElement, j - 1) else None).

Definition quickStepZ (c : QConfig) : QConfig + State :=
  let firstElement := qfirst c in
  let lastElement := qlast c in
  let size := (lastElement - firstElement) + 1 in
  if size <=? 8 then
    popNext (selectionSortZ (qstate c) firstElement lastElement) (qstack c)
  else
    let '(i, j, s1) := partitionRangeZ (qstate c) firstElement lastElement in
    let '(s2, stack', next) := deferLargerZ s1 (qstack c) firstElement lastElement i j in
    match next with
    | Some (f, l) => inl (mkQ s2 f l stack')
    | None => popNext s2 stack'
    end.

Definition quickSortZ (fuel : nat) (s : State) (firstElement lastElement : Z)
  : Outcome State :=
  runLoop quickStepZ qstate fuel (mkQ s firstElement lastElement []).
Fixpoint findInsertLoopZ (n : nat) (a : Z -> ElementType) (newElement : ElementType)
         (firstElement lastElement : Z) : Z * list Z :=
  match n with
  | O => (firstElement, [])
  | S n' =>
      if firstElement <? lastElement then
        if compareElements newElement (a firstElement) =? 0
        then (firstElement + 1, [firstElement])
        else
          let halfway := Z.shiftr (firstElement + lastElement) 1 in
          if halfway =? firstElement then
            (if compareElements newElement (a halfway) >=? 0
             then firstElement + 1 else firstElement,
             [firstElement; halfway])
          else if compareElements newElement (a halfway) >=? 0 then
            let (r, probes) := findInsertLoopZ n' a newElement halfway lastElement in
            (r, firstElement :: halfway :: probes)
          else
            let (r, probes) := findInsertLoopZ n' a newElement firstElement halfway in
            (r, firstElement :: halfway :: probes)
      else (firstElement, [])
  end.

Definition findInsertIndexInSortedArrayZ (a : Z -> ElementType)
           (newElement : ElementType) (firstElement lastElement : Z) : Z * list Z :=
  findInsertLoopZ (Z.to_nat (lastElement - firstElement)) a newElement
                 firstElement lastElement.

End Model.

Arguments State ElementType : clear implicits.
Arguments QConfig ElementType : clear implicits.

(** DefaultElementComparator (lines 254-265), over the element type's
    [operator<]. *)
Definition DefaultElementComparator {ElementType : Type}
           (lessThan : ElementType -> ElementType -> bool)
           (first second : ElementType) : Z :=
  if lessThan first second then -1
  else if lessThan second first then 1 else 0.

(** Arrays for concrete runs: the cells [0 .. length l - 1] hold [l], every
    other cell holds [d]. *)
Definition arrayOfList {ElementType : Type} (d : ElementType) (l : list ElementType)
  : Z -> ElementType :=
  fun k => if k <? 0 then d else nth (Z.to_nat k) l d.

(** The indices [lo, lo + 1, ..., hi] and the contents of that range. *)
Definition indices (lo hi : Z) : list Z :=
  map (fun k => lo + Z.of_nat k) (seq 0 (Z.to_nat (hi + 1 - lo))).

Definition contents {ElementType : Type} (a : Z -> ElementType) (lo hi : Z)
  : list ElementType :=
  map a (indices lo hi).

(** ** Vocabulary of the specification *)

(** The indices leave room for the [int] arithmetic of the non-stable
    branch of [sortArray]: its cursors move in
    [firstElement - 1 .. lastElement + 1] and it computes the size of the
    range. *)
Definition indicesFit (firstElement lastElement : Z) : Prop :=
  INT_MIN < firstElement /\ lastElement < INT_MAX /\
  lastElement - firstElement < INT_MAX.

(** The indices leave room for the [int] arithmetic of
    [findInsertIndexInSortedArray]: it adds the two ends of every
    interval it searches. *)
Definition searchFits (firstElement lastElement : Z) : Prop :=
  INT_MIN <= 2 * firstElement /\ 2 * lastElement <= INT_MAX + 1.

(** A consistent three-way comparator: the sign of [compareElements a b]
    is the opposite of the sign of [compareElements b a], and "comes before
    or is equivalent" is transitive. *)
Record Consistent {ElementType : Type}
       (compareElements : ElementType -> ElementType -> Z) : Prop := {
  cmp_flip : forall a b, compareElements a b > 0 <-> compareElements b a < 0;
  cmp_trans : forall a b c,
      compareElements a b <= 0 -> compareElements b c <= 0 ->
      compareElements a c <= 0
}.

(** The range [lo .. hi] of the array is in order: every adjacent pair
    compares [<= 0]. *)
Definition sortedRange {ElementType : Type}
           (compareElements : ElementType -> ElementType -> Z)
           (a : Z -> ElementType) (lo hi : Z) : Prop :=
  forall i, lo <= i <= hi - 1 -> compareElements (a i) (a (i + 1)) <= 0.

(** Every pair of cells of [lo .. hi] is in order, adjacent or not. *)
Definition orderedRange {ElementType : Type}
           (compareElements : ElementType -> ElementType -> Z)
           (a : Z -> ElementType) (lo hi : Z) : Prop :=
  forall p q, lo <= p -> p < q -> q <= hi -> compareElements (a p) (a q) <= 0.

(** The stable branch while the element at [c + 1] is being moved down
    into the ordered stretch [firstElement .. c]: the cells from [c + 1]
    to [m] are in order and, from [c + 2] on, not below anything left of
    them. *)
Definition inserting {ElementType : Type}
           (compareElements : ElementType -> ElementType -> Z)
           (a : Z -> ElementType) (firstElement c m : Z) : Prop :=
  orderedRange compareElements a firstElement c /\
  orderedRange compareElements a (c + 1) m /\
  (forall p q, firstElement <= p <= c -> c + 2 <= q <= m ->
               compareElements (a p) (a q) <= 0).

(** An event only concerns cells of [lo .. hi] (a stack write concerns no
    cell of the array). *)
Definition eventInRange (lo hi : Z) (e : Event) : Prop :=
  match e with
  | EvCompare i j => (lo <= i <= hi) /\ (lo <= j <= hi)
  | EvSwap i j => (lo <= i <= hi) /\ (lo <= j <= hi)
  | EvPush _ => True
  end.

(** The stack slots written, in the order of the trace. *)
Fixpoint pushIndices (t : list Event) : list Z :=
  match t with
  | [] => []
  | EvPush idx :: t' => idx :: pushIndices t'
  | _ :: t' => pushIndices t'
  end.

(** [reaches P s s']: [s'] is reached from [s] by logged actions that all
    satisfy [P]; a swap changes the array, the other actions only the
    trace. *)
Inductive reaches {ElementType : Type} (P : Event -> Prop)
  : State ElementType -> State ElementType -> Prop :=
| reaches_refl : forall s, reaches P s s
| reaches_log : forall s s' e,
    reaches P s s' -> P e -> reaches P s (logEvent s' e)
| reaches_swap : forall s s' i j,
    reaches P s s' -> P (EvSwap i j) -> reaches P s (swapAt s' i j).

(** An access to cells of [lo .. hi]; no stack write. *)
Definition arrayEvent (lo hi : Z) (e : Event) : Prop :=
  match e with
  | EvCompare i j => (lo <= i <= hi) /\ (lo <= j <= hi)
  | EvSwap i j => (lo <= i <= hi) /\ (lo <= j <= hi)
  | EvPush _ => False
  end.

(** [touches lo hi s s']: [s'] is reached from [s] by comparisons and swaps
    of cells in [lo .. hi] only. *)
Definition touches {ElementType : Type} (lo hi : Z)
  : State ElementType -> State ElementType -> Prop :=
  reaches (arrayEvent lo hi).

(** What the outer loop of the non-stable branch may do to a range of
    [whole = hi - lo + 1] cells: accesses inside the range, and writes to
    a stack slot [idx] only while a range of 9 cells or more is nested
    [idx] levels deep. *)
Definition quickEvent (lo hi : Z) (e : Event) : Prop :=
  match e with
  | EvCompare i j => (lo <= i <= hi) /\ (lo <= j <= hi)
  | EvSwap i j => (lo <= i <= hi) /\ (lo <= j <= hi)
  | EvPush idx => 0 <= idx /\ 9 * 2 ^ idx <= hi - lo + 1
  end.

(** The elements equivalent to [x] under the comparator, in the order in
    which they occur in a list; a sort is stable when it leaves this
    sub-list unchanged for every [x]. *)
Definition equivalentTo {ElementType : Type}
           (compareElements : ElementType -> ElementType -> Z)
           (x : ElementType) (l : list ElementType) : list ElementType :=
  filter (fun y => compareElements x y =? 0) l.

(** The transposition of two indices. *)
Definition transpose (i j k : Z) : Z :=
  if k =? i then j else if k =? j then i else k.

(** Sizes as the source computes them. *)
Definition rangeSize (r : Z * Z) : Z := snd r - fst r + 1.

(** The ranges that the outer loop still has to sort: the one it is
    working on, then the work stack from its top. *)
Definition pending {ElementType : Type} (c : QConfig ElementType) : list (Z * Z) :=
  (qfirst c, qlast c) :: qstack c.

(** State and pending ranges after one trip of the outer loop. *)
Definition afterStep {ElementType : Type}
           (r : QConfig ElementType + State ElementType)
  : State ElementType * list (Z * Z) :=
  match r with
  | inl c' => (qstate c', pending c')
  | inr s => (s, [])
  end.

(** The two sides of a partition with cursors [i], [j]: the one that lines
    128-157 loop on at once, and the one they put on the stack. *)
Definition subRanges (firstElement lastElement i j : Z) : (Z * Z) * (Z * Z) :=
  if j - 1 - firstElement >=? lastElement - i
  then ((i, lastElement), (firstElement, j - 1))
  else ((firstElement, j - 1), (i, lastElement)).

(** A range of two elements or more. *)
Definition worthSorting (r : Z * Z) : bool := fst r <? snd r.

(** The state after lines 130-135 or 145-150 for the side [later]: slot
    [stackIndex] is written if the side has two elements or more. *)
Definition pushed {ElementType : Type} (s : State ElementType)
           (stack : list (Z * Z)) (later : Z * Z) : State ElementType :=
  if worthSorting later
  then logEvent s (EvPush (Z.of_nat (length stack)))
  else s.

(** Pending ranges lie in [lo .. hi] and have two elements or more. *)
Definition rangesWithin (lo hi : Z) (rs : list (Z * Z)) : Prop :=
  Forall (fun r => lo <= fst r /\ fst r < snd r /\ snd r <= hi) rs.

Definition inRange (r : Z * Z) (k : Z) : Prop := fst r <= k <= snd r.

(** Two cells lie in the same pending range. *)
Definition sameBlock (rs : list (Z * Z)) (p q : Z) : Prop :=
  exists r, In r rs /\ inRange r p /\ inRange r q.

Fixpoint disjointRanges (rs : list (Z * Z)) : Prop :=
  match rs with
  | [] => True
  | r :: rs' =>
      (forall r', In r' rs' -> snd r < fst r' \/ snd r' < fst r) /\
      disjointRanges rs'
  end.

(** The depth bound of the work stack: a range with [k] ranges below it
    is at most the [2^k]-th part of the whole. *)
Fixpoint depthBounded (whole : Z) (rs : list (Z * Z)) : Prop :=
  match rs with
  | [] => True
  | r :: rs' =>
      rangeSize r * 2 ^ Z.of_nat (length rs') <= whole /\ depthBounded whole rs'
  end.

(** What holds of the state and the pending ranges on every trip of the
    outer loop started on [lo .. hi] in state [s0], whatever the
    comparator. *)
Definition quickInv {ElementType : Type} (lo hi : Z) (s0 : State ElementType)
           (s : State ElementType) (rs : list (Z * Z)) : Prop :=
  reaches (quickEvent lo hi) s0 s /\
  rangesWithin lo hi rs /\
  depthBounded (hi - lo + 1) rs.

(** The order already established by the outer loop started on
    [lo .. hi]: pending ranges do not overlap, and two cells are in order
    unless both lie in one pending range. *)
Definition orderedInv {ElementType : Type}
           (compareElements : ElementType -> ElementType -> Z)
           (lo hi : Z) (a : Z -> ElementType) (rs : list (Z * Z)) : Prop :=
  rangesWithin lo hi rs /\
  disjointRanges rs /\
  (forall p q, lo <= p -> p < q -> q <= hi ->
               sameBlock rs p q \/ compareElements (a p) (a q) <= 0).

(** "Comes before or is equivalent to", and "is equivalent to". *)
Definition comesBefore {ElementType : Type}
           (compareElements : ElementType -> ElementType -> Z)
           (x y : ElementType) : Prop := compareElements x y <= 0.

Definition equivalent {ElementType : Type}
           (compareElements : ElementType -> ElementType -> Z)
           (x y : ElementType) : Prop := compareElements x y = 0.

(** How many elements of a list come before [z] or are equivalent to it. *)
Definition countLe {ElementType : Type}
           (compareElements : ElementType -> ElementType -> Z)
           (z : ElementType) (l : list ElementType) : nat :=
  length (filter (fun e => compareElements e z <=? 0) l).

Definition isReturned {St : Type} (o : Outcome St) : bool :=
  match o with Returned _ => true | OutOfFuel _ => false | Overflow _ => false end.

(** The number of pairs of a list that are out of order: the earlier
    element compares [> 0] with the later one. *)
Fixpoint inversions {ElementType : Type}
         (compareElements : ElementType -> ElementType -> Z)
         (l : list ElementType) : nat :=
  match l with
  | [] => O
  | x :: t =>
      (length (filter (fun y => compareElements x y >? 0) t)
       + inversions compareElements t)%nat
  end.

(** A comparator that never says "after" for a pair in both orders. *)
Definition neverAfterBothWays {ElementType : Type}
           (compareElements : ElementType -> ElementType -> Z) : Prop :=
  forall x y, compareElements x y > 0 -> compareElements y x <= 0.

(** Total number of cells in the pending ranges. *)
Fixpoint pendingCells (rs : list (Z * Z)) : nat :=
  match rs with
  | [] => O
  | r :: rs' => (Z.to_nat (rangeSize r) + pendingCells rs')%nat
  end.

(** Elements tagged with a label that the comparator does not look at. *)
Definition compareByFirst (p q : Z * Z) : Z :=
  DefaultElementComparator Z.ltb (fst p) (fst q).

(** A comparator that breaks the three-way contract: everything comes
    after everything. *)
Definition alwaysAfter (p q : Z) : Z := 1.

Definition naturalOrder : Z -> Z -> Z := DefaultElementComparator Z.ltb.

(** Arrays used in the concrete runs below. *)
Definition fiveNumbers : Z -> Z := arrayOfList 0 [5; 3; 4; 1; 2].

(** [(1,'a'), (1,'b'), (0,'c')], the letters by their character codes. *)
Definition taggedPairs : Z -> Z * Z :=
  arrayOfList (0, 0) [(1, 97); (1, 98); (0, 99)].

(** Three elements with one key and the tags 0, 1, 2. *)
Definition equalKeys : Z -> Z * Z :=
  arrayOfList (0, 0) [(0, 0); (0, 1); (0, 2)].

Definition tenNumbers : Z -> Z := arrayOfList 0 [0; 1; 5; 3; 4; 2; 6; 7; 8; 9].

Definition threeNumbers : Z -> Z := arrayOfList 0 [1; 2; 3].

Definition nineDescending : Z -> Z := arrayOfList 0 [9; 8; 7; 6; 5; 4; 3; 2; 1].

Definition sortedWithDuplicates : Z -> Z := arrayOfList 0 [1; 3; 3; 5].


Definition sortedNoMatch : Z -> Z := arrayOfList 0 [1; 2; 4; 5].

(** A comparator that is not transitive: 0 before 1 before 2 before 0,
    on the residues modulo 3. *)
Definition cyclicOrder (x y : Z) : Z :=
  let d := (y - x) mod 3 in
  if d =? 0 then 0 else if d =? 1 then -1 else 1.

Definition allSevens : Z -> Z := fun _ => 7.

(** How often the comparator was called and how often [swapVariables]
    was called, as recorded in a trace. *)
Fixpoint countCompares (t : list Event) : Z :=
  match t with
  | [] => 0
  | EvCompare _ _ :: t' => 1 + countCompares t'
  | _ :: t' => countCompares t'
  end.

Fixpoint countSwaps (t : list Event) : Z :=
  match t with
  | [] => 0
  | EvSwap _ _ :: t' => 1 + countSwaps t'
  | _ :: t' => countSwaps t'
  end.

(* ================================================================== *)
(** * Part II - facts about the embedding                               *)
(* ================================================================== *)

Ltac splits := repeat match goal with |- _ /\ _ => split end.

(** ** Loops *)

Section LoopFacts.

Context {C St : Type} (body : C -> C + St) (stateOf : C -> St).

(** An invariant of the configurations yields a property of every state
    a run can stop in, whether it returned or was cut short. *)
Lemma runLoop_invariant (Inv : C -> Prop) (P : St -> Prop) :
  (forall c c', Inv c -> body c = inl c' -> Inv c') ->
  (forall c s, Inv c -> body c = inr s -> P s) ->
  (forall c, Inv c -> P (stateOf c)) ->
  forall fuel c, Inv c -> P (outcomeState (runLoop body stateOf fuel c)).
Proof.
  intros Hstep Hexit Hcut fuel.
  induction fuel as [|fuel IH]; intros c Hc; simpl.
  - now apply Hcut.
  - destruct (body c) as [c'|s] eqn:Hb.
    + apply IH. eapply Hstep; eauto.
    + simpl. eapply Hexit; eauto.
Qed.

(** The same for a property that is only claimed when the loop returns. *)
Lemma runLoop_returned (Inv : C -> Prop) (Q : St -> Prop) :
  (forall c c', Inv c -> body c = inl c' -> Inv c') ->
  (forall c s, Inv c -> body c = inr s -> Q s) ->
  forall fuel c s, Inv c -> runLoop body stateOf fuel c = Returned s -> Q s.
Proof.
  intros Hstep Hexit fuel.
  induction fuel as [|fuel IH]; intros c s Hc; simpl.
  - discriminate.
  - destruct (body c) as [c'|s'] eqn:Hb.
    + apply IH. eapply Hstep; eauto.
    + intros [= <-]. eapply Hexit; eauto.
Qed.

(** A measure that every trip decreases bounds the number of trips. *)
Lemma runLoop_terminates (Inv : C -> Prop) (mu : C -> nat) :
  (forall c c', Inv c -> body c = inl c' -> Inv c' /\ (mu c' < mu c)%nat) ->
  forall fuel c, Inv c -> (mu c < fuel)%nat ->
  exists s, runLoop body stateOf fuel c = Returned s.
Proof.
  intros Hstep fuel.
  induction fuel as [|fuel IH]; intros c Hc Hmu; simpl.
  - lia.
  - destruct (body c) as [c'|s] eqn:Hb.
    + destruct (Hstep c c' Hc Hb) as [Hc' Hlt]. apply IH; [assumption|lia].
    + now exists s.
Qed.

Lemma runLoop_inl fuel c c' :
  body c = inl c' ->
  runLoop body stateOf (S fuel) c = runLoop body stateOf fuel c'.
Proof. intros H. simpl. now rewrite H. Qed.

Lemma runLoop_inr fuel c s :
  body c = inr s -> runLoop body stateOf (S fuel) c = Returned s.
Proof. intros H. simpl. now rewrite H. Qed.

(** More fuel does not change a result that was reached. *)
Lemma runLoop_more_fuel fuel extra c s :
  runLoop body stateOf fuel c = Returned s ->
  runLoop body stateOf (fuel + extra) c = Returned s.
Proof.
  revert c. induction fuel as [|fuel IH]; intros c; simpl.
  - discriminate.
  - destruct (body c); auto.
Qed.


End LoopFacts.

(** ** Index ranges and swaps *)

Lemma indices_empty lo hi : hi < lo -> indices lo hi = [].
Proof.
  intros H. unfold indices.
  replace (Z.to_nat (hi + 1 - lo)) with 0%nat by lia. reflexivity.
Qed.

Lemma indices_cons lo hi : lo <= hi -> indices lo hi = lo :: indices (lo + 1) hi.
Proof.
  intros H. unfold indices.
  replace (Z.to_nat (hi + 1 - lo)) with (S (Z.to_nat (hi + 1 - (lo + 1)))) by lia.
  simpl. f_equal; [lia|].
  rewrite <- seq_shift, map_map. apply map_ext. intros k. lia.
Qed.

Lemma indices_app lo mid hi :
  lo <= mid + 1 -> mid <= hi ->
  indices lo hi = indices lo mid ++ indices (mid + 1) hi.
Proof.
  intros H1 H2.
  remember (Z.to_nat (mid + 1 - lo)) as n eqn:Hn.
  revert lo H1 Hn. induction n as [|n IH]; intros lo H1 Hn.
  - assert (lo = mid + 1) by lia. subst lo.
    rewrite (indices_empty (mid + 1) mid) by lia. reflexivity.
  - rewrite (indices_cons lo hi) by lia. rewrite (indices_cons lo mid) by lia.
    simpl. f_equal. apply IH; lia.
Qed.

Lemma in_indices lo hi k : In k (indices lo hi) <-> lo <= k <= hi.
Proof.
  unfold indices. rewrite in_map_iff. split.
  - intros (n & <- & Hn). apply in_seq in Hn. lia.
  - intros H. exists (Z.to_nat (k - lo)). split; [lia|]. apply in_seq. lia.
Qed.

Lemma indices_NoDup lo hi : NoDup (indices lo hi).
Proof.
  unfold indices. apply Finite.Injective_map_NoDup.
  - intros x y. lia.
  - apply seq_NoDup.
Qed.

Lemma indices_length lo hi : length (indices lo hi) = Z.to_nat (hi + 1 - lo).
Proof. unfold indices. now rewrite length_map, length_seq. Qed.

Lemma contents_ext {E : Type} (a b : Z -> E) lo hi :
  (forall k, lo <= k <= hi -> a k = b k) -> contents a lo hi = contents b lo hi.
Proof.
  intros H. unfold contents. apply map_ext_in. intros k Hk.
  apply H. now apply in_indices.
Qed.

Lemma contents_app {E : Type} (a : Z -> E) lo mid hi :
  lo <= mid + 1 -> mid <= hi ->
  contents a lo hi = contents a lo mid ++ contents a (mid + 1) hi.
Proof.
  intros. unfold contents. rewrite (indices_app lo mid hi) by lia.
  apply map_app.
Qed.

Lemma contents_cons {E : Type} (a : Z -> E) lo hi :
  lo <= hi -> contents a lo hi = a lo :: contents a (lo + 1) hi.
Proof. intros. unfold contents. now rewrite indices_cons. Qed.

Lemma contents_empty {E : Type} (a : Z -> E) lo hi :
  hi < lo -> contents a lo hi = [].
Proof. intros. unfold contents. now rewrite indices_empty. Qed.

Lemma in_contents {E : Type} (a : Z -> E) lo hi x :
  In x (contents a lo hi) <-> exists k, lo <= k <= hi /\ a k = x.
Proof.
  unfold contents. rewrite in_map_iff. split.
  - intros (k & Hk & Hin). exists k. split; [now apply in_indices|assumption].
  - intros (k & Hk & Hx). exists k. split; [assumption|now apply in_indices].
Qed.

Section SwapFacts.

Context {E : Type}.
Implicit Types a : Z -> E.

Lemma swap_left a i j : swapVariables a i j i = a j.
Proof. unfold swapVariables. now rewrite Z.eqb_refl. Qed.

Lemma swap_right a i j : swapVariables a i j j = a i.
Proof.
  unfold swapVariables. destruct (Z.eqb_spec j i) as [->|]; [reflexivity|].
  now rewrite Z.eqb_refl.
Qed.

Lemma swap_other a i j k : k <> i -> k <> j -> swapVariables a i j k = a k.
Proof.
  intros Hi Hj. unfold swapVariables.
  destruct (Z.eqb_spec k i); [contradiction|].
  destruct (Z.eqb_spec k j); [contradiction|reflexivity].
Qed.

(** Reading a swapped array is reading the old one through the
    transposition. *)
Lemma swap_transpose a i j k : swapVariables a i j k = a (transpose i j k).
Proof.
  unfold swapVariables, transpose.
  destruct (Z.eqb_spec k i); [reflexivity|].
  destruct (Z.eqb_spec k j); reflexivity.
Qed.

Lemma transpose_involutive i j k : transpose i j (transpose i j k) = k.
Proof.
  unfold transpose.
  destruct (Z.eqb_spec k i) as [->|Hki].
  - destruct (Z.eqb_spec j i) as [->|Hji]; [reflexivity|].
    now rewrite Z.eqb_refl.
  - destruct (Z.eqb_spec k j) as [->|Hkj].
    + now rewrite Z.eqb_refl.
    + destruct (Z.eqb_spec k i); [contradiction|].
      destruct (Z.eqb_spec k j); [contradiction|reflexivity].
Qed.

Lemma transpose_range lo hi i j k :
  lo <= i <= hi -> lo <= j <= hi ->
  (lo <= transpose i j k <= hi <-> lo <= k <= hi).
Proof.
  intros Hi Hj. unfold transpose.
  repeat match goal with |- context [Z.eqb ?x ?y] => destruct (Z.eqb_spec x y) end;
    lia.
Qed.

(** Swapping two cells of a range permutes its contents. *)
Lemma swap_contents_perm a lo hi i j :
  lo <= i <= hi -> lo <= j <= hi ->
  Permutation (contents (swapVariables a i j) lo hi) (contents a lo hi).
Proof.
  intros Hi Hj. unfold contents.
  rewrite (map_ext _ (fun k => a (transpose i j k)) (swap_transpose a i j)).
  rewrite <- (map_map (transpose i j) a).
  apply Permutation_map. apply NoDup_Permutation.
  - apply Finite.Injective_map_NoDup; [|apply indices_NoDup].
    intros x y Hxy.
    rewrite <- (transpose_involutive i j x), <- (transpose_involutive i j y).
    now rewrite Hxy.
  - apply indices_NoDup.
  - intros k. rewrite in_map_iff, in_indices. split.
    + intros (k' & <- & Hk'). apply in_indices in Hk'.
      now apply transpose_range.
    + intros Hk. exists (transpose i j k). split.
      * apply transpose_involutive.
      * apply in_indices. now apply transpose_range.
Qed.

End SwapFacts.

(** ** What a run confined to a range can change *)

Section ReachesFacts.

Context {E : Type}.
Implicit Types s : State E.

Lemma reaches_trans P s1 s2 s3 :
  reaches P s1 s2 -> reaches P s2 s3 -> reaches P s1 s3.
Proof.
  intros H12 H23. induction H23.
  - assumption.
  - apply reaches_log; auto.
  - apply reaches_swap; auto.
Qed.

Lemma reaches_weaken (P Q : Event -> Prop) s s' :
  (forall e, P e -> Q e) -> reaches P s s' -> reaches Q s s'.
Proof.
  intros HPQ H. induction H.
  - apply reaches_refl.
  - apply reaches_log; auto.
  - apply reaches_swap; auto.
Qed.


Section InRange.

Variables (P : Event -> Prop) (lo hi : Z).
Hypothesis HP : forall e, P e -> eventInRange lo hi e.

(** Cells outside the range keep their element. *)
Lemma reaches_frame s s' :
  reaches P s s' ->
  forall k, ~ (lo <= k <= hi) -> array s' k = array s k.
Proof.
  intros H k Hk. induction H as [s|s s' e _ IH He|s s' i j _ IH Hij]; simpl.
  - reflexivity.
  - assumption.
  - apply HP in Hij. simpl in Hij. rewrite swap_other by lia. assumption.
Qed.

(** The contents of the range are permuted. *)
Lemma reaches_perm s s' :
  reaches P s s' ->
  Permutation (contents (array s') lo hi) (contents (array s) lo hi).
Proof.
  intros H. induction H as [s|s s' e _ IH He|s s' i j _ IH Hij]; simpl.
  - apply Permutation_refl.
  - assumption.
  - apply HP in Hij. simpl in Hij.
    etransitivity; [|eassumption]. apply swap_contents_perm; lia.
Qed.

(** A property of every element of the range is kept. *)
Lemma reaches_transfer s s' (Q : E -> Prop) :
  reaches P s s' ->
  (forall k, lo <= k <= hi -> Q (array s k)) ->
  forall k, lo <= k <= hi -> Q (array s' k).
Proof.
  intros H. induction H as [s|s s' e _ IH He|s s' i j _ IH Hij];
    intros HQ; simpl.
  - assumption.
  - now apply IH.
  - apply HP in Hij. simpl in Hij.
    intros k Hk. rewrite swap_transpose. apply IH; [assumption|].
    apply transpose_range; lia.
Qed.

End InRange.

Lemma arrayEvent_inRange lo hi e : arrayEvent lo hi e -> eventInRange lo hi e.
Proof. destruct e; simpl; tauto. Qed.

Lemma arrayEvent_widen lo hi lo' hi' e :
  lo' <= lo -> hi <= hi' -> arrayEvent lo hi e -> arrayEvent lo' hi' e.
Proof. intros Hlo Hhi. destruct e; simpl; lia. Qed.

Lemma arrayEvent_quick lo hi lo' hi' e :
  lo' <= lo -> hi <= hi' -> arrayEvent lo hi e -> quickEvent lo' hi' e.
Proof. intros Hlo Hhi. destruct e; simpl; lia. Qed.

Lemma quickEvent_inRange lo hi e : quickEvent lo hi e -> eventInRange lo hi e.
Proof. destruct e; simpl; tauto. Qed.

Lemma touches_refl lo hi s : touches lo hi s s.
Proof. apply reaches_refl. Qed.

Lemma touches_log lo hi s s' e :
  touches lo hi s s' -> arrayEvent lo hi e -> touches lo hi s (logEvent s' e).
Proof. apply reaches_log. Qed.

Lemma touches_trans lo hi s1 s2 s3 :
  touches lo hi s1 s2 -> touches lo hi s2 s3 -> touches lo hi s1 s3.
Proof. apply reaches_trans. Qed.

Lemma touches_widen lo hi lo' hi' s s' :
  lo' <= lo -> hi <= hi' -> touches lo hi s s' -> touches lo' hi' s s'.
Proof.
  intros Hlo Hhi. apply reaches_weaken. intros e.
  now apply arrayEvent_widen.
Qed.

Lemma touches_swap1 lo hi s i j :
  lo <= i <= hi -> lo <= j <= hi -> touches lo hi s (swapAt s i j).
Proof. intros. apply reaches_swap; [apply reaches_refl|simpl; lia]. Qed.

Lemma touches_frame lo hi s s' :
  touches lo hi s s' ->
  forall k, ~ (lo <= k <= hi) -> array s' k = array s k.
Proof. apply reaches_frame. apply arrayEvent_inRange. Qed.

Lemma touches_transfer lo hi s s' (Q : E -> Prop) :
  touches lo hi s s' ->
  (forall k, lo <= k <= hi -> Q (array s k)) ->
  forall k, lo <= k <= hi -> Q (array s' k).
Proof. apply reaches_transfer. apply arrayEvent_inRange. Qed.

End ReachesFacts.

(** ** The scanning loops, for any comparator *)

Section ScanFacts.

Context {E : Type} (cmp : E -> E -> Z).
Implicit Types s : State E.

(** [maxScanZ] only compares; it returns an index between [firstElement]
    and [j] whose element no scanned element exceeds strictly at the time
    it was compared. *)
Lemma maxScan_confined lo hi n j s k m :
  lo <= m <= hi -> lo <= k -> j <= hi ->
  let r := maxScanZ cmp n j s k m in
  touches lo hi s (snd r) /\ array (snd r) = array s /\
  (fst r = m \/ k <= fst r <= j).
Proof.
  revert s k m. induction n as [|n IH]; intros s k m Hm Hk Hj; simpl.
  - splits; [apply touches_refl|reflexivity|now left].
  - destruct (Z.leb_spec k j) as [Hkj|Hkj]; simpl.
    + set (m' := if cmp (array s k) (array s m) >? 0 then k else m).
      assert (Hm' : lo <= m' <= hi) by (subst m'; destruct (_ >? _); lia).
      destruct (IH (logEvent s (EvCompare k m)) (k + 1) m' Hm' ltac:(lia) Hj)
        as (Ht & Ha & Hr).
      split; [|split].
      * eapply touches_trans; [|exact Ht].
        apply touches_log; [apply touches_refl|]. simpl. lia.
      * rewrite Ha. reflexivity.
      * destruct Hr as [Hr|Hr]; [|right; lia].
        rewrite Hr. subst m'. destruct (_ >? _); [right; lia|now left].
    + split; [apply touches_refl|]. split; [reflexivity|now left].
Qed.

(** [scanUpZ]: the cursor stops at the first cell above [i] that is past
    [lastElement] or holds an element greater than the pivot. *)
Lemma scanUp_spec n firstElement lastElement s i :
  firstElement <= i -> lastElement - i <= Z.of_nat n ->
  let r := scanUpZ cmp n firstElement lastElement s i in
  touches firstElement lastElement s (snd r) /\
  array (snd r) = array s /\
  i < fst r /\ (fst r <= lastElement + 1 \/ fst r = i + 1) /\
  (forall k, i < k < fst r ->
             cmp (array s k) (array s firstElement) <= 0) /\
  (fst r <= lastElement ->
   cmp (array s (fst r)) (array s firstElement) > 0).
Proof.
  revert s i. induction n as [|n IH]; intros s i Hi Hn; simpl.
  - splits; try apply touches_refl; try reflexivity; intros; lia.
  - destruct (Z.leb_spec (i + 1) lastElement) as [Hle|Hgt]; simpl.
    + destruct (Z.leb_spec (cmp (array s (i + 1)) (array s firstElement)) 0)
        as [Hc|Hc]; simpl.
      * destruct (IH (logEvent s (EvCompare (i + 1) firstElement)) (i + 1)
                     ltac:(lia) ltac:(lia))
          as (Ht & Ha & Hlt & Hub & Hall & Hstop).
        simpl in Ha, Hall, Hstop.
        splits; try lia;
          match goal with
          | |- touches _ _ _ _ =>
              eapply touches_trans; [|exact Ht];
              apply touches_log; [apply touches_refl|]; simpl; lia
          | |- array _ = _ => rewrite Ha; reflexivity
          | |- forall k, _ =>
              intros k Hk; destruct (Z.eq_dec k (i + 1)) as [->|Hne];
              [assumption|]; apply Hall; lia
          end.
      * splits; try reflexivity; try (intros; lia).
        apply touches_log; [apply touches_refl|]. simpl. lia.
    + splits; try apply touches_refl; try reflexivity; intros; lia.
Qed.

(** [scanDownZ]: the cursor stops at the first cell below [j] that is
    [firstElement] or lower, or holds an element less than the pivot. *)
Lemma scanDown_spec n firstElement lastElement s j :
  j <= lastElement + 1 -> j - 1 - firstElement <= Z.of_nat n ->
  let r := scanDownZ cmp n firstElement s j in
  touches firstElement lastElement s (snd r) /\
  array (snd r) = array s /\
  fst r < j /\ (firstElement <= fst r \/ fst r = j - 1) /\
  (forall k, fst r < k < j ->
             cmp (array s k) (array s firstElement) >= 0) /\
  (firstElement < fst r ->
   cmp (array s (fst r)) (array s firstElement) < 0).
Proof.
  revert s j. induction n as [|n IH]; intros s j Hj Hn; simpl.
  - splits; try apply touches_refl; try reflexivity; intros; lia.
  - destruct (Z.gtb_spec (j - 1) firstElement) as [Hgt|Hle]; simpl.
    + destruct (Z.geb_spec (cmp (array s (j - 1)) (array s firstElement)) 0)
        as [Hc|Hc]; simpl.
      * destruct (IH (logEvent s (EvCompare (j - 1) firstElement)) (j - 1)
                     ltac:(lia) ltac:(lia))
          as (Ht & Ha & Hlt & Hlb & Hall & Hstop).
        simpl in Ha, Hall, Hstop.
        splits; try lia;
          match goal with
          | |- touches _ _ _ _ =>
              eapply touches_trans; [|exact Ht];
              apply touches_log; [apply touches_refl|]; simpl; lia
          | |- array _ = _ => rewrite Ha; reflexivity
          | |- forall k, _ =>
              intros k Hk; destruct (Z.eq_dec k (j - 1)) as [->|Hne];
              [lia|]; apply Hall; lia
          end.
      * splits; try reflexivity; try (intros; lia).
        apply touches_log; [apply touches_refl|]. simpl. lia.
    + splits; try apply touches_refl; try reflexivity; intros; lia.
Qed.

End ScanFacts.

(** ** The Hoare partition, for any comparator *)

Section PartitionFacts.

Context {E : Type} (cmp : E -> E -> Z).
Implicit Types s : State E.

(** The cursor loop of lines 110-124.  Cells left of [i] hold elements
    that compare [<= 0] with the pivot at [firstElement], cells from [j]
    on hold elements that compare [>= 0]; the loop is left with [j < i]. *)
Lemma partitionLoop_spec n firstElement lastElement s i j :
  firstElement <= i -> i < j -> j <= lastElement + 1 ->
  j - i <= Z.of_nat n ->
  (forall p, firstElement < p <= i ->
             cmp (array s p) (array s firstElement) <= 0) ->
  (forall p, j <= p <= lastElement ->
             cmp (array s p) (array s firstElement) >= 0) ->
  let '(i', j', s') := partitionLoopZ cmp n firstElement lastElement s i j in
  touches firstElement lastElement s s' /\
  array s' firstElement = array s firstElement /\
  firstElement <= j' /\ j' < i' /\ i' <= lastElement + 1 /\
  firstElement < i' /\
  (forall p, firstElement < p < i' ->
             cmp (array s' p) (array s' firstElement) <= 0) /\
  (forall p, j' < p <= lastElement ->
             cmp (array s' p) (array s' firstElement) >= 0).
Proof.
  revert s i j. induction n as [|n IH]; intros s i j Hi Hij Hj Hn Hlow Hhigh.
  - lia.
  - simpl.
    pose proof (scanUp_spec cmp (Z.to_nat (lastElement - i))
                            firstElement lastElement s i Hi ltac:(lia)) as Hup.
    destruct (scanUpZ cmp (Z.to_nat (lastElement - i)) firstElement lastElement s i)
      as [i1 s1] eqn:Eup.
    simpl in Hup. destruct Hup as (Ht1 & Ha1 & Hi1 & Hi1ub & Hup & Hupstop).
    pose proof (scanDown_spec cmp (Z.to_nat (j - 1 - firstElement))
                              firstElement lastElement s1 j Hj ltac:(lia)) as Hdn.
    destruct (scanDownZ cmp (Z.to_nat (j - 1 - firstElement)) firstElement s1 j)
      as [j1 s2] eqn:Edn.
    simpl in Hdn. destruct Hdn as (Ht2 & Ha2 & Hj1 & Hj1lb & Hdn & Hdnstop).
    rewrite Ha1 in Hdn, Hdnstop.
    assert (Ht : touches firstElement lastElement s s2)
      by (eapply touches_trans; eassumption).
    assert (Ha : array s2 = array s) by congruence.
    destruct (Z.ltb_spec j1 i1) as [Hcross|Hnocross].
    + splits; try lia; try assumption.
      * now rewrite Ha.
      * intros p Hp. rewrite Ha.
        destruct (Z_le_gt_dec p i); [apply Hlow|apply Hup]; lia.
      * intros p Hp. rewrite Ha.
        destruct (Z_le_gt_dec j p); [apply Hhigh|apply Hdn]; lia.
    + assert (Hgt : cmp (array s i1) (array s firstElement) > 0)
        by (apply Hupstop; lia).
      assert (Hlt : cmp (array s j1) (array s firstElement) < 0)
        by (apply Hdnstop; lia).
      assert (Hne : i1 <> j1) by (intros ->; lia).
      assert (Hsw : forall p, array (swapAt s2 i1 j1) p
                              = swapVariables (array s) i1 j1 p)
        by (intros p; simpl; now rewrite Ha).
      specialize (IH (swapAt s2 i1 j1) i1 j1 ltac:(lia) ltac:(lia) ltac:(lia)
                     ltac:(lia)).
      destruct (partitionLoopZ cmp n firstElement lastElement (swapAt s2 i1 j1) i1 j1)
        as [[i' j'] s'] eqn:Eloop.
      assert (Hpiv : array (swapAt s2 i1 j1) firstElement = array s firstElement)
        by (rewrite Hsw; apply swap_other; lia).
      destruct IH as (Ht' & Ha' & Hb1 & Hb2 & Hb3 & Hb4 & Hlow' & Hhigh').
      * intros p Hp. rewrite Hpiv, Hsw.
        destruct (Z.eq_dec p i1) as [->|Hpi].
        -- rewrite swap_left. lia.
        -- rewrite swap_other by lia.
           destruct (Z_le_gt_dec p i); [apply Hlow|apply Hup]; lia.
      * intros p Hp. rewrite Hpiv, Hsw.
        destruct (Z.eq_dec p j1) as [->|Hpj].
        -- rewrite swap_right. lia.
        -- rewrite swap_other by lia.
           destruct (Z_le_gt_dec j p); [apply Hhigh|apply Hdn]; lia.
      * splits; try lia; try assumption.
        -- eapply touches_trans; [exact Ht|].
           eapply touches_trans; [|exact Ht'].
           apply touches_swap1; lia.
        -- now rewrite Ha', Hpiv.
Qed.

Lemma shiftr_half size : Z.shiftr size 1 = size / 2.
Proof. now rewrite Z.shiftr_div_pow2 by lia. Qed.

(** Lines 104-126 as a whole: the cells left of [j] compare [<= 0] with
    the pivot now at [j], those between the cursors compare [= 0], those
    from [i] on compare [>= 0]. *)
Lemma partitionRange_spec s firstElement lastElement :
  firstElement <= lastElement ->
  let '(i, j, s') := partitionRangeZ cmp s firstElement lastElement in
  touches firstElement lastElement s s' /\
  firstElement <= j /\ j < i /\ i <= lastElement + 1 /\
  (forall p, firstElement <= p < j ->
             cmp (array s' p) (array s' j) <= 0) /\
  (forall p, j < p < i -> cmp (array s' p) (array s' j) = 0) /\
  (forall p, i <= p <= lastElement ->
             cmp (array s' p) (array s' j) >= 0).
Proof.
  intros Hfl. unfold partitionRangeZ.
  set (mid := firstElement + Z.shiftr (lastElement - firstElement + 1) 1).
  assert (Hmid : firstElement <= mid <= lastElement).
  { subst mid. rewrite shiftr_half. Z.div_mod_to_equations. lia. }
  pose proof (partitionLoop_spec
                (Z.to_nat (lastElement + 1 - firstElement))
                firstElement lastElement (swapAt s mid firstElement)
                firstElement (lastElement + 1)
                ltac:(lia) ltac:(lia) ltac:(lia) ltac:(lia)
                ltac:(intros; lia) ltac:(intros; lia)) as Hloop.
  destruct (partitionLoopZ cmp (Z.to_nat (lastElement + 1 - firstElement))
                          firstElement lastElement (swapAt s mid firstElement)
                          firstElement (lastElement + 1))
    as [[i j] s2] eqn:Eloop.
  destruct Hloop as (Ht & Hpiv & Hb1 & Hb2 & Hb3 & Hb4 & Hlow & Hhigh).
  assert (Hj : array (swapAt s2 j firstElement) j = array s2 firstElement)
    by (simpl; apply swap_left).
  splits; try lia.
  - apply (touches_trans _ _ _ (swapAt s mid firstElement));
      [apply touches_swap1; lia|].
    eapply touches_trans; [exact Ht|]. apply touches_swap1; lia.
  - intros p Hp. rewrite Hj. simpl.
    destruct (Z.eq_dec p firstElement) as [->|Hpf].
    + rewrite swap_right. apply Hlow. lia.
    + rewrite swap_other by lia. apply Hlow. lia.
  - intros p Hp. rewrite Hj. simpl. rewrite swap_other by lia.
    pose proof (Hlow p ltac:(lia)). pose proof (Hhigh p ltac:(lia)). lia.
  - intros p Hp. rewrite Hj. simpl. rewrite swap_other by lia.
    apply Hhigh. lia.
Qed.

End PartitionFacts.

(** ** Consistent comparators *)

Section ConsistentFacts.

Context {E : Type} (cmp : E -> E -> Z) (Hc : Consistent cmp).

Lemma cmp_refl x : cmp x x = 0.
Proof. pose proof (cmp_flip cmp Hc x x). lia. Qed.

Lemma cmp_ge_le x y : cmp x y >= 0 -> cmp y x <= 0.
Proof. pose proof (cmp_flip cmp Hc y x). lia. Qed.

Lemma cmp_le_ge x y : cmp x y <= 0 -> cmp y x >= 0.
Proof. pose proof (cmp_flip cmp Hc x y). lia. Qed.

Lemma cmp_eq_sym x y : cmp x y = 0 -> cmp y x = 0.
Proof.
  pose proof (cmp_flip cmp Hc x y). pose proof (cmp_flip cmp Hc y x). lia.
Qed.

Lemma cmp_eq_trans x y z : cmp x y = 0 -> cmp x z = 0 -> cmp y z = 0.
Proof.
  intros Hxy Hxz.
  pose proof (cmp_eq_sym x y Hxy). pose proof (cmp_eq_sym x z Hxz).
  pose proof (cmp_trans cmp Hc y x z ltac:(lia) ltac:(lia)).
  pose proof (cmp_trans cmp Hc z x y ltac:(lia) ltac:(lia)).
  pose proof (cmp_flip cmp Hc z y). lia.
Qed.

(** Adjacent order is order of every pair. *)
Lemma sorted_ordered a lo hi :
  sortedRange cmp a lo hi -> orderedRange cmp a lo hi.
Proof.
  intros Hs p q Hp Hpq Hq.
  remember (Z.to_nat (q - p - 1)) as d eqn:Hd.
  revert q Hpq Hq Hd. induction d as [|d IH]; intros q Hpq Hq Hd.
  - replace q with (p + 1) by lia. apply Hs. lia.
  - apply (cmp_trans cmp Hc _ (a (q - 1))).
    + apply IH; lia.
    + replace q with (q - 1 + 1) at 2 by lia. apply Hs. lia.
Qed.

Lemma ordered_sorted a lo hi :
  orderedRange cmp a lo hi -> sortedRange cmp a lo hi.
Proof. intros Ho i Hi. apply Ho; lia. Qed.

End ConsistentFacts.

(** ** Selection sort *)

Section SelectionFacts.

Context {E : Type} (cmp : E -> E -> Z).
Implicit Types s : State E.

(** For any comparator the selection sort stays inside its range. *)
Lemma selectionLoop_touches n firstElement lastElement s j :
  firstElement <= j -> j <= lastElement ->
  touches firstElement lastElement s (selectionLoopZ cmp n firstElement s j).
Proof.
  revert s j. induction n as [|n IH]; intros s j Hfj Hjl; simpl.
  - apply touches_refl.
  - destruct (Z.gtb_spec j firstElement) as [Hgt|Hle]; [|apply touches_refl].
    pose proof (maxScan_confined cmp firstElement lastElement
                  (Z.to_nat (j - firstElement)) j s (firstElement + 1)
                  firstElement ltac:(lia) ltac:(lia) ltac:(lia)) as Hm.
    destruct (maxScanZ cmp (Z.to_nat (j - firstElement)) j s
                      (firstElement + 1) firstElement) as [m s1].
    simpl in Hm. destruct Hm as (Ht & _ & Hr).
    eapply touches_trans; [exact Ht|].
    eapply touches_trans; [|apply IH; lia].
    apply touches_swap1; lia.
Qed.

Lemma selectionSort_touches s firstElement lastElement :
  firstElement <= lastElement ->
  touches firstElement lastElement s
          (selectionSortZ cmp s firstElement lastElement).
Proof. intros. apply selectionLoop_touches; lia. Qed.

Hypothesis Hc : Consistent cmp.

(** [maxScanZ] returns the index of a maximum of [firstElement .. j]. *)
Lemma maxScan_max n firstElement j s k m :
  firstElement <= m -> m < k -> k <= j + 1 -> j + 1 - k <= Z.of_nat n ->
  (forall p, firstElement <= p < k -> cmp (array s p) (array s m) <= 0) ->
  let r := maxScanZ cmp n j s k m in
  firstElement <= fst r <= j /\
  (forall p, firstElement <= p <= j ->
             cmp (array s p) (array s (fst r)) <= 0).
Proof.
  revert s k m. induction n as [|n IH]; intros s k m Hm Hmk Hkj Hn Hmax; simpl.
  - split; [lia|]. intros p Hp. apply Hmax. lia.
  - destruct (Z.leb_spec k j) as [Hle|Hgt]; simpl.
    + apply (IH (logEvent s (EvCompare k m))); simpl; try lia.
      * destruct (_ >? _); lia.
      * destruct (_ >? _); lia.
      * intros p Hp.
        destruct (Z.gtb_spec (cmp (array s k) (array s m)) 0) as [Hgt|Hngt].
        -- destruct (Z.eq_dec p k) as [->|Hpk].
           ++ rewrite (cmp_refl cmp Hc). lia.
           ++ apply (cmp_trans cmp Hc _ (array s m)).
              ** apply Hmax. lia.
              ** apply (cmp_ge_le cmp Hc). lia.
        -- destruct (Z.eq_dec p k) as [->|Hpk]; [lia|].
           apply Hmax. lia.
    + split; [lia|]. intros p Hp. apply Hmax. lia.
Qed.

(** The invariant of [while (j > firstElement)]: every pair whose upper
    cell lies above [j] is in order. *)
Lemma selectionLoop_ordered n firstElement lastElement s j :
  firstElement <= j -> j <= lastElement ->
  j - firstElement <= Z.of_nat n ->
  (forall p q, firstElement <= p -> p < q -> q <= lastElement -> j < q ->
               cmp (array s p) (array s q) <= 0) ->
  orderedRange cmp (array (selectionLoopZ cmp n firstElement s j))
               firstElement lastElement.
Proof.
  revert s j. induction n as [|n IH]; intros s j Hfj Hjl Hn Hinv; simpl.
  - intros p q Hp Hpq Hq. apply Hinv; lia.
  - destruct (Z.gtb_spec j firstElement) as [Hgt|Hle].
    2:{ intros p q Hp Hpq Hq. apply Hinv; lia. }
    pose proof (maxScan_confined cmp firstElement lastElement
                  (Z.to_nat (j - firstElement)) j s (firstElement + 1)
                  firstElement ltac:(lia) ltac:(lia) ltac:(lia)) as Hm.
    pose proof (maxScan_max (Z.to_nat (j - firstElement)) firstElement j s
                  (firstElement + 1) firstElement
                  ltac:(lia) ltac:(lia) ltac:(lia) ltac:(lia)) as Hmax.
    destruct (maxScanZ cmp (Z.to_nat (j - firstElement)) j s
                      (firstElement + 1) firstElement) as [m s1].
    simpl in Hm, Hmax. destruct Hm as (_ & Ha & _).
    destruct Hmax as (Hmr & Hmax).
    { intros p Hp. replace p with firstElement by lia.
      rewrite (cmp_refl cmp Hc). lia. }
    apply (IH (swapAt s1 j m) (j - 1)); try lia.
    intros p q Hp Hpq Hq Hjq. simpl. rewrite Ha.
    rewrite !swap_transpose.
    destruct (Z.eq_dec q j) as [->|Hqj].
    + (* the cell that receives the maximum *)
      replace (transpose j m j) with m
        by (unfold transpose; now rewrite Z.eqb_refl).
      apply Hmax. unfold transpose.
      destruct (Z.eqb_spec p j); [lia|].
      destruct (Z.eqb_spec p m); lia.
    + replace (transpose j m q) with q
        by (unfold transpose; destruct (Z.eqb_spec q j); [lia|];
            destruct (Z.eqb_spec q m); [lia|reflexivity]).
      apply Hinv; try lia.
      * unfold transpose. destruct (Z.eqb_spec p j); [lia|].
        destruct (Z.eqb_spec p m); lia.
      * unfold transpose. destruct (Z.eqb_spec p j); [lia|].
        destruct (Z.eqb_spec p m); lia.
Qed.

Lemma selectionSort_ordered s firstElement lastElement :
  firstElement <= lastElement ->
  orderedRange cmp (array (selectionSortZ cmp s firstElement lastElement))
               firstElement lastElement.
Proof.
  intros Hfl. apply selectionLoop_ordered; intros; lia.
Qed.

End SelectionFacts.

(** ** One trip of the outer loop, in terms of the pending ranges *)

Section QuickStepFacts.

Context {E : Type} (cmp : E -> E -> Z).
Implicit Types (s : State E) (c : QConfig E).

(** A short range is sorted by selection and leaves the pending list. *)
Lemma quickStep_small c :
  qlast c - qfirst c + 1 <= 8 ->
  afterStep (quickStepZ cmp c)
  = (selectionSortZ cmp (qstate c) (qfirst c) (qlast c), qstack c).
Proof.
  intros Hsize. unfold quickStepZ.
  destruct (Z.leb_spec (qlast c - qfirst c + 1) 8); [|lia].
  unfold popNext. destruct (qstack c) as [|[f l] rest]; reflexivity.
Qed.

(** A long range is partitioned; its two sides replace it in the pending
    list, the one to continue with first, each only if it has two
    elements or more.  One stack slot is written, the one at
    [stackIndex], if the deferred side is kept. *)
Lemma quickStep_large c i j s1 :
  8 < qlast c - qfirst c + 1 ->
  partitionRangeZ cmp (qstate c) (qfirst c) (qlast c) = (i, j, s1) ->
  afterStep (quickStepZ cmp c)
  = (pushed s1 (qstack c) (snd (subRanges (qfirst c) (qlast c) i j)),
     filter worthSorting [fst (subRanges (qfirst c) (qlast c) i j);
                          snd (subRanges (qfirst c) (qlast c) i j)]
     ++ qstack c).
Proof.
  intros Hsize Hpart. unfold quickStepZ.
  destruct (Z.leb_spec (qlast c - qfirst c + 1) 8); [lia|].
  rewrite Hpart. unfold deferLargerZ, subRanges, pushed, worthSorting, push.
  destruct (Z.geb_spec (j - 1 - qfirst c) (qlast c - i)) as [Hge|Hlt]; simpl.
  - destruct (Z.ltb_spec (qfirst c + 1) j) as [Hl|Hl];
      destruct (Z.ltb_spec (qfirst c) (j - 1)) as [Hl'|Hl']; try lia;
      destruct (Z.ltb_spec i (qlast c)) as [Hr|Hr]; try lia; simpl;
      try reflexivity.
    unfold popNext. destruct (qstack c) as [|[f l] rest]; reflexivity.
  - destruct (Z.ltb_spec i (qlast c)) as [Hr|Hr];
      destruct (Z.ltb_spec (qfirst c + 1) j) as [Hl|Hl];
      destruct (Z.ltb_spec (qfirst c) (j - 1)) as [Hl'|Hl']; try lia; simpl;
      try reflexivity.
    unfold popNext. destruct (qstack c) as [|[f l] rest]; reflexivity.
Qed.

(** The two sides of a partition: disjoint, inside the range with the
    pivot cell left out, and the deferred one at least as long as the
    other. *)
Lemma subRanges_sizes firstElement lastElement i j :
  firstElement <= j -> j < i -> i <= lastElement + 1 ->
  let now := fst (subRanges firstElement lastElement i j) in
  let later := snd (subRanges firstElement lastElement i j) in
  0 <= rangeSize now /\ rangeSize now <= rangeSize later /\
  rangeSize now + rangeSize later <= lastElement - firstElement /\
  (now = (firstElement, j - 1) /\ later = (i, lastElement) \/
   now = (i, lastElement) /\ later = (firstElement, j - 1)).
Proof.
  intros H1 H2 H3. unfold subRanges, rangeSize.
  destruct (Z.geb_spec (j - 1 - firstElement) (lastElement - i));
    simpl; splits; try lia; auto.
Qed.

(** Both cases of a trip, with what the partition guarantees. *)
Lemma quickStep_shape c :
  qfirst c <= qlast c ->
  (qlast c - qfirst c + 1 <= 8 /\
   afterStep (quickStepZ cmp c)
   = (selectionSortZ cmp (qstate c) (qfirst c) (qlast c), qstack c))
  \/
  (8 < qlast c - qfirst c + 1 /\
   exists i j s1,
     touches (qfirst c) (qlast c) (qstate c) s1 /\
     qfirst c <= j /\ j < i /\ i <= qlast c + 1 /\
     (forall p, qfirst c <= p < j -> cmp (array s1 p) (array s1 j) <= 0) /\
     (forall p, j < p < i -> cmp (array s1 p) (array s1 j) = 0) /\
     (forall p, i <= p <= qlast c -> cmp (array s1 p) (array s1 j) >= 0) /\
     afterStep (quickStepZ cmp c)
     = (pushed s1 (qstack c) (snd (subRanges (qfirst c) (qlast c) i j)),
        filter worthSorting [fst (subRanges (qfirst c) (qlast c) i j);
                             snd (subRanges (qfirst c) (qlast c) i j)]
        ++ qstack c)).
Proof.
  intros Hfl.
  destruct (Z_le_gt_dec (qlast c - qfirst c + 1) 8) as [Hs|Hs].
  - left. split; [assumption|]. now apply quickStep_small.
  - right. split; [lia|].
    pose proof (partitionRange_spec cmp (qstate c) (qfirst c) (qlast c) Hfl)
      as Hp.
    destruct (partitionRangeZ cmp (qstate c) (qfirst c) (qlast c))
      as [[i j] s1] eqn:Epart.
    destruct Hp as (Ht & Hb1 & Hb2 & Hb3 & Hlow & Hmid & Hhigh).
    exists i, j, s1. splits; try assumption.
    apply quickStep_large; [lia|assumption].
Qed.

(** Invariants of state and pending ranges are invariants of the loop. *)
Lemma quickLoop_invariant (P : State E -> list (Z * Z) -> Prop)
      (Q : State E -> Prop) :
  (forall c, P (qstate c) (pending c) ->
             P (fst (afterStep (quickStepZ cmp c)))
               (snd (afterStep (quickStepZ cmp c)))) ->
  (forall s rs, P s rs -> Q s) ->
  forall fuel c, P (qstate c) (pending c) ->
  Q (outcomeState (runLoop (quickStepZ cmp) qstate fuel c)).
Proof.
  intros Hstep HQ fuel c Hc.
  apply (runLoop_invariant (quickStepZ cmp) qstate
           (fun c => P (qstate c) (pending c)) Q); try assumption.
  - intros c0 c' Hc0 Hb. specialize (Hstep c0 Hc0). now rewrite Hb in Hstep.
  - intros c0 s Hc0 Hb. specialize (Hstep c0 Hc0). rewrite Hb in Hstep.
    eapply HQ. exact Hstep.
  - intros c0 Hc0. eapply HQ. exact Hc0.
Qed.

Lemma quickLoop_returned (P : State E -> list (Z * Z) -> Prop) :
  (forall c, P (qstate c) (pending c) ->
             P (fst (afterStep (quickStepZ cmp c)))
               (snd (afterStep (quickStepZ cmp c)))) ->
  forall fuel c s, P (qstate c) (pending c) ->
  runLoop (quickStepZ cmp) qstate fuel c = Returned s -> P s [].
Proof.
  intros Hstep fuel c s Hc.
  apply (runLoop_returned (quickStepZ cmp) qstate
           (fun c => P (qstate c) (pending c)) (fun s => P s [])); try assumption.
  - intros c0 c' Hc0 Hb. specialize (Hstep c0 Hc0). now rewrite Hb in Hstep.
  - intros c0 s0 Hc0 Hb. specialize (Hstep c0 Hc0). now rewrite Hb in Hstep.
Qed.

End QuickStepFacts.

(** ** The outer loop, for any comparator: confinement, depth of the
    stack, termination *)

Section QuickLoopFacts.

Context {E : Type} (cmp : E -> E -> Z).
Implicit Types (s : State E) (c : QConfig E).

Lemma pow2_succ n : 2 ^ Z.of_nat (S n) = 2 * 2 ^ Z.of_nat n.
Proof. rewrite Nat2Z.inj_succ. apply Z.pow_succ_r. lia. Qed.

Lemma pow2_pos n : 0 < 2 ^ Z.of_nat n.
Proof. apply Z.pow_pos_nonneg; lia. Qed.

Lemma subRanges_within firstElement lastElement i j :
  firstElement <= j -> j < i -> i <= lastElement + 1 ->
  rangesWithin firstElement lastElement
    (filter worthSorting [fst (subRanges firstElement lastElement i j);
                          snd (subRanges firstElement lastElement i j)]).
Proof.
  intros H1 H2 H3. apply Forall_forall. intros r Hr.
  apply filter_In in Hr. destruct Hr as [Hin Hw].
  unfold worthSorting in Hw. apply Z.ltb_lt in Hw.
  destruct (subRanges_sizes firstElement lastElement i j H1 H2 H3)
    as (_ & _ & _ & Hcases).
  simpl in Hin.
  destruct Hcases as [[Hn Hl]|[Hn Hl]]; rewrite Hn, Hl in Hin;
    destruct Hin as [<-|[<-|[]]]; simpl in *; lia.
Qed.

Lemma rangesWithin_widen lo hi lo' hi' rs :
  lo' <= lo -> hi <= hi' -> rangesWithin lo hi rs -> rangesWithin lo' hi' rs.
Proof.
  intros Hlo Hhi. unfold rangesWithin. apply Forall_impl. intros r. lia.
Qed.

Lemma reaches_pushed lo hi s stack later :
  (worthSorting later = true ->
   9 * 2 ^ Z.of_nat (length stack) <= hi - lo + 1) ->
  reaches (quickEvent lo hi) s (pushed s stack later).
Proof.
  intros H. unfold pushed. destruct (worthSorting later).
  - apply reaches_log; [apply reaches_refl|]. simpl. split; [lia|]. now apply H.
  - apply reaches_refl.
Qed.

(** The invariant is kept by a trip of the loop. *)
Lemma quickStep_inv lo hi s0 c :
  quickInv lo hi s0 (qstate c) (pending c) ->
  quickInv lo hi s0 (fst (afterStep (quickStepZ cmp c)))
                    (snd (afterStep (quickStepZ cmp c))).
Proof.
  intros (Hreach & Hwithin & Hdepth). unfold quickInv.
  unfold pending in Hwithin, Hdepth.
  apply Forall_cons_iff in Hwithin. destruct Hwithin as [Hcur Hstack].
  simpl in Hcur. destruct Hdepth as [Hdcur Hdstack].
  unfold rangeSize in Hdcur. simpl in Hdcur.
  pose proof (pow2_pos (length (qstack c))) as Hpow.
  destruct (quickStep_shape cmp c ltac:(lia))
    as [[Hsize ->]|(Hsize & i & j & s1 & Ht & Hb1 & Hb2 & Hb3 & _ & _ & _ & ->)];
    simpl.
  - splits; try assumption.
    eapply reaches_trans; [exact Hreach|].
    eapply reaches_weaken; [|apply selectionSort_touches; lia].
    intros e. apply arrayEvent_quick; lia.
  - destruct (subRanges_sizes (qfirst c) (qlast c) i j Hb1 Hb2 Hb3)
      as (Hs0 & Hs1 & Hs2 & _).
    set (now := fst (subRanges (qfirst c) (qlast c) i j)) in *.
    set (later := snd (subRanges (qfirst c) (qlast c) i j)) in *.
    splits.
    + eapply reaches_trans; [exact Hreach|].
      eapply reaches_trans.
      * eapply reaches_weaken; [|exact Ht].
        intros e. apply arrayEvent_quick; lia.
      * apply reaches_pushed. intros _. nia.
    + apply Forall_app. split; [|assumption].
      eapply rangesWithin_widen; [| |apply subRanges_within]; lia.
    + set (X := 2 ^ Z.of_nat (length (qstack c))) in *.
      assert (Hnow : rangeSize now * (2 * X) <= hi - lo + 1) by nia.
      assert (Hnow' : rangeSize now * X <= hi - lo + 1) by nia.
      assert (Hlater : rangeSize later * X <= hi - lo + 1) by nia.
      destruct (worthSorting now), (worthSorting later);
        cbn [app depthBounded length]; rewrite ?pow2_succ;
        splits; assumption.
Qed.

(** Every trip removes at least one cell from the pending ranges. *)
Lemma pendingCells_app rs1 rs2 :
  pendingCells (rs1 ++ rs2) = (pendingCells rs1 + pendingCells rs2)%nat.
Proof. induction rs1 as [|r rs1 IH]; simpl; [reflexivity|lia]. Qed.

Lemma quickStep_measure lo hi c :
  rangesWithin lo hi (pending c) ->
  (pendingCells (snd (afterStep (quickStepZ cmp c))) < pendingCells (pending c))%nat.
Proof.
  intros Hwithin. unfold pending in *.
  apply Forall_cons_iff in Hwithin. destruct Hwithin as [Hcur _].
  simpl in Hcur.
  destruct (quickStep_shape cmp c ltac:(lia))
    as [[Hsize ->]|(Hsize & i & j & s1 & Ht & Hb1 & Hb2 & Hb3 & _ & _ & _ & ->)];
    simpl; unfold rangeSize at 1; simpl.
  - lia.
  - destruct (subRanges_sizes (qfirst c) (qlast c) i j Hb1 Hb2 Hb3)
      as (Hs0 & Hs1 & Hs2 & _).
    set (now := fst (subRanges (qfirst c) (qlast c) i j)) in *.
    set (later := snd (subRanges (qfirst c) (qlast c) i j)) in *.
    destruct (worthSorting now), (worthSorting later); simpl; lia.
Qed.

(** The non-stable branch returns, whatever the comparator does. *)
Lemma quickLoop_terminates lo hi s0 c :
  quickInv lo hi s0 (qstate c) (pending c) ->
  forall fuel, (pendingCells (pending c) < fuel)%nat ->
  exists s, runLoop (quickStepZ cmp) qstate fuel c = Returned s.
Proof.
  intros Hinv fuel Hfuel.
  apply (runLoop_terminates (quickStepZ cmp) qstate
           (fun c => quickInv lo hi s0 (qstate c) (pending c))
           (fun c => pendingCells (pending c))); try assumption.
  intros c0 c' Hc0 Hb. split.
  - pose proof (quickStep_inv lo hi s0 c0 Hc0) as H. now rewrite Hb in H.
  - destruct Hc0 as (_ & Hw & _).
    pose proof (quickStep_measure lo hi c0 Hw) as H. now rewrite Hb in H.
Qed.

Lemma quickInv_initial firstElement lastElement s :
  firstElement < lastElement ->
  quickInv firstElement lastElement s s [(firstElement, lastElement)].
Proof.
  intros Hfl. unfold quickInv. splits.
  - apply reaches_refl.
  - constructor; [simpl; lia|constructor].
  - simpl. unfold rangeSize. simpl. split; [lia|exact I].
Qed.

(** The run of the non-stable branch from its first trip. *)
Lemma quickSort_reaches fuel s firstElement lastElement :
  firstElement < lastElement ->
  reaches (quickEvent firstElement lastElement) s
          (outcomeState (quickSortZ cmp fuel s firstElement lastElement)).
Proof.
  intros Hfl. unfold quickSortZ.
  apply (quickLoop_invariant cmp (quickInv firstElement lastElement s)).
  - intros c. apply quickStep_inv.
  - intros s' rs (H & _). exact H.
  - now apply quickInv_initial.
Qed.

Lemma quickSort_terminates s firstElement lastElement :
  firstElement < lastElement ->
  exists s', quickSortZ cmp (S (Z.to_nat (lastElement - firstElement + 1)))
                       s firstElement lastElement = Returned s'.
Proof.
  intros Hfl. unfold quickSortZ.
  apply (quickLoop_terminates firstElement lastElement s).
  - now apply quickInv_initial.
  - simpl. unfold rangeSize. simpl. lia.
Qed.

End QuickLoopFacts.

(** ** The outer loop establishes the order *)

Section QuickOrderFacts.

Context {E : Type} (cmp : E -> E -> Z).
Implicit Types (s : State E) (c : QConfig E) (a : Z -> E).

Lemma disjointRanges_app rs1 rs2 :
  disjointRanges rs1 -> disjointRanges rs2 ->
  (forall r1 r2, In r1 rs1 -> In r2 rs2 -> snd r1 < fst r2 \/ snd r2 < fst r1) ->
  disjointRanges (rs1 ++ rs2).
Proof.
  intros H1 H2 Hx. induction rs1 as [|r rs1 IH]; simpl; [assumption|].
  destruct H1 as [Hr H1]. split.
  - intros r' Hr'. apply in_app_or in Hr'. destruct Hr' as [Hr'|Hr'].
    + now apply Hr.
    + apply Hx; [now left|assumption].
  - apply IH; [assumption|]. intros r1 r2 Hr1 Hr2. apply Hx; [now right|assumption].
Qed.

Lemma sameBlock_app_l rs1 rs2 p q :
  sameBlock rs1 p q -> sameBlock (rs1 ++ rs2) p q.
Proof.
  intros (r & Hr & Hp & Hq). exists r. split; [|tauto].
  apply in_or_app. now left.
Qed.

Lemma sameBlock_app_r rs1 rs2 p q :
  sameBlock rs2 p q -> sameBlock (rs1 ++ rs2) p q.
Proof.
  intros (r & Hr & Hp & Hq). exists r. split; [|tauto].
  apply in_or_app. now right.
Qed.

(** Replacing the range being worked on by sub-ranges of it, after a
    rearrangement inside that range which puts every pair of its cells in
    order unless both lie in one sub-range. *)
Lemma orderedInv_refine lo hi a a' firstElement lastElement subs stack :
  orderedInv cmp lo hi a ((firstElement, lastElement) :: stack) ->
  (forall k, ~ (firstElement <= k <= lastElement) -> a' k = a k) ->
  (forall Q : E -> Prop,
      (forall k, firstElement <= k <= lastElement -> Q (a k)) ->
      forall k, firstElement <= k <= lastElement -> Q (a' k)) ->
  rangesWithin firstElement lastElement subs ->
  disjointRanges subs ->
  (forall p q, firstElement <= p -> p < q -> q <= lastElement ->
               sameBlock subs p q \/ cmp (a' p) (a' q) <= 0) ->
  orderedInv cmp lo hi a' (subs ++ stack).
Proof.
  intros (Hwithin & [Hdcur Hdstack] & Hord) Hframe Htransfer Hsubs Hdsubs Hinside.
  apply Forall_cons_iff in Hwithin. destruct Hwithin as [Hcur Hstack].
  simpl in Hcur, Hdcur.
  assert (Hsep : forall p k, ~ (firstElement <= p <= lastElement) ->
                             firstElement <= k <= lastElement ->
                             ~ sameBlock ((firstElement, lastElement) :: stack) p k
                             /\ ~ sameBlock ((firstElement, lastElement) :: stack) k p).
  { intros p k Hp Hk.
    split; intros (r & [<-|Hr] & Hrp & Hrk); unfold inRange in *; simpl in *;
      try lia; destruct (Hdcur r Hr); lia. }
  unfold orderedInv. splits.
  - apply Forall_app. split; [|assumption].
    eapply Forall_impl; [|exact Hsubs]. intros r. simpl. lia.
  - apply disjointRanges_app; try assumption.
    intros r1 r2 Hr1 Hr2.
    unfold rangesWithin in Hsubs. rewrite Forall_forall in Hsubs.
    specialize (Hsubs r1 Hr1). simpl in Hsubs.
    destruct (Hdcur r2 Hr2); lia.
  - intros p q Hp Hpq Hq.
    destruct (Z_le_gt_dec firstElement p) as [Hp1|Hp1];
      [destruct (Z_le_gt_dec p lastElement) as [Hp2|Hp2]|];
      (destruct (Z_le_gt_dec firstElement q) as [Hq1|Hq1];
       [destruct (Z_le_gt_dec q lastElement) as [Hq2|Hq2]|]); try lia.
    + (* both inside *)
      destruct (Hinside p q Hp1 Hpq Hq2) as [Hb|Hb]; [left|now right].
      now apply sameBlock_app_l.
    + (* p inside, q above *)
      right. rewrite (Hframe q) by lia.
      apply (Htransfer (fun e => cmp e (a q) <= 0)); [|lia].
      intros k Hk. destruct (Hord k q ltac:(lia) ltac:(lia) Hq) as [Hb|Hb];
        [|assumption].
      exfalso. destruct (Hsep q k ltac:(lia) ltac:(lia)) as [_ Hn]. now apply Hn.
    + (* both above *)
      rewrite (Hframe p), (Hframe q) by lia.
      destruct (Hord p q Hp Hpq Hq) as [(r & [<-|Hr] & Hrp & Hrq)|Hb];
        [unfold inRange in *; simpl in *; lia| |now right].
      left. apply sameBlock_app_r. now exists r.
    + (* p below, q inside *)
      right. rewrite (Hframe p) by lia.
      apply (Htransfer (fun e => cmp (a p) e <= 0)); [|lia].
      intros k Hk. destruct (Hord p k Hp ltac:(lia) ltac:(lia)) as [Hb|Hb];
        [|assumption].
      exfalso. destruct (Hsep p k ltac:(lia) ltac:(lia)) as [Hn _]. now apply Hn.
    + (* p below, q above *)
      rewrite (Hframe p), (Hframe q) by lia.
      destruct (Hord p q Hp Hpq Hq) as [(r & [<-|Hr] & Hrp & Hrq)|Hb];
        [unfold inRange in *; simpl in *; lia| |now right].
      left. apply sameBlock_app_r. now exists r.
    + (* both below *)
      rewrite (Hframe p), (Hframe q) by lia.
      destruct (Hord p q Hp Hpq Hq) as [(r & [<-|Hr] & Hrp & Hrq)|Hb];
        [unfold inRange in *; simpl in *; lia| |now right].
      left. apply sameBlock_app_r. now exists r.
Qed.

Hypothesis Hc : Consistent cmp.

(** After a partition every pair of cells of the range is in order
    unless both lie on the same side. *)
Lemma partition_orders a firstElement lastElement i j :
  firstElement <= j -> j < i -> i <= lastElement + 1 ->
  (forall p, firstElement <= p < j -> cmp (a p) (a j) <= 0) ->
  (forall p, j < p < i -> cmp (a p) (a j) = 0) ->
  (forall p, i <= p <= lastElement -> cmp (a p) (a j) >= 0) ->
  forall p q, firstElement <= p -> p < q -> q <= lastElement ->
    sameBlock (filter worthSorting
                      [fst (subRanges firstElement lastElement i j);
                       snd (subRanges firstElement lastElement i j)]) p q
    \/ cmp (a p) (a q) <= 0.
Proof.
  intros Hb1 Hb2 Hb3 Hlow Hmid Hhigh p q Hp Hpq Hq.
  assert (Hin : forall r, r = (firstElement, j - 1) \/ r = (i, lastElement) ->
                          In r [fst (subRanges firstElement lastElement i j);
                                snd (subRanges firstElement lastElement i j)]).
  { intros r Hr.
    destruct (subRanges_sizes firstElement lastElement i j Hb1 Hb2 Hb3)
      as (_ & _ & _ & [[-> ->]|[-> ->]]); destruct Hr as [->| ->];
      simpl; auto. }
  assert (Hle : forall x, x <= j -> firstElement <= x ->
                          cmp (a x) (a j) <= 0).
  { intros x Hx Hx'. destruct (Z.eq_dec x j) as [->|Hne].
    - rewrite (cmp_refl cmp Hc). lia.
    - apply Hlow. lia. }
  assert (Hge : forall x, j < x -> x <= lastElement -> cmp (a j) (a x) <= 0).
  { intros x Hx Hx'. apply (cmp_ge_le cmp Hc).
    destruct (Z_lt_ge_dec x i).
    - rewrite Hmid by lia. lia.
    - apply Hhigh. lia. }
  destruct (Z_lt_ge_dec q j) as [Hqj|Hqj].
  - left. exists (firstElement, j - 1). split.
    + apply filter_In. split; [apply Hin; now left|].
      unfold worthSorting. simpl. apply Z.ltb_lt. lia.
    + unfold inRange. simpl. lia.
  - destruct (Z_le_gt_dec p j) as [Hpj|Hpj].
    + right. destruct (Z.eq_dec q j) as [->|Hne].
      * apply Hle; lia.
      * apply (cmp_trans cmp Hc _ (a j)); [apply Hle|apply Hge]; lia.
    + destruct (Z_lt_ge_dec p i) as [Hpi|Hpi].
      * right. apply (cmp_trans cmp Hc _ (a j)); [|apply Hge; lia].
        rewrite Hmid by lia. lia.
      * left. exists (i, lastElement). split.
        -- apply filter_In. split; [apply Hin; now right|].
           unfold worthSorting. simpl. apply Z.ltb_lt. lia.
        -- unfold inRange. simpl. lia.
Qed.

Lemma subRanges_disjoint firstElement lastElement i j :
  firstElement <= j -> j < i -> i <= lastElement + 1 ->
  disjointRanges
    (filter worthSorting [fst (subRanges firstElement lastElement i j);
                          snd (subRanges firstElement lastElement i j)]).
Proof.
  intros Hb1 Hb2 Hb3.
  destruct (subRanges_sizes firstElement lastElement i j Hb1 Hb2 Hb3)
    as (_ & _ & _ & [[-> ->]|[-> ->]]); unfold worthSorting; simpl;
    destruct (firstElement <? j - 1), (i <? lastElement); simpl;
    splits; try exact I;
    intros r' Hr'; simpl in Hr'; try contradiction;
    destruct Hr' as [<-|Hr']; try contradiction; simpl; lia.
Qed.

Lemma array_pushed s stack later : array (pushed s stack later) = array s.
Proof. unfold pushed. now destruct (worthSorting later). Qed.

(** A trip of the outer loop keeps the order established so far. *)
Lemma quickStep_ordered lo hi c :
  orderedInv cmp lo hi (array (qstate c)) (pending c) ->
  orderedInv cmp lo hi (array (fst (afterStep (quickStepZ cmp c))))
                       (snd (afterStep (quickStepZ cmp c))).
Proof.
  intros Hinv. pose proof Hinv as (Hwithin & _ & _).
  unfold pending in *.
  apply Forall_cons_iff in Hwithin. destruct Hwithin as [Hcur _].
  simpl in Hcur.
  destruct (quickStep_shape cmp c ltac:(lia))
    as [[Hsize ->]
       |(Hsize & i & j & s1 & Ht & Hb1 & Hb2 & Hb3 & Hlow & Hmid & Hhigh & ->)];
    cbn [fst snd].
  - change (qstack c) with ([] ++ qstack c).
    pose proof (selectionSort_touches cmp (qstate c) (qfirst c) (qlast c)
                                      ltac:(lia)) as Ht.
    eapply orderedInv_refine; try exact Hinv.
    + intros k Hk. now apply (touches_frame _ _ _ _ Ht).
    + intros Q. now apply touches_transfer.
    + constructor.
    + exact I.
    + intros p q Hp Hpq Hq. right.
      apply (selectionSort_ordered cmp Hc); lia.
  - rewrite array_pushed.
    eapply orderedInv_refine; try exact Hinv.
    + intros k Hk. now apply (touches_frame _ _ _ _ Ht).
    + intros Q. now apply touches_transfer.
    + now apply subRanges_within.
    + now apply subRanges_disjoint.
    + now apply partition_orders.
Qed.

(** When the non-stable branch returns, the range is in order. *)
Lemma quickSort_sorted fuel s firstElement lastElement s' :
  firstElement < lastElement ->
  quickSortZ cmp fuel s firstElement lastElement = Returned s' ->
  sortedRange cmp (array s') firstElement lastElement.
Proof.
  intros Hfl Hrun. unfold quickSortZ in Hrun.
  apply (quickLoop_returned cmp
           (fun s rs => orderedInv cmp firstElement lastElement (array s) rs))
    in Hrun.
  - destruct Hrun as (_ & _ & Hord). intros k Hk.
    destruct (Hord k (k + 1) ltac:(lia) ltac:(lia) ltac:(lia))
      as [(r & [] & _)|H]. exact H.
  - intros c. apply quickStep_ordered.
  - unfold orderedInv, pending. simpl. splits.
    + constructor; [simpl; lia|constructor].
    + intros r' [].
    + exact I.
    + intros p q Hp Hpq Hq. left. exists (firstElement, lastElement).
      unfold inRange. simpl. split; [now left|lia].
Qed.

End QuickOrderFacts.

(** ** The stable branch *)

Section StableFacts.

Context {E : Type} (cmp : E -> E -> Z).
Implicit Types (s : State E) (a : Z -> E).

Lemma stableStep_exit firstElement lastElement s i :
  lastElement <= i -> stableStep cmp firstElement lastElement (s, i) = inr s.
Proof.
  intros H. unfold stableStep.
  destruct (Z.ltb_spec i lastElement); [lia|reflexivity].
Qed.

Lemma stableStep_keep firstElement lastElement s i :
  i < lastElement -> cmp (array s i) (array s (i + 1)) <= 0 ->
  stableStep cmp firstElement lastElement (s, i)
  = inl (logEvent s (EvCompare i (i + 1)), i + 1).
Proof.
  intros Hi Hle. unfold stableStep, compareAt.
  destruct (Z.ltb_spec i lastElement); [|lia].
  destruct (Z.gtb_spec (cmp (array s i) (array s (i + 1))) 0); [lia|reflexivity].
Qed.

Lemma stableStep_swap firstElement lastElement s i :
  i < lastElement -> cmp (array s i) (array s (i + 1)) > 0 ->
  stableStep cmp firstElement lastElement (s, i)
  = inl (swapAt (logEvent s (EvCompare i (i + 1))) i (i + 1),
         if i >? firstElement then i - 1 else i + 1).
Proof.
  intros Hi Hgt. unfold stableStep, compareAt.
  destruct (Z.ltb_spec i lastElement); [|lia].
  destruct (Z.gtb_spec (cmp (array s i) (array s (i + 1))) 0); [|lia].
  destruct (i >? firstElement); do 2 f_equal; lia.
Qed.

(** Whatever the comparator, the cursor stays in the range and only
    cells of the range are compared and swapped. *)
Lemma stableStep_confined firstElement lastElement s0 s i c' :
  (firstElement <= i <= lastElement /\ touches firstElement lastElement s0 s) ->
  stableStep cmp firstElement lastElement (s, i) = inl c' ->
  firstElement <= snd c' <= lastElement /\
  touches firstElement lastElement s0 (fst c').
Proof.
  intros [Hi Ht] Hstep.
  destruct (Z_lt_ge_dec i lastElement) as [Hlt|Hge];
    [|rewrite stableStep_exit in Hstep by lia; discriminate].
  destruct (Z_le_gt_dec (cmp (array s i) (array s (i + 1))) 0) as [Hle|Hgt].
  - rewrite stableStep_keep in Hstep by assumption.
    injection Hstep as <-. simpl. split; [lia|].
    apply touches_log; [assumption|]. simpl. lia.
  - rewrite stableStep_swap in Hstep by assumption.
    injection Hstep as <-. simpl. split.
    + destruct (Z.gtb_spec i firstElement); lia.
    + eapply touches_trans; [exact Ht|].
      eapply touches_trans; [|apply touches_swap1; lia].
      apply touches_log; [apply touches_refl|]. simpl. lia.
Qed.

Lemma stableSort_touches fuel s firstElement lastElement :
  firstElement <= lastElement ->
  touches firstElement lastElement s
          (outcomeState (stableSort cmp fuel s firstElement lastElement)).
Proof.
  intros Hfl. unfold stableSort.
  apply (runLoop_invariant (stableStep cmp firstElement lastElement) fst
           (fun c => firstElement <= snd c <= lastElement /\
                     touches firstElement lastElement s (fst c))).
  - intros [s1 i] c' Hinv Hstep. eapply stableStep_confined; eassumption.
  - intros [s1 i] s' [Hi Ht] Hstep. simpl in Hi, Ht.
    destruct (Z_lt_ge_dec i lastElement) as [Hlt|Hge].
    + destruct (Z_le_gt_dec (cmp (array s1 i) (array s1 (i + 1))) 0).
      * rewrite stableStep_keep in Hstep by assumption. discriminate.
      * rewrite stableStep_swap in Hstep by assumption. discriminate.
    + rewrite stableStep_exit in Hstep by lia. now injection Hstep as <-.
  - intros c [_ Ht]. exact Ht.
  - simpl. split; [lia|apply touches_refl].
Qed.

(** Walking up a stretch that is already in order: no swap, the cursor
    reaches its end. *)
Lemma stable_walk firstElement lastElement n : forall s i m,
  Z.to_nat (m - i) = n -> i <= m -> m <= lastElement ->
  sortedRange cmp (array s) i m ->
  exists s', array s' = array s /\
    forall k, runLoop (stableStep cmp firstElement lastElement) fst (n + k) (s, i)
              = runLoop (stableStep cmp firstElement lastElement) fst k (s', m).
Proof.
  induction n as [|n IH]; intros s i m Hn Him Hml Hsorted.
  - assert (i = m) by lia. subst i. exists s. split; reflexivity.
  - destruct (IH (logEvent s (EvCompare i (i + 1))) (i + 1) m)
      as (s' & Ha & Hrun); try lia.
    + intros k Hk. simpl. apply Hsorted. lia.
    + exists s'. split; [exact Ha|]. intros k.
      change (S n + k)%nat with (S (n + k)).
      rewrite (runLoop_inl _ _ _ _ (logEvent s (EvCompare i (i + 1)), i + 1));
        [apply Hrun|].
      apply stableStep_keep; [lia|apply Hsorted; lia].
Qed.

(** An already sorted range is left as it is, and the loop returns. *)
Lemma stableSort_of_sorted s firstElement lastElement :
  firstElement <= lastElement ->
  sortedRange cmp (array s) firstElement lastElement ->
  exists s',
    stableSort cmp (S (Z.to_nat (lastElement - firstElement)))
               s firstElement lastElement = Returned s' /\
    array s' = array s.
Proof.
  intros Hfl Hsorted.
  destruct (stable_walk firstElement lastElement
              (Z.to_nat (lastElement - firstElement)) s firstElement lastElement
              eq_refl Hfl ltac:(lia) Hsorted) as (s' & Ha & Hrun).
  exists s'. split; [|exact Ha]. unfold stableSort.
  replace (S (Z.to_nat (lastElement - firstElement)))
    with (Z.to_nat (lastElement - firstElement) + 1)%nat by lia.
  rewrite Hrun. apply runLoop_inr. apply stableStep_exit. lia.
Qed.

Hypothesis Hc : Consistent cmp.

Lemma stable_insert firstElement lastElement d : forall s c m,
  Z.to_nat (c - firstElement) = d ->
  firstElement <= c -> c < m -> m <= lastElement ->
  inserting cmp (array s) firstElement c m ->
  exists n s',
    orderedRange cmp (array s') firstElement m /\
    forall k, runLoop (stableStep cmp firstElement lastElement) fst (n + k) (s, c)
              = runLoop (stableStep cmp firstElement lastElement) fst k (s', m).
Proof.
  induction d as [|d IH]; intros s c m Hd Hfc Hcm Hml (Hlow & Hup & Hcross).
  - (* the cursor is at firstElement *)
    assert (c = firstElement) by lia. subst c.
    destruct (Z_le_gt_dec (cmp (array s firstElement) (array s (firstElement + 1))) 0)
      as [Hle|Hgt].
    + assert (Hall : orderedRange cmp (array s) firstElement m).
      { intros p q Hp Hpq Hq.
        destruct (Z.eq_dec p firstElement) as [->|Hne]; [|apply Hup; lia].
        destruct (Z.eq_dec q (firstElement + 1)) as [->|Hne]; [assumption|].
        apply Hcross; lia. }
      destruct (stable_walk firstElement lastElement
                  (Z.to_nat (m - firstElement)) s firstElement m eq_refl
                  ltac:(lia) Hml (ordered_sorted cmp _ _ _ Hall))
        as (s' & Ha & Hrun).
      exists (Z.to_nat (m - firstElement)), s'. split; [now rewrite Ha|exact Hrun].
    + set (s1 := swapAt (logEvent s (EvCompare firstElement (firstElement + 1)))
                        firstElement (firstElement + 1)).
      assert (Hall : orderedRange cmp (array s1) firstElement m).
      { intros p q Hp Hpq Hq. subst s1. simpl.
        destruct (Z.eq_dec p firstElement) as [->|Hne].
        - rewrite swap_left.
          destruct (Z.eq_dec q (firstElement + 1)) as [->|Hne].
          + rewrite swap_right. apply (cmp_ge_le cmp Hc). lia.
          + rewrite swap_other by lia. apply Hup; lia.
        - destruct (Z.eq_dec p (firstElement + 1)) as [->|Hne'].
          + rewrite swap_right, swap_other by lia. apply Hcross; lia.
          + rewrite !swap_other by lia. apply Hup; lia. }
      destruct (stable_walk firstElement lastElement
                  (Z.to_nat (m - (firstElement + 1))) s1 (firstElement + 1) m
                  eq_refl ltac:(lia) Hml)
        as (s' & Ha & Hrun).
      { intros k Hk. apply Hall; lia. }
      exists (S (Z.to_nat (m - (firstElement + 1)))), s'.
      split; [now rewrite Ha|]. intros k.
      change (S (Z.to_nat (m - (firstElement + 1))) + k)%nat
        with (S (Z.to_nat (m - (firstElement + 1)) + k)).
      rewrite (runLoop_inl _ _ _ _ (s1, firstElement + 1)); [apply Hrun|].
      rewrite stableStep_swap by (assumption || lia).
      destruct (Z.gtb_spec firstElement firstElement); [lia|reflexivity].
  - destruct (Z_le_gt_dec (cmp (array s c) (array s (c + 1))) 0) as [Hle|Hgt].
    + assert (Hall : orderedRange cmp (array s) firstElement m).
      { intros p q Hp Hpq Hq.
        destruct (Z_le_gt_dec q c); [apply Hlow; lia|].
        destruct (Z_le_gt_dec p c); [|apply Hup; lia].
        destruct (Z.eq_dec q (c + 1)) as [->|Hne]; [|apply Hcross; lia].
        destruct (Z.eq_dec p c) as [->|Hne]; [assumption|].
        apply (cmp_trans cmp Hc _ (array s c)); [apply Hlow; lia|assumption]. }
      destruct (stable_walk firstElement lastElement
                  (Z.to_nat (m - c)) s c m eq_refl
                  ltac:(lia) Hml)
        as (s' & Ha & Hrun).
      { intros k Hk. apply Hall; lia. }
      exists (Z.to_nat (m - c)), s'. split; [now rewrite Ha|exact Hrun].
    + set (s1 := swapAt (logEvent s (EvCompare c (c + 1))) c (c + 1)).
      destruct (IH s1 (c - 1) m) as (n & s' & Hord & Hrun); try lia.
      { subst s1. unfold inserting. simpl. splits.
        - intros p q Hp Hpq Hq. rewrite !swap_other by lia. apply Hlow; lia.
        - replace (c - 1 + 1) with c by lia. intros p q Hp Hpq Hq.
          destruct (Z.eq_dec p c) as [->|Hne].
          + rewrite swap_left.
            destruct (Z.eq_dec q (c + 1)) as [->|Hne].
            * rewrite swap_right. apply (cmp_ge_le cmp Hc). lia.
            * rewrite swap_other by lia. apply Hup; lia.
          + destruct (Z.eq_dec p (c + 1)) as [->|Hne'].
            * rewrite swap_right, swap_other by lia. apply Hcross; lia.
            * rewrite !swap_other by lia. apply Hup; lia.
        - intros p q Hp Hq. rewrite (swap_other _ _ _ p) by lia.
          destruct (Z.eq_dec q (c + 1)) as [->|Hne].
          + rewrite swap_right. apply Hlow; lia.
          + rewrite swap_other by lia. apply Hcross; lia. }
      exists (S n), s'. split; [exact Hord|]. intros k.
      change (S n + k)%nat with (S (n + k)).
      rewrite (runLoop_inl _ _ _ _ (s1, c - 1)); [apply Hrun|].
      rewrite stableStep_swap by (assumption || lia).
      destruct (Z.gtb_spec c firstElement); [reflexivity|lia].
Qed.

(** From a cursor [m] with [firstElement .. m] in order, the loop
    returns with the whole range in order. *)
Lemma stable_finish firstElement lastElement n : forall s m,
  Z.to_nat (lastElement - m) = n -> firstElement <= m -> m <= lastElement ->
  orderedRange cmp (array s) firstElement m ->
  exists fuel s',
    runLoop (stableStep cmp firstElement lastElement) fst fuel (s, m)
    = Returned s' /\
    orderedRange cmp (array s') firstElement lastElement.
Proof.
  induction n as [|n IH]; intros s m Hn Hfm Hml Hord.
  - assert (m = lastElement) by lia. subst m.
    exists 1%nat, s. split; [|assumption].
    apply runLoop_inr. apply stableStep_exit. lia.
  - destruct (stable_insert firstElement lastElement
                (Z.to_nat (m - firstElement)) s m (m + 1) eq_refl
                Hfm ltac:(lia) ltac:(lia))
      as (n1 & s1 & Hord1 & Hrun1).
    { unfold inserting. splits;
        [assumption|intros p q ? ? ?; lia|intros p q ? ?; lia]. }
    destruct (IH s1 (m + 1) ltac:(lia) ltac:(lia) ltac:(lia) Hord1)
      as (n2 & s2 & Hrun2 & Hord2).
    exists (n1 + n2)%nat, s2. split; [|assumption].
    now rewrite Hrun1.
Qed.

(** The stable branch returns with the range in order. *)
Lemma stableSort_sorted s firstElement lastElement :
  firstElement <= lastElement ->
  exists fuel s',
    stableSort cmp fuel s firstElement lastElement = Returned s' /\
    sortedRange cmp (array s') firstElement lastElement.
Proof.
  intros Hfl.
  destruct (stable_finish firstElement lastElement
              (Z.to_nat (lastElement - firstElement)) s firstElement eq_refl
              ltac:(lia) Hfl)
    as (fuel & s' & Hrun & Hord).
  { intros p q Hp Hpq Hq. lia. }
  exists fuel, s'. split; [exact Hrun|]. now apply ordered_sorted.
Qed.

End StableFacts.

(** ** Stability of the stable branch *)

Section StabilityFacts.

Context {E : Type} (cmp : E -> E -> Z).
Implicit Types (s : State E) (a : Z -> E).

(** The contents of a range after two neighbours have been swapped. *)
Lemma contents_swap_adjacent a lo hi i :
  lo <= i -> i + 1 <= hi ->
  contents (swapVariables a i (i + 1)) lo hi
  = contents a lo (i - 1) ++ a (i + 1) :: a i :: contents a (i + 2) hi.
Proof.
  intros Hlo Hhi.
  rewrite (contents_app _ lo (i - 1) hi) by lia.
  replace (i - 1 + 1) with i by lia.
  rewrite (contents_cons _ i hi) by lia.
  rewrite (contents_cons _ (i + 1) hi) by lia.
  rewrite swap_left, swap_right.
  replace (i + 1 + 1) with (i + 2) by lia.
  f_equal; [|do 2 f_equal]; apply contents_ext; intros k Hk;
    apply swap_other; lia.
Qed.

Lemma contents_split_adjacent a lo hi i :
  lo <= i -> i + 1 <= hi ->
  contents a lo hi
  = contents a lo (i - 1) ++ a i :: a (i + 1) :: contents a (i + 2) hi.
Proof.
  intros Hlo Hhi.
  rewrite (contents_app _ lo (i - 1) hi) by lia.
  replace (i - 1 + 1) with i by lia.
  rewrite (contents_cons _ i hi) by lia.
  rewrite (contents_cons _ (i + 1) hi) by lia.
  now replace (i + 1 + 1) with (i + 2) by lia.
Qed.

Hypothesis Hc : Consistent cmp.

(** Swapping two neighbours of which the first comes strictly after the
    second leaves the sub-list of elements equivalent to [x] as it is:
    the two are not both equivalent to [x]. *)
Lemma equivalentTo_swap_adjacent a lo hi i x :
  lo <= i -> i + 1 <= hi -> cmp (a i) (a (i + 1)) > 0 ->
  equivalentTo cmp x (contents (swapVariables a i (i + 1)) lo hi)
  = equivalentTo cmp x (contents a lo hi).
Proof.
  intros Hlo Hhi Hgt. unfold equivalentTo.
  rewrite contents_swap_adjacent, (contents_split_adjacent a lo hi i) by lia.
  rewrite !filter_app. f_equal. simpl.
  destruct (Z.eqb_spec (cmp x (a i)) 0) as [Hi|Hi];
    destruct (Z.eqb_spec (cmp x (a (i + 1))) 0) as [Hi'|Hi']; try reflexivity.
  pose proof (cmp_eq_trans cmp Hc _ _ _ Hi Hi'). lia.
Qed.

(** For every [x], the elements equivalent to [x] stay in their order,
    at every point of a run of the stable branch. *)
Lemma stableSort_stable fuel s firstElement lastElement x :
  firstElement <= lastElement ->
  equivalentTo cmp x
    (contents (array (outcomeState (stableSort cmp fuel s firstElement lastElement)))
              firstElement lastElement)
  = equivalentTo cmp x (contents (array s) firstElement lastElement).
Proof.
  intros Hfl. unfold stableSort.
  apply (runLoop_invariant (stableStep cmp firstElement lastElement) fst
           (fun c => firstElement <= snd c <= lastElement /\
                     equivalentTo cmp x
                       (contents (array (fst c)) firstElement lastElement)
                     = equivalentTo cmp x
                         (contents (array s) firstElement lastElement))
           (fun s' => equivalentTo cmp x
                        (contents (array s') firstElement lastElement)
                      = equivalentTo cmp x
                          (contents (array s) firstElement lastElement))).
  - intros [s1 i] c' [Hi Heq] Hstep. simpl in Hi, Heq.
    destruct (Z_lt_ge_dec i lastElement) as [Hlt|Hge];
      [|rewrite stableStep_exit in Hstep by lia; discriminate].
    destruct (Z_le_gt_dec (cmp (array s1 i) (array s1 (i + 1))) 0) as [Hle|Hgt].
    + rewrite stableStep_keep in Hstep by assumption.
      injection Hstep as <-. simpl. split; [lia|assumption].
    + rewrite stableStep_swap in Hstep by assumption.
      injection Hstep as <-. simpl. split.
      * destruct (Z.gtb_spec i firstElement); lia.
      * rewrite equivalentTo_swap_adjacent by (assumption || lia). assumption.
  - intros [s1 i] s' [Hi Heq] Hstep. simpl in Hi, Heq.
    destruct (Z_lt_ge_dec i lastElement) as [Hlt|Hge].
    + destruct (Z_le_gt_dec (cmp (array s1 i) (array s1 (i + 1))) 0).
      * rewrite stableStep_keep in Hstep by assumption. discriminate.
      * rewrite stableStep_swap in Hstep by assumption. discriminate.
    + rewrite stableStep_exit in Hstep by lia. now injection Hstep as <-.
  - intros c [_ Heq]. exact Heq.
  - simpl. split; [lia|reflexivity].
Qed.

End StabilityFacts.

(** ** Termination of the stable branch *)

Section StableTermination.

Context {E : Type} (cmp : E -> E -> Z).
Implicit Types (s : State E) (a : Z -> E).

Lemma filter_length_swap (f : E -> bool) pre u v post :
  length (filter f (pre ++ u :: v :: post))
  = length (filter f (pre ++ v :: u :: post)).
Proof.
  rewrite !filter_app, !length_app. simpl.
  destruct (f u), (f v); reflexivity.
Qed.

(** Swapping two neighbours that are out of order removes exactly one
    inversion, provided the comparator does not call them out of order
    the other way round too. *)
Lemma inversions_swap_adjacent pre u v post :
  cmp u v > 0 -> cmp v u <= 0 ->
  inversions cmp (pre ++ u :: v :: post)
  = S (inversions cmp (pre ++ v :: u :: post)).
Proof.
  intros Huv Hvu. induction pre as [|x pre IH]; simpl.
  - destruct (Z.gtb_spec (cmp u v) 0); [|lia].
    destruct (Z.gtb_spec (cmp v u) 0); [lia|]. simpl. lia.
  - rewrite IH, (filter_length_swap _ pre u v post). lia.
Qed.

Hypothesis Hflip : neverAfterBothWays cmp.

(** Twice the inversions plus the distance of the cursor from the end
    of the range decreases on every trip. *)
Lemma stableStep_decreases firstElement lastElement s i c' :
  firstElement <= i <= lastElement ->
  stableStep cmp firstElement lastElement (s, i) = inl c' ->
  firstElement <= snd c' <= lastElement /\
  (2 * inversions cmp (contents (array (fst c')) firstElement lastElement)
   + Z.to_nat (lastElement - snd c')
   < 2 * inversions cmp (contents (array s) firstElement lastElement)
     + Z.to_nat (lastElement - i))%nat.
Proof.
  intros Hi Hstep.
  destruct (Z_lt_ge_dec i lastElement) as [Hlt|Hge];
    [|rewrite stableStep_exit in Hstep by lia; discriminate].
  destruct (Z_le_gt_dec (cmp (array s i) (array s (i + 1))) 0) as [Hle|Hgt].
  - rewrite stableStep_keep in Hstep by assumption.
    injection Hstep as <-. simpl. split; lia.
  - rewrite stableStep_swap in Hstep by assumption.
    injection Hstep as <-. simpl.
    rewrite contents_swap_adjacent by lia.
    rewrite (contents_split_adjacent (array s) firstElement lastElement i) by lia.
    rewrite (inversions_swap_adjacent _ (array s i) (array s (i + 1)))
      by (try apply Hflip; assumption).
    destruct (Z.gtb_spec i firstElement); split; lia.
Qed.

Lemma stableSort_terminates s firstElement lastElement :
  firstElement <= lastElement ->
  exists fuel s', stableSort cmp fuel s firstElement lastElement = Returned s'.
Proof.
  intros Hfl.
  exists (S (2 * inversions cmp (contents (array s) firstElement lastElement)
             + Z.to_nat (lastElement - firstElement))).
  unfold stableSort.
  apply (runLoop_terminates (stableStep cmp firstElement lastElement) fst
           (fun c => firstElement <= snd c <= lastElement)
           (fun c => (2 * inversions cmp
                            (contents (array (fst c)) firstElement lastElement)
                      + Z.to_nat (lastElement - snd c))%nat)).
  - intros [s1 i] c' Hi Hstep. simpl in Hi. simpl fst. simpl snd.
    now apply stableStep_decreases.
  - simpl. lia.
  - simpl. lia.
Qed.

End StableTermination.

(** ** Two sorted arrangements of the same elements *)

Section SortedArrangements.

Context {E : Type} (cmp : E -> E -> Z) (Hc : Consistent cmp).

Lemma countLe_perm z l1 l2 :
  Permutation l1 l2 -> countLe cmp z l1 = countLe cmp z l2.
Proof.
  intros H. unfold countLe. induction H; simpl.
  - reflexivity.
  - destruct (_ <=? _); simpl; congruence.
  - destruct (cmp y z <=? 0), (cmp x z <=? 0); reflexivity.
  - congruence.
Qed.

Lemma countLe_pos z l :
  (0 < countLe cmp z l)%nat -> exists e, In e l /\ cmp e z <= 0.
Proof.
  unfold countLe. intros H.
  destruct (filter (fun e => cmp e z <=? 0) l) as [|e t] eqn:Hf;
    [simpl in H; lia|].
  assert (Hin : In e (filter (fun e => cmp e z <=? 0) l))
    by (rewrite Hf; now left).
  apply filter_In in Hin. destruct Hin as [Hin Hle].
  exists e. split; [assumption|]. now apply Z.leb_le.
Qed.

Lemma countLe_cons z x l :
  countLe cmp z (x :: l)
  = ((if (cmp x z <=? 0)%Z then 1 else 0) + countLe cmp z l)%nat.
Proof. unfold countLe. simpl. now destruct (_ <=? _). Qed.

(** The heads of two sorted lists with the same counts are equivalent. *)
Lemma sorted_heads_equiv x t1 y t2 :
  Forall (comesBefore cmp y) t2 ->
  (forall z, countLe cmp z (x :: t1) = countLe cmp z (y :: t2)) ->
  cmp y x <= 0.
Proof.
  intros Hy Hcount.
  destruct (countLe_pos x (y :: t2)) as (e & [<-|Hin] & Hle).
  - rewrite <- Hcount, countLe_cons.
    replace (cmp x x <=? 0) with true; [lia|].
    symmetry. apply Z.leb_le. rewrite (cmp_refl cmp Hc). lia.
  - assumption.
  - rewrite Forall_forall in Hy.
    apply (cmp_trans cmp Hc _ e); [now apply Hy|assumption].
Qed.

Lemma sorted_counts_equiv l1 : forall l2,
  StronglySorted (comesBefore cmp) l1 -> StronglySorted (comesBefore cmp) l2 ->
  (forall z, countLe cmp z l1 = countLe cmp z l2) ->
  Forall2 (equivalent cmp) l1 l2.
Proof.
  induction l1 as [|x t1 IH]; intros [|y t2] H1 H2 Hcount.
  - constructor.
  - specialize (Hcount y). rewrite countLe_cons in Hcount.
    replace (cmp y y <=? 0) with true in Hcount; [discriminate|].
    symmetry. apply Z.leb_le. rewrite (cmp_refl cmp Hc). lia.
  - specialize (Hcount x). rewrite countLe_cons in Hcount.
    replace (cmp x x <=? 0) with true in Hcount; [discriminate|].
    symmetry. apply Z.leb_le. rewrite (cmp_refl cmp Hc). lia.
  - apply StronglySorted_inv in H1. destruct H1 as [H1 Hx].
    apply StronglySorted_inv in H2. destruct H2 as [H2 Hy].
    assert (Hyx : cmp y x <= 0) by (eapply sorted_heads_equiv; eauto).
    assert (Hxy : cmp x y <= 0)
      by (eapply sorted_heads_equiv; [exact Hx|]; intros z; now rewrite Hcount).
    constructor.
    + unfold equivalent. pose proof (cmp_flip cmp Hc y x). lia.
    + apply IH; try assumption. intros z.
      specialize (Hcount z). rewrite !countLe_cons in Hcount.
      assert (Hsame : (cmp x z <=? 0) = (cmp y z <=? 0)).
      { destruct (Z.leb_spec (cmp x z) 0) as [Hxz|Hxz];
          destruct (Z.leb_spec (cmp y z) 0) as [Hyz|Hyz]; try reflexivity.
        - pose proof (cmp_trans cmp Hc y x z Hyx Hxz). lia.
        - pose proof (cmp_trans cmp Hc x y z Hxy Hyz). lia. }
      rewrite Hsame in Hcount. lia.
Qed.

Lemma ordered_contents a lo hi :
  orderedRange cmp a lo hi -> StronglySorted (comesBefore cmp) (contents a lo hi).
Proof.
  remember (Z.to_nat (hi + 1 - lo)) as n eqn:Hn.
  revert lo Hn. induction n as [|n IH]; intros lo Hn Hord.
  - rewrite contents_empty by lia. constructor.
  - rewrite contents_cons by lia. constructor.
    + apply IH; [lia|]. intros p q Hp Hpq Hq. apply Hord; lia.
    + apply Forall_forall. intros e He. apply in_contents in He.
      destruct He as (k & Hk & <-). apply Hord; lia.
Qed.

Lemma contents_Forall2 (R : E -> E -> Prop) a b lo hi :
  Forall2 R (contents a lo hi) (contents b lo hi) ->
  forall k, lo <= k <= hi -> R (a k) (b k).
Proof.
  remember (Z.to_nat (hi + 1 - lo)) as n eqn:Hn.
  revert lo Hn. induction n as [|n IH]; intros lo Hn H k Hk.
  - lia.
  - rewrite (contents_cons a lo hi), (contents_cons b lo hi) in H by lia.
    inversion H as [|x y l l' Hxy Hrest]; subst.
    destruct (Z.eq_dec k lo) as [->|Hne]; [assumption|].
    apply (IH (lo + 1)); [lia|assumption|lia].
Qed.

(** Two arrangements of the same elements that are both in order hold
    equivalent elements cell by cell. *)
Lemma sorted_perm_equiv a b lo hi :
  orderedRange cmp a lo hi -> orderedRange cmp b lo hi ->
  Permutation (contents a lo hi) (contents b lo hi) ->
  forall k, lo <= k <= hi -> cmp (a k) (b k) = 0.
Proof.
  intros Ha Hb Hperm.
  apply (contents_Forall2 (equivalent cmp)).
  apply sorted_counts_equiv; try now apply ordered_contents.
  intros z. now apply countLe_perm.
Qed.

End SortedArrangements.

(** ** findInsertIndexInSortedArrayZ *)

Section FindInsertFacts.

Context {E : Type} (cmp : E -> E -> Z) (Hc : Consistent cmp).
Variables (a : Z -> E) (newElement : E).


End FindInsertFacts.

(** ** The comparators of the concrete runs *)

Lemma naturalOrder_consistent : Consistent naturalOrder.
Proof.
  split; unfold naturalOrder, DefaultElementComparator.
  - intros a b. destruct (Z.ltb_spec a b), (Z.ltb_spec b a); lia.
  - intros a b c.
    destruct (Z.ltb_spec a b), (Z.ltb_spec b a), (Z.ltb_spec b c),
      (Z.ltb_spec c b), (Z.ltb_spec a c), (Z.ltb_spec c a); lia.
Qed.

Lemma compareByFirst_consistent : Consistent compareByFirst.
Proof.
  split; unfold compareByFirst.
  - intros a b. apply (cmp_flip _ naturalOrder_consistent).
  - intros a b c. apply (cmp_trans _ naturalOrder_consistent).
Qed.

(** ** The [int] arithmetic of the source

    When the indices leave room for it, no [int] operation overflows and
    the loops of the source compute what the loops over unbounded
    integers compute. *)

Lemma int_ok {St : Type} (s : St) z :
  INT_MIN <= z <= INT_MAX -> int s z = Ok z.
Proof.
  intros H. unfold int.
  destruct (Z.leb_spec INT_MIN z), (Z.leb_spec z INT_MAX); try lia; reflexivity.
Qed.

Section CheckedLoop.

Context {C St : Type} (body : C -> Checked St (C + St)) (bodyZ : C -> C + St)
        (stateOf : C -> St).

Lemma runChecked_exact (Inv : C -> Prop) :
  (forall c, Inv c -> body c = Ok (bodyZ c)) ->
  (forall c c', Inv c -> bodyZ c = inl c' -> Inv c') ->
  forall fuel c, Inv c ->
  runChecked body stateOf fuel c = runLoop bodyZ stateOf fuel c.
Proof.
  intros Hbody Hstep fuel.
  induction fuel as [|fuel IH]; intros c Hc; simpl; [reflexivity|].
  rewrite (Hbody c Hc).
  destruct (bodyZ c) as [c'|s] eqn:Hb; [|reflexivity].
  apply IH. eapply Hstep; eassumption.
Qed.


End CheckedLoop.

Ltac fits := unfold indicesFit, searchFits, INT_MIN, INT_MAX in *; lia.

Section NoOverflow.

Context {E : Type} (cmp : E -> E -> Z).
Implicit Types (s : State E) (c : QConfig E).

Lemma maxScan_exact n j s k m :
  INT_MIN <= k -> j < INT_MAX ->
  maxScan cmp n j s k m = Ok (maxScanZ cmp n j s k m).
Proof.
  revert s k m. induction n as [|n IH]; intros s k m Hk Hj;
    cbn [maxScan maxScanZ]; [reflexivity|].
  destruct (Z.leb_spec k j); [|reflexivity].
  unfold compareAt. rewrite int_ok by fits. cbn [bind]. apply IH; lia.
Qed.

Lemma selectionLoop_exact n firstElement s j :
  INT_MIN <= firstElement -> j < INT_MAX ->
  selectionLoop cmp n firstElement s j
  = Ok (selectionLoopZ cmp n firstElement s j).
Proof.
  revert s j. induction n as [|n IH]; intros s j Hf Hj;
    cbn [selectionLoop selectionLoopZ]; [reflexivity|].
  destruct (Z.gtb_spec j firstElement); [|reflexivity].
  rewrite int_ok by fits. cbn [bind].
  rewrite maxScan_exact by fits. cbn [bind].
  destruct (maxScanZ cmp (Z.to_nat (j - firstElement)) j s
                     (firstElement + 1) firstElement) as [m s1].
  rewrite int_ok by fits. cbn [bind]. apply IH; lia.
Qed.

Lemma selectionSort_exact s firstElement lastElement :
  INT_MIN <= firstElement -> lastElement < INT_MAX ->
  selectionSort cmp s firstElement lastElement
  = Ok (selectionSortZ cmp s firstElement lastElement).
Proof. intros. now apply selectionLoop_exact. Qed.

Lemma scanUp_exact n firstElement lastElement s i :
  INT_MIN <= i -> i <= lastElement -> lastElement < INT_MAX ->
  scanUp cmp n firstElement lastElement s i
  = Ok (scanUpZ cmp n firstElement lastElement s i).
Proof.
  revert s i. induction n as [|n IH]; intros s i Hi Hil Hl;
    cbn [scanUp scanUpZ]; rewrite int_ok by fits; cbn [bind]; [reflexivity|].
  destruct (Z.leb_spec (i + 1) lastElement); [|reflexivity].
  unfold compareAt.
  destruct (cmp (array s (i + 1)) (array s firstElement) <=? 0); [|reflexivity].
  apply IH; lia.
Qed.

Lemma scanDown_exact n firstElement s j :
  INT_MIN <= firstElement -> firstElement < j -> j <= INT_MAX ->
  scanDown cmp n firstElement s j = Ok (scanDownZ cmp n firstElement s j).
Proof.
  revert s j. induction n as [|n IH]; intros s j Hf Hj Hjm;
    cbn [scanDown scanDownZ]; rewrite int_ok by fits; cbn [bind]; [reflexivity|].
  destruct (Z.gtb_spec (j - 1) firstElement); [|reflexivity].
  unfold compareAt.
  destruct (cmp (array s (j - 1)) (array s firstElement) >=? 0); [|reflexivity].
  apply IH; lia.
Qed.

Lemma partitionLoop_exact n firstElement lastElement s i j :
  INT_MIN <= firstElement -> lastElement < INT_MAX ->
  firstElement <= i <= lastElement ->
  firstElement < j <= lastElement + 1 ->
  partitionLoop cmp n firstElement lastElement s i j
  = Ok (partitionLoopZ cmp n firstElement lastElement s i j).
Proof.
  revert s i j. induction n as [|n IH]; intros s i j Hf Hl Hi Hj;
    cbn [partitionLoop partitionLoopZ]; [reflexivity|].
  rewrite scanUp_exact by fits. cbn [bind].
  pose proof (scanUp_spec cmp (Z.to_nat (lastElement - i))
                          firstElement lastElement s i ltac:(lia) ltac:(lia))
    as Hup.
  destruct (scanUpZ cmp (Z.to_nat (lastElement - i)) firstElement lastElement s i)
    as [i1 s1].
  cbn [fst snd] in Hup. destruct Hup as (_ & _ & Hi1 & Hi1ub & _).
  rewrite scanDown_exact by fits. cbn [bind].
  pose proof (scanDown_spec cmp (Z.to_nat (j - 1 - firstElement))
                            firstElement lastElement s1 j ltac:(lia) ltac:(lia))
    as Hdn.
  destruct (scanDownZ cmp (Z.to_nat (j - 1 - firstElement)) firstElement s1 j)
    as [j1 s2].
  cbn [fst snd] in Hdn. destruct Hdn as (_ & _ & Hj1 & Hj1lb & _).
  destruct (Z.ltb_spec j1 i1); [reflexivity|].
  apply IH; lia.
Qed.

Lemma partitionRange_exact s firstElement lastElement :
  INT_MIN <= firstElement -> firstElement <= lastElement ->
  lastElement < INT_MAX ->
  partitionRange cmp s firstElement lastElement
                 (lastElement - firstElement + 1)
  = Ok (partitionRangeZ cmp s firstElement lastElement).
Proof.
  intros Hf Hfl Hl. unfold partitionRange, partitionRangeZ.
  assert (Hmid : firstElement
                 <= firstElement + Z.shiftr (lastElement - firstElement + 1) 1
                 <= lastElement)
    by (rewrite shiftr_half; Z.div_mod_to_equations; lia).
  rewrite int_ok by fits. cbn [bind].
  rewrite int_ok by fits. cbn [bind].
  rewrite partitionLoop_exact by fits. cbn [bind].
  destruct (partitionLoopZ cmp (Z.to_nat (lastElement + 1 - firstElement))
                           firstElement lastElement _ firstElement
                           (lastElement + 1)) as [[i j] s2].
  reflexivity.
Qed.

Lemma deferLarger_exact s stack firstElement lastElement i j :
  indicesFit firstElement lastElement ->
  firstElement <= j -> j < i -> i <= lastElement + 1 ->
  deferLarger s stack firstElement lastElement i j
  = Ok (deferLargerZ s stack firstElement lastElement i j).
Proof.
  intros (Hf & Hl & Hw) Hj Hji Hi. unfold deferLarger, deferLargerZ.
  rewrite (int_ok s (j - 1)) by fits. cbn [bind].
  rewrite (int_ok s (j - 1 - firstElement)) by fits. cbn [bind].
  rewrite (int_ok s (lastElement - i)) by fits. cbn [bind].
  destruct (j - 1 - firstElement >=? lastElement - i).
  - rewrite (int_ok s (firstElement + 1)) by fits. cbn [bind].
    destruct (firstElement + 1 <? j); reflexivity.
  - destruct (i <? lastElement); unfold push;
      rewrite (int_ok _ (firstElement + 1)) by fits; cbn [bind];
      (destruct (firstElement + 1 <? j); [|reflexivity]);
      rewrite (int_ok _ (j - 1)) by fits; reflexivity.
Qed.

(** One trip of the outer loop on a range that fits. *)
Lemma quickStep_exact c :
  indicesFit (qfirst c) (qlast c) -> qfirst c <= qlast c ->
  quickStep cmp c = Ok (quickStepZ cmp c).
Proof.
  intros Hfit Hfl. pose proof Hfit as (Hf & Hl & Hw).
  unfold quickStep, quickStepZ.
  rewrite int_ok by fits. cbn [bind]. rewrite int_ok by fits. cbn [bind].
  destruct (qlast c - qfirst c + 1 <=? 8).
  - rewrite selectionSort_exact by fits. reflexivity.
  - rewrite partitionRange_exact by fits. cbn [bind].
    pose proof (partitionRange_spec cmp (qstate c) (qfirst c) (qlast c) Hfl)
      as Hspec.
    destruct (partitionRangeZ cmp (qstate c) (qfirst c) (qlast c))
      as [[i j] s1].
    destruct Hspec as (_ & Hj & Hji & Hi & _).
    rewrite deferLarger_exact by assumption. cbn [bind].
    destruct (deferLargerZ s1 (qstack c) (qfirst c) (qlast c) i j)
      as [[s2 stack'] next].
    reflexivity.
Qed.

Lemma indicesFit_within lo hi f l :
  indicesFit lo hi -> lo <= f -> l <= hi -> indicesFit f l.
Proof. unfold indicesFit. lia. Qed.

(** The whole non-stable branch. *)
Lemma quickSort_exact fuel s firstElement lastElement :
  indicesFit firstElement lastElement -> firstElement < lastElement ->
  quickSort cmp fuel s firstElement lastElement
  = quickSortZ cmp fuel s firstElement lastElement.
Proof.
  intros Hfit Hfl. unfold quickSort, quickSortZ.
  apply (runChecked_exact (quickStep cmp) (quickStepZ cmp) qstate
           (fun c => quickInv firstElement lastElement s (qstate c) (pending c))).
  - intros c (_ & Hwithin & _). unfold pending in Hwithin.
    apply Forall_cons_iff in Hwithin. destruct Hwithin as [Hcur _].
    cbn [fst snd] in Hcur.
    apply quickStep_exact; [|lia].
    apply (indicesFit_within firstElement lastElement); [assumption|lia|lia].
  - intros c c' Hc Hb.
    pose proof (quickStep_inv cmp firstElement lastElement s c Hc) as H.
    now rewrite Hb in H.
  - now apply quickInv_initial.
Qed.

End NoOverflow.

Section SearchNoOverflow.

Context {E : Type} (cmp : E -> E -> Z) (a : Z -> E) (newElement : E).

Lemma findInsertLoop_exact n : forall firstElement lastElement,
  searchFits firstElement lastElement ->
  findInsertLoop cmp n a newElement firstElement lastElement
  = Ok (findInsertLoopZ cmp n a newElement firstElement lastElement).
Proof.
  induction n as [|n IH]; intros firstElement lastElement [Hf Hl];
    cbn [findInsertLoop findInsertLoopZ]; [reflexivity|].
  destruct (Z.ltb_spec firstElement lastElement) as [Hlt|Hge]; [|reflexivity].
  destruct (cmp newElement (a firstElement) =? 0).
  - rewrite int_ok by fits. reflexivity.
  - rewrite int_ok by fits. cbn [bind]. rewrite shiftr_half.
    set (halfway := (firstElement + lastElement) / 2).
    assert (Hh : firstElement <= halfway < lastElement)
      by (subst halfway; Z.div_mod_to_equations; lia).
    destruct (halfway =? firstElement).
    + destruct (cmp newElement (a halfway) >=? 0); [|reflexivity].
      rewrite int_ok by fits. reflexivity.
    + destruct (cmp newElement (a halfway) >=? 0).
      * rewrite IH by fits.
        cbn [withProbes].
        destruct (findInsertLoopZ cmp n a newElement halfway lastElement).
        reflexivity.
      * rewrite IH by fits.
        cbn [withProbes].
        destruct (findInsertLoopZ cmp n a newElement firstElement halfway).
        reflexivity.
Qed.

Lemma findInsertIndex_exact firstElement lastElement :
  searchFits firstElement lastElement -> firstElement <= lastElement ->
  findInsertIndexInSortedArray cmp a newElement firstElement lastElement
  = Some (Ok (findInsertIndexInSortedArrayZ cmp a newElement
                                            firstElement lastElement)).
Proof.
  intros Hfit Hfl.
  unfold findInsertIndexInSortedArray, findInsertIndexInSortedArrayZ, jassert.
  destruct (Z.leb_spec firstElement lastElement); [|lia].
  now rewrite findInsertLoop_exact.
Qed.

(** Facts about the result are read off the search over unbounded
    integers. *)
Lemma findInsertIndex_result (P : Z -> list Z -> Prop) firstElement lastElement :
  firstElement <= lastElement -> searchFits firstElement lastElement ->
  P (fst (findInsertIndexInSortedArrayZ cmp a newElement firstElement lastElement))
    (snd (findInsertIndexInSortedArrayZ cmp a newElement firstElement lastElement)) ->
  exists r probes,
    findInsertIndexInSortedArray cmp a newElement firstElement lastElement
    = Some (Ok (r, probes)) /\
    P r probes.
Proof.
  intros Hfl Hfit HP. rewrite findInsertIndex_exact by assumption.
  destruct (findInsertIndexInSortedArrayZ cmp a newElement firstElement lastElement)
    as [r probes].
  exists r, probes. split; [reflexivity|exact HP].
Qed.

End SearchNoOverflow.

(** ** sortArray as a whole *)

Section SortArrayFacts.

Context {E : Type} (cmp : E -> E -> Z).
Implicit Types (s : State E) (a : Z -> E).


Lemma sortArray_short fuel a firstElement lastElement retain :
  lastElement <= firstElement ->
  sortArray cmp fuel a firstElement lastElement retain = Returned (mkState a []).
Proof.
  intros H. unfold sortArray.
  destruct (Z.gtb_spec lastElement firstElement); [lia|reflexivity].
Qed.

Lemma sortArray_stable_branch fuel a firstElement lastElement :
  firstElement < lastElement ->
  sortArray cmp fuel a firstElement lastElement true
  = stableSort cmp fuel (mkState a []) firstElement lastElement.
Proof.
  intros H. unfold sortArray.
  destruct (Z.gtb_spec lastElement firstElement); [reflexivity|lia].
Qed.

(** The non-stable branch on a range that fits. *)
Lemma sortArray_quick_branch fuel a firstElement lastElement :
  indicesFit firstElement lastElement ->
  firstElement < lastElement ->
  sortArray cmp fuel a firstElement lastElement false
  = quickSortZ cmp fuel (mkState a []) firstElement lastElement.
Proof.
  intros Hfit H. unfold sortArray.
  destruct (Z.gtb_spec lastElement firstElement); [|lia].
  now apply quickSort_exact.
Qed.

(** Whatever the comparator, every state of a run is reached from the
    call's array by accesses inside the range and by stack writes within
    the depth bound. *)
Lemma sortArray_reaches fuel a firstElement lastElement retain :
  retain = true \/ indicesFit firstElement lastElement ->
  reaches (quickEvent firstElement lastElement) (mkState a [])
          (outcomeState (sortArray cmp fuel a firstElement lastElement retain)).
Proof.
  intros Hfit.
  destruct (Z_lt_ge_dec firstElement lastElement) as [Hlt|Hge].
  - destruct retain.
    + rewrite sortArray_stable_branch by assumption.
      eapply reaches_weaken; [|apply stableSort_touches; lia].
      intros e. apply arrayEvent_quick; lia.
    + destruct Hfit as [Hfit|Hfit]; [discriminate|].
      rewrite sortArray_quick_branch by assumption.
      now apply quickSort_reaches.
  - rewrite sortArray_short by lia. apply reaches_refl.
Qed.

(** The non-stable branch returns for every comparator. *)
Lemma sortArray_quick_returns a firstElement lastElement :
  indicesFit firstElement lastElement ->
  exists s',
    sortArray cmp (S (Z.to_nat (lastElement - firstElement + 1)))
              a firstElement lastElement false = Returned s'.
Proof.
  intros Hfit.
  destruct (Z_lt_ge_dec firstElement lastElement) as [Hlt|Hge].
  - rewrite sortArray_quick_branch by assumption.
    now apply quickSort_terminates.
  - exists (mkState a []). apply sortArray_short. lia.
Qed.

(** With a consistent comparator both branches return a sorted range. *)
Lemma sortArray_returns_sorted a firstElement lastElement retain :
  Consistent cmp ->
  retain = true \/ indicesFit firstElement lastElement ->
  exists fuel s',
    sortArray cmp fuel a firstElement lastElement retain = Returned s' /\
    sortedRange cmp (array s') firstElement lastElement.
Proof.
  intros Hc Hfit.
  destruct (Z_lt_ge_dec firstElement lastElement) as [Hlt|Hge].
  - destruct retain.
    + destruct (stableSort_sorted cmp Hc (mkState a []) firstElement lastElement
                                  ltac:(lia)) as (fuel & s' & Hrun & Hs).
      exists fuel, s'. now rewrite sortArray_stable_branch.
    + destruct Hfit as [Hfit|Hfit]; [discriminate|].
      destruct (quickSort_terminates cmp (mkState a []) firstElement lastElement Hlt)
        as (s' & Hs').
      exists (S (Z.to_nat (lastElement - firstElement + 1))), s'.
      rewrite sortArray_quick_branch by assumption. split; [assumption|].
      eapply quickSort_sorted; eassumption.
  - exists 0%nat, (mkState a []). split; [apply sortArray_short; lia|].
    intros k Hk. simpl. lia.
Qed.

Lemma pushIndices_app t1 t2 :
  pushIndices (t1 ++ t2) = pushIndices t1 ++ pushIndices t2.
Proof.
  induction t1 as [|e t1 IH]; simpl; [reflexivity|].
  destruct e; simpl; congruence.
Qed.


End SortArrayFacts.

(* ================================================================== *)
(** * Part III - the claims of the specification                        *)
(* ================================================================== *)





(** C3.  With [retainOrderOfEquivalentItems = true] and a consistent
    comparator, [sortArray] returns, and for every element [x] the elements
    of the range that compare [0] with [x] occur in the output in the same
    order as in the input: two elements on which the comparator returns 0
    never change their relative order. *)
Theorem sortArray_stable {E : Type} (cmp : E -> E -> Z) (a : Z -> E)
        (firstElement lastElement : Z) :
  Consistent cmp ->
  (exists fuel s',
      sortArray cmp fuel a firstElement lastElement true = Returned s') /\
  (forall fuel s' x,
      sortArray cmp fuel a firstElement lastElement true = Returned s' ->
      equivalentTo cmp x (contents (array s') firstElement lastElement)
      = equivalentTo cmp x (contents a firstElement lastElement)).
Proof.
  intros Hc. split.
  - destruct (sortArray_returns_sorted cmp a firstElement lastElement true Hc
                                       (or_introl eq_refl))
      as (fuel & s' & Hrun & _).
    now exists fuel, s'.
  - intros fuel s' x Hrun.
    destruct (Z_lt_ge_dec firstElement lastElement) as [Hlt|Hge].
    + rewrite sortArray_stable_branch in Hrun by assumption.
      pose proof (stableSort_stable cmp Hc fuel (mkState a [])
                                    firstElement lastElement x ltac:(lia)) as Hst.
      now rewrite Hrun in Hst.
    + rewrite sortArray_short in Hrun by lia. now injection Hrun as <-.
Qed.

Lemma sortArray_stable_witness :
  Consistent compareByFirst /\
  ((exists fuel s', sortArray compareByFirst fuel taggedPairs 0 2 true = Returned s') /\
   (forall fuel s' x,
       sortArray compareByFirst fuel taggedPairs 0 2 true = Returned s' ->
       equivalentTo compareByFirst x (contents (array s') 0 2)
       = equivalentTo compareByFirst x (contents taggedPairs 0 2))).
Proof.
  split; [exact compareByFirst_consistent|].
  apply (sortArray_stable compareByFirst taggedPairs 0 2 compareByFirst_consistent).
Defined.

(** C4, as amended.  On a range that is already sorted, the stable mode
    returns with every cell of the array holding the element it held
    before, whatever the comparator; the non-stable mode, for a consistent
    comparator and indices that leave room for its [int] arithmetic,
    returns with every cell outside the range unchanged and every cell of
    the range holding an element that compares [0] with the one it held
    before, hence the identical element when the comparator returns [0]
    for identical elements only. *)
Theorem sortArray_of_sorted {E : Type} (cmp : E -> E -> Z) (a : Z -> E)
        (firstElement lastElement : Z) :
  sortedRange cmp a firstElement lastElement ->
  (exists fuel s',
      sortArray cmp fuel a firstElement lastElement true = Returned s' /\
      forall k, array s' k = a k) /\
  (Consistent cmp ->
   indicesFit firstElement lastElement ->
   exists fuel s',
     sortArray cmp fuel a firstElement lastElement false = Returned s' /\
     (forall k, ~ (firstElement <= k <= lastElement) -> array s' k = a k) /\
     (forall k, firstElement <= k <= lastElement -> cmp (array s' k) (a k) = 0) /\
     ((forall x y, cmp x y = 0 -> x = y) -> forall k, array s' k = a k)).
Proof.
  intros Hsorted. split.
  - destruct (Z_lt_ge_dec firstElement lastElement) as [Hlt|Hge].
    + destruct (stableSort_of_sorted cmp (mkState a []) firstElement lastElement
                                     ltac:(lia) Hsorted) as (s' & Hrun & Ha).
      exists (S (Z.to_nat (lastElement - firstElement))), s'.
      rewrite sortArray_stable_branch by assumption.
      split; [assumption|]. intros k. now rewrite Ha.
    + exists 0%nat, (mkState a []). split; [apply sortArray_short; lia|reflexivity].
  - intros Hc Hfit.
    destruct (sortArray_returns_sorted cmp a firstElement lastElement false Hc
                                       (or_intror Hfit))
      as (fuel & s' & Hrun & Hs').
    pose proof (sortArray_reaches cmp fuel a firstElement lastElement false
                                  (or_intror Hfit))
      as Hreach.
    rewrite Hrun in Hreach. simpl in Hreach.
    assert (Hframe : forall k, ~ (firstElement <= k <= lastElement) ->
                               array s' k = a k).
    { intros k Hk.
      apply (reaches_frame (quickEvent firstElement lastElement)
                           firstElement lastElement
                           (quickEvent_inRange firstElement lastElement)
                           (mkState a []) _ Hreach k Hk). }
    assert (Hequiv : forall k, firstElement <= k <= lastElement ->
                               cmp (array s' k) (a k) = 0).
    { apply (sorted_perm_equiv cmp Hc).
      - now apply sorted_ordered.
      - now apply sorted_ordered.
      - apply (reaches_perm (quickEvent firstElement lastElement)
                            firstElement lastElement
                            (quickEvent_inRange firstElement lastElement)
                            (mkState a []) _ Hreach). }
    exists fuel, s'. splits; try assumption.
    intros Hid k.
    destruct (Z_le_gt_dec firstElement k) as [H1|H1];
      [destruct (Z_le_gt_dec k lastElement) as [H2|H2]|];
      try (apply Hframe; lia).
    apply Hid. apply Hequiv. lia.
Qed.

Lemma sortArray_of_sorted_witness :
  sortedRange naturalOrder sortedWithDuplicates 0 3 /\
  Consistent naturalOrder /\
  indicesFit 0 3 /\
  (exists fuel s',
      sortArray naturalOrder fuel sortedWithDuplicates 0 3 true = Returned s' /\
      forall k, array s' k = sortedWithDuplicates k) /\
  (exists fuel s',
     sortArray naturalOrder fuel sortedWithDuplicates 0 3 false = Returned s' /\
     (forall k, ~ (0 <= k <= 3) -> array s' k = sortedWithDuplicates k) /\
     (forall k, 0 <= k <= 3 ->
                naturalOrder (array s' k) (sortedWithDuplicates k) = 0) /\
     ((forall x y, naturalOrder x y = 0 -> x = y) ->
      forall k, array s' k = sortedWithDuplicates k)).
Proof.
  assert (Hs : sortedRange naturalOrder sortedWithDuplicates 0 3).
  { intros i Hi.
    assert (Hcases : i = 0 \/ i = 1 \/ i = 2) by lia.
    destruct Hcases as [->|[->| ->]]; vm_compute; discriminate. }
  assert (Hfit : indicesFit 0 3) by fits.
  split; [exact Hs|].
  split; [exact naturalOrder_consistent|].
  split; [exact Hfit|].
  destruct (sortArray_of_sorted naturalOrder sortedWithDuplicates 0 3 Hs)
    as (Hstable & Hquick).
  split; [exact Hstable|apply Hquick; [exact naturalOrder_consistent|exact Hfit]].
Defined.

(** C4 as stated fails in the non-stable mode: three elements with the
    same key are a sorted range under [compareByFirst], and the selection
    sort moves them all the same; cell 0 ends up with the element tagged 1. *)
Lemma quick_mode_moves_equal_elements :
  sortedRange compareByFirst equalKeys 0 2 /\
  isReturned (sortArray compareByFirst 10 equalKeys 0 2 false) = true /\
  array (outcomeState (sortArray compareByFirst 10 equalKeys 0 2 false)) 0 = (0, 1) /\
  equalKeys 0 = (0, 0).
Proof.
  split.
  - intros i Hi.
    assert (Hcases : i = 0 \/ i = 1) by lia.
    destruct Hcases as [->| ->]; vm_compute; discriminate.
  - repeat split; vm_compute; reflexivity.
Qed.

(** C5.  If [lastElement <= firstElement], [sortArray] returns at once
    with the array as it was and an empty trace: no comparator call, no
    swap, in either mode and for every comparator. *)
Theorem sortArray_noop {E : Type} (cmp : E -> E -> Z) (a : Z -> E)
        (firstElement lastElement : Z) (retainOrderOfEquivalentItems : bool)
        (fuel : nat) :
  lastElement <= firstElement ->
  sortArray cmp fuel a firstElement lastElement retainOrderOfEquivalentItems
  = Returned (mkState a []).
Proof. apply sortArray_short. Qed.

Lemma sortArray_noop_witness :
  3 <= 3 /\
  sortArray naturalOrder 0 fiveNumbers 3 3 false = Returned (mkState fiveNumbers []).
Proof.
  split; [lia|].
  apply (sortArray_noop naturalOrder fiveNumbers 3 3 false 0). lia.
Defined.



(** C7, as amended.  After every Hoare partition of the non-stable path
    the two sides [firstElement .. j-1] and [i .. lastElement] are
    compared; the side that is put on the stack is the left one if it has
    at least as many cells as the right one (so also on a tie) and the
    right one otherwise, the other side is processed at once in place; a
    side of fewer than two cells is neither pushed nor processed. *)
Theorem larger_side_is_deferred {E : Type} (cmp : E -> E -> Z) (c : QConfig E) :
  indicesFit (qfirst c) (qlast c) ->
  8 < qlast c - qfirst c + 1 ->
  exists i j s1,
    partitionRange cmp (qstate c) (qfirst c) (qlast c)
                   (qlast c - qfirst c + 1) = Ok (i, j, s1) /\
    let left := (qfirst c, j - 1) in
    let right := (i, qlast c) in
    let later := if rangeSize right <=? rangeSize left then left else right in
    let now := if rangeSize right <=? rangeSize left then right else left in
    rangeSize now <= rangeSize later /\
    quickStep cmp c
    = Ok (let s2 := if 2 <=? rangeSize later
                    then logEvent s1 (EvPush (Z.of_nat (length (qstack c))))
                    else s1 in
          let stack' := if 2 <=? rangeSize later
                        then later :: qstack c else qstack c in
          if 2 <=? rangeSize now
          then inl (mkQ s2 (fst now) (snd now) stack')
          else popNext s2 stack').
Proof.
  intros Hfit Hsize. pose proof Hfit as (Hf & Hl & Hw).
  rewrite quickStep_exact by (assumption || lia).
  rewrite partitionRange_exact by lia.
  unfold quickStepZ.
  destruct (Z.leb_spec (qlast c - qfirst c + 1) 8); [lia|].
  destruct (partitionRangeZ cmp (qstate c) (qfirst c) (qlast c)) as [[i j] s1].
  exists i, j, s1. split; [reflexivity|].
  unfold deferLargerZ, push, rangeSize. cbn [fst snd].
  destruct (Z.geb_spec (j - 1 - qfirst c) (qlast c - i)) as [Hge|Hlt];
    destruct (Z.leb_spec (qlast c - i + 1) (j - 1 - qfirst c + 1)); try lia;
    cbn [fst snd]; (split; [lia|]); f_equal;
    destruct (Z.ltb_spec (qfirst c + 1) j);
    destruct (Z.leb_spec 2 (j - 1 - qfirst c + 1)); try lia;
    destruct (Z.ltb_spec i (qlast c));
    destruct (Z.leb_spec 2 (qlast c - i + 1)); try lia; reflexivity.
Qed.

(** On [9,8,...,1] both sides of the first partition have four cells. *)
Lemma larger_side_is_deferred_witness :
  indicesFit 0 8 /\ 8 < 8 - 0 + 1 /\
  (exists i j s1,
      partitionRange naturalOrder (mkState nineDescending []) 0 8 (8 - 0 + 1)
      = Ok (i, j, s1) /\
      let left := (0, j - 1) in
      let right := (i, 8) in
      let later := if rangeSize right <=? rangeSize left then left else right in
      let now := if rangeSize right <=? rangeSize left then right else left in
      rangeSize now <= rangeSize later /\
      quickStep naturalOrder (mkQ (mkState nineDescending []) 0 8 [])
      = Ok (let s2 := if 2 <=? rangeSize later
                      then logEvent s1 (EvPush (Z.of_nat (length (@nil (Z * Z)))))
                      else s1 in
            let stack' := if 2 <=? rangeSize later then [later] else [] in
            if 2 <=? rangeSize now
            then inl (mkQ s2 (fst now) (snd now) stack')
            else popNext s2 stack')).
Proof.
  assert (Hfit : indicesFit 0 8) by fits.
  split; [exact Hfit|]. split; [reflexivity|].
  apply (larger_side_is_deferred naturalOrder (mkQ (mkState nineDescending []) 0 8 []));
    [exact Hfit|reflexivity].
Defined.

(** C7 as stated says that only the smaller half is ever deferred; the
    code defers the larger one.  Partitioning [0,1,5,3,4,2,6,7,8,9] leaves
    the two cells [0 .. 1] and the seven cells [3 .. 9]: the seven cells go
    on the stack, the two are sorted at once. *)
Lemma deferred_side_is_not_the_smaller :
  exists i j s1 s2,
    partitionRange naturalOrder (mkState tenNumbers []) 0 9 10 = Ok (i, j, s1) /\
    deferLarger s1 [] 0 9 i j = Ok (s2, [(3, 9)], Some (0, 1)) /\
    rangeSize (0, 1) < rangeSize (3, 9).
Proof.
  eexists _, _, _, _. split; [vm_compute; reflexivity|].
  split; [vm_compute; reflexivity|reflexivity].
Qed.

(** On a tie the left side is the one deferred: after the first partition
    of [9,8,...,1] the cells [0 .. 3] are on the stack and the loop goes
    on with the cells [5 .. 8]. *)
Example tie_defers_the_left_side :
  exists s,
    quickStep naturalOrder (mkQ (mkState nineDescending []) 0 8 [])
    = Ok (inl (mkQ s 5 8 [(0, 3)])).
Proof. eexists. vm_compute. reflexivity. Qed.





(** C10, as amended.  The stack-driven loop of the non-stable mode makes
    finitely many trips for every comparator, on every range whose
    indices leave room for its [int] arithmetic; the
    adjacent-transposition loop of the stable mode makes finitely many
    trips for every comparator that never answers "after" (a positive
    value) for a pair in both orders, hence for every consistent
    three-way comparator. *)
Theorem sortArray_terminates {E : Type} (cmp : E -> E -> Z) (a : Z -> E)
        (firstElement lastElement : Z) :
  (indicesFit firstElement lastElement ->
   exists fuel s',
     sortArray cmp fuel a firstElement lastElement false = Returned s') /\
  ((forall x y, cmp x y > 0 -> cmp y x <= 0) ->
   exists fuel s',
     sortArray cmp fuel a firstElement lastElement true = Returned s') /\
  (Consistent cmp -> forall x y, cmp x y > 0 -> cmp y x <= 0).
Proof.
  splits.
  - intros Hfit.
    destruct (sortArray_quick_returns cmp a firstElement lastElement Hfit)
      as (s' & Hrun).
    now exists (S (Z.to_nat (lastElement - firstElement + 1))), s'.
  - intros Hflip.
    destruct (Z_lt_ge_dec firstElement lastElement) as [Hlt|Hge].
    + destruct (stableSort_terminates cmp Hflip (mkState a [])
                                      firstElement lastElement ltac:(lia))
        as (fuel & s' & Hrun).
      exists fuel, s'. now rewrite sortArray_stable_branch.
    + exists 0%nat, (mkState a []). apply sortArray_short. lia.
  - intros Hc x y Hxy. pose proof (cmp_flip cmp Hc x y). lia.
Qed.

Lemma sortArray_terminates_witness :
  indicesFit 0 4 /\
  (forall x y, naturalOrder x y > 0 -> naturalOrder y x <= 0) /\
  (exists fuel s', sortArray naturalOrder fuel fiveNumbers 0 4 false = Returned s') /\
  (exists fuel s', sortArray naturalOrder fuel fiveNumbers 0 4 true = Returned s').
Proof.
  assert (Hfit : indicesFit 0 4) by fits.
  destruct (sortArray_terminates naturalOrder fiveNumbers 0 4) as (Hq & Hs & Hc).
  pose proof (Hc naturalOrder_consistent) as Hflip.
  split; [exact Hfit|].
  split; [exact Hflip|]. split; [exact (Hq Hfit)|exact (Hs Hflip)].
Defined.

(** C10 as stated fails twice over.  With a comparator that answers
    "after" for every pair, the stable mode on a range of three cells
    swaps for ever and never returns, whatever the number of trips it is
    given.  And on the five cells that end at [INT_MAX] the non-stable
    mode does not return either: after four comparisons [++k] overflows
    while [k <= j] still holds. *)
Lemma sortArray_need_not_return :
  ~ (exists fuel s',
        sortArray alwaysAfter fuel threeNumbers 0 2 true = Returned s') /\
  ~ (exists fuel s',
        sortArray naturalOrder fuel allSevens 2147483643 2147483647 false
        = Returned s').
Proof.
  split.
  - intros (fuel & s' & Hrun).
    rewrite sortArray_stable_branch in Hrun by lia. unfold stableSort in Hrun.
    refine (runLoop_returned (stableStep alwaysAfter 0 2) fst
              (fun c => 0 <= snd c <= 1) (fun _ => False) _ _ fuel _ s' _ Hrun).
    + intros [s i] c' Hi Hstep. simpl in Hi.
      rewrite stableStep_swap in Hstep by (unfold alwaysAfter; lia).
      injection Hstep as <-. simpl. destruct (Z.gtb_spec i 0); lia.
    + intros [s i] s0 Hi Hstep. simpl in Hi.
      rewrite stableStep_swap in Hstep by (unfold alwaysAfter; lia).
      discriminate.
    + simpl. lia.
  - intros ([|fuel] & s' & Hrun); [discriminate|].
    unfold sortArray, quickSort in Hrun. cbn [runChecked] in Hrun.
    replace (quickStep naturalOrder
               (mkQ (mkState allSevens []) 2147483643 2147483647 []))
      with (@IntOverflow (State Z) (QConfig Z + State Z)
              (mkState allSevens
                 [EvCompare 2147483647 2147483643;
                  EvCompare 2147483646 2147483643;
                  EvCompare 2147483645 2147483643;
                  EvCompare 2147483644 2147483643]))
      in Hrun by (vm_compute; reflexivity).
    simpl in Hrun. discriminate.
Qed.

(** ** The concrete runs of the specification *)

Example sort_five_numbers :
  isReturned (sortArray naturalOrder 10 fiveNumbers 0 4 false) = true /\
  contents (array (outcomeState (sortArray naturalOrder 10 fiveNumbers 0 4 false))) 0 4
  = [1; 2; 3; 4; 5].
Proof. split; reflexivity. Qed.

Example sort_tagged_pairs_stably :
  contents (array (outcomeState (sortArray compareByFirst 10 taggedPairs 0 2 true))) 0 2
  = [(0, 99); (1, 97); (1, 98)].
Proof. reflexivity. Qed.

Example find_insert_no_match :
  findInsertIndexInSortedArray naturalOrder sortedNoMatch 3 0 4
  = Some (Ok (2, [0; 2; 0; 1; 1; 1])).
Proof. reflexivity. Qed.

(** ** Runs that leave [int]

    On the five cells that end at [INT_MAX] the selection sort makes its
    four comparisons and then overflows [++k]; above index [2^30] the
    search reads [array[firstElement]] and then overflows
    [firstElement + lastElement]; on an inverted range the assertion of
    the search fails. *)
Example selection_sort_overflows_at_INT_MAX :
  sortArray naturalOrder 1 allSevens 2147483643 2147483647 false
  = Overflow (mkState allSevens
                [EvCompare 2147483647 2147483643;
                 EvCompare 2147483646 2147483643;
                 EvCompare 2147483645 2147483643;
                 EvCompare 2147483644 2147483643]).
Proof. vm_compute. reflexivity. Qed.

Example search_overflows_above_two_to_the_30 :
  findInsertIndexInSortedArray naturalOrder allSevens 9 1073741824 1073741828
  = Some (IntOverflow [1073741824]).
Proof. reflexivity. Qed.

Example search_asserts_its_range :
  findInsertIndexInSortedArray naturalOrder allSevens 9 4 0 = None.
Proof. reflexivity. Qed.

(* ================================================================== *)
(** * Part IV - further properties of the code                         *)
(* ================================================================== *)

(** ** The binary search, for any comparator *)

Section FindInsertAnyComparator.

Context {E : Type} (cmp : E -> E -> Z).
Variables (a : Z -> E) (newElement : E).

Lemma findInsertLoop_bounds n : forall firstElement lastElement,
  lastElement - firstElement <= Z.of_nat n ->
  firstElement <= lastElement ->
  firstElement
  <= fst (findInsertLoopZ cmp n a newElement firstElement lastElement)
  <= lastElement /\
  Forall (fun k => firstElement <= k < lastElement)
         (snd (findInsertLoopZ cmp n a newElement firstElement lastElement)).
Proof.
  induction n as [|n IH]; intros firstElement lastElement Hn Hfl; simpl.
  - split; [lia|constructor].
  - destruct (Z.ltb_spec firstElement lastElement) as [Hlt|Hge];
      [|simpl; split; [lia|constructor]].
    destruct (cmp newElement (a firstElement) =? 0).
    + simpl. split; [lia|]. repeat constructor; lia.
    + rewrite shiftr_half.
      set (halfway := (firstElement + lastElement) / 2).
      assert (Hhalf : firstElement <= halfway < lastElement)
        by (subst halfway; Z.div_mod_to_equations; lia).
      destruct (Z.eqb_spec halfway firstElement) as [Hh|Hh].
      * simpl. split; [destruct (_ >=? _); lia|]. repeat constructor; lia.
      * destruct (cmp newElement (a halfway) >=? 0).
        -- specialize (IH halfway lastElement ltac:(lia) ltac:(lia)).
           destruct (findInsertLoopZ cmp n a newElement halfway lastElement)
             as [r probes].
           simpl in *. destruct IH as [Hr Hp]. split; [lia|].
           constructor; [lia|]. constructor; [lia|].
           eapply Forall_impl; [|exact Hp]. intros k. simpl. lia.
        -- specialize (IH firstElement halfway ltac:(lia) ltac:(lia)).
           destruct (findInsertLoopZ cmp n a newElement firstElement halfway)
             as [r probes].
           simpl in *. destruct IH as [Hr Hp]. split; [lia|].
           constructor; [lia|]. constructor; [lia|].
           eapply Forall_impl; [|exact Hp]. intros k. simpl. lia.
Qed.

(** Every trip reads at most two cells and at least halves the range. *)
Lemma findInsertLoop_probe_count n : forall (k : nat) firstElement lastElement,
  lastElement - firstElement <= Z.of_nat n ->
  lastElement - firstElement <= 2 ^ Z.of_nat k ->
  (length (snd (findInsertLoopZ cmp n a newElement firstElement lastElement))
   <= 2 * (k + 1))%nat.
Proof.
  induction n as [|n IH]; intros k firstElement lastElement Hn Hk; simpl.
  - lia.
  - destruct (Z.ltb_spec firstElement lastElement) as [Hlt|Hge]; [|simpl; lia].
    destruct (cmp newElement (a firstElement) =? 0); [simpl; lia|].
    rewrite shiftr_half.
    set (halfway := (firstElement + lastElement) / 2).
    assert (Hhalf : firstElement <= halfway < lastElement)
      by (subst halfway; Z.div_mod_to_equations; lia).
    destruct (Z.eqb_spec halfway firstElement) as [Hh|Hh]; [simpl; lia|].
    destruct k as [|k].
    { exfalso. change (2 ^ Z.of_nat 0) with 1 in Hk. lia. }
    rewrite pow2_succ in Hk.
    destruct (cmp newElement (a halfway) >=? 0).
    + specialize (IH k halfway lastElement ltac:(lia)
                     ltac:(subst halfway; Z.div_mod_to_equations; lia)).
      destruct (findInsertLoopZ cmp n a newElement halfway lastElement)
        as [r probes].
      simpl in *. lia.
    + specialize (IH k firstElement halfway ltac:(lia)
                     ltac:(subst halfway; Z.div_mod_to_equations; lia)).
      destruct (findInsertLoopZ cmp n a newElement firstElement halfway)
        as [r probes].
      simpl in *. lia.
Qed.

Lemma findInsertLoop_after_all n : forall firstElement lastElement,
  lastElement - firstElement <= Z.of_nat n ->
  firstElement <= lastElement ->
  (forall k, firstElement <= k < lastElement -> cmp newElement (a k) > 0) ->
  fst (findInsertLoopZ cmp n a newElement firstElement lastElement) = lastElement.
Proof.
  induction n as [|n IH]; intros firstElement lastElement Hn Hfl Hall; simpl.
  - lia.
  - destruct (Z.ltb_spec firstElement lastElement) as [Hlt|Hge]; [|simpl; lia].
    pose proof (Hall firstElement ltac:(lia)) as H0.
    destruct (Z.eqb_spec (cmp newElement (a firstElement)) 0); [lia|].
    rewrite shiftr_half.
    set (halfway := (firstElement + lastElement) / 2).
    assert (Hhalf : firstElement <= halfway < lastElement)
      by (subst halfway; Z.div_mod_to_equations; lia).
    pose proof (Hall halfway Hhalf) as H1.
    destruct (Z.geb_spec (cmp newElement (a halfway)) 0); [|lia].
    destruct (Z.eqb_spec halfway firstElement) as [Hh|Hh].
    + simpl. subst halfway. Z.div_mod_to_equations. lia.
    + specialize (IH halfway lastElement ltac:(lia) ltac:(lia)
                     ltac:(intros; apply Hall; lia)).
      destruct (findInsertLoopZ cmp n a newElement halfway lastElement).
      exact IH.
Qed.

Lemma findInsertLoop_before_all n : forall firstElement lastElement,
  lastElement - firstElement <= Z.of_nat n ->
  (forall k, firstElement <= k < lastElement -> cmp newElement (a k) < 0) ->
  fst (findInsertLoopZ cmp n a newElement firstElement lastElement) = firstElement.
Proof.
  induction n as [|n IH]; intros firstElement lastElement Hn Hall; simpl.
  - reflexivity.
  - destruct (Z.ltb_spec firstElement lastElement) as [Hlt|Hge]; [|reflexivity].
    pose proof (Hall firstElement ltac:(lia)) as H0.
    destruct (Z.eqb_spec (cmp newElement (a firstElement)) 0); [lia|].
    rewrite shiftr_half.
    set (halfway := (firstElement + lastElement) / 2).
    assert (Hhalf : firstElement <= halfway < lastElement)
      by (subst halfway; Z.div_mod_to_equations; lia).
    pose proof (Hall halfway Hhalf) as H1.
    destruct (Z.geb_spec (cmp newElement (a halfway)) 0); [lia|].
    destruct (Z.eqb_spec halfway firstElement) as [Hh|Hh]; [reflexivity|].
    specialize (IH firstElement halfway ltac:(lia)
                   ltac:(intros; apply Hall; lia)).
    destruct (findInsertLoopZ cmp n a newElement firstElement halfway).
    exact IH.
Qed.

Hypothesis Hc : Consistent cmp.

(** On a sorted range the loop stops between the elements that do not
    come after [newElement] and those that do not come before it. *)
Lemma findInsertLoop_position n : forall firstElement lastElement,
  lastElement - firstElement <= Z.of_nat n ->
  firstElement <= lastElement ->
  orderedRange cmp a firstElement (lastElement - 1) ->
  (forall k, firstElement <= k ->
             k < fst (findInsertLoopZ cmp n a newElement firstElement lastElement) ->
             cmp (a k) newElement <= 0) /\
  (forall k, fst (findInsertLoopZ cmp n a newElement firstElement lastElement) <= k ->
             k < lastElement ->
             cmp newElement (a k) <= 0).
Proof.
  induction n as [|n IH]; intros firstElement lastElement Hn Hfl Hord; simpl.
  - split; intros; lia.
  - destruct (Z.ltb_spec firstElement lastElement) as [Hlt|Hge];
      [|simpl; split; intros; lia].
    destruct (Z.eqb_spec (cmp newElement (a firstElement)) 0) as [H0|H0].
    + simpl. split; intros k Hk1 Hk2.
      * replace k with firstElement by lia.
        rewrite (cmp_eq_sym cmp Hc _ _ H0). lia.
      * apply (cmp_trans cmp Hc _ (a firstElement)); [lia|].
        apply Hord; lia.
    + rewrite shiftr_half.
      set (halfway := (firstElement + lastElement) / 2).
      assert (Hhalf : firstElement <= halfway < lastElement)
        by (subst halfway; Z.div_mod_to_equations; lia).
      assert (Hbelow : forall k, firstElement <= k <= halfway ->
                                 cmp (a k) (a halfway) <= 0).
      { intros k Hk. destruct (Z.eq_dec k halfway) as [->|Hne].
        - rewrite (cmp_refl cmp Hc). lia.
        - apply Hord; lia. }
      assert (Habove : forall k, halfway <= k < lastElement ->
                                 cmp (a halfway) (a k) <= 0).
      { intros k Hk. destruct (Z.eq_dec k halfway) as [->|Hne].
        - rewrite (cmp_refl cmp Hc). lia.
        - apply Hord; lia. }
      destruct (Z.eqb_spec halfway firstElement) as [Hh|Hh].
      * assert (lastElement = firstElement + 1)
          by (subst halfway; Z.div_mod_to_equations; lia).
        rewrite Hh.
        destruct (Z.geb_spec (cmp newElement (a firstElement)) 0) as [Hcmp|Hcmp];
          simpl; split; intros k Hk1 Hk2; try lia.
        -- replace k with firstElement by lia. apply (cmp_ge_le cmp Hc); lia.
        -- replace k with firstElement by lia. lia.
      * destruct (Z.geb_spec (cmp newElement (a halfway)) 0) as [Hcmp|Hcmp].
        -- specialize (IH halfway lastElement ltac:(lia) ltac:(lia)
                          ltac:(intros p q ? ? ?; apply Hord; lia)).
           destruct (findInsertLoopZ cmp n a newElement halfway lastElement)
             as [r probes].
           simpl in *. destruct IH as [IHlow IHhigh].
           split; intros k Hk1 Hk2.
           ++ destruct (Z_lt_ge_dec k halfway) as [Hkh|Hkh].
              ** apply (cmp_trans cmp Hc _ (a halfway)); [apply Hbelow; lia|].
                 apply (cmp_ge_le cmp Hc); lia.
              ** apply IHlow; lia.
           ++ apply IHhigh; lia.
        -- specialize (IH firstElement halfway ltac:(lia) ltac:(lia)
                          ltac:(intros p q ? ? ?; apply Hord; lia)).
           destruct (findInsertLoopZ cmp n a newElement firstElement halfway)
             as [r probes].
           simpl in *. destruct IH as [IHlow IHhigh].
           split; intros k Hk1 Hk2.
           ++ apply IHlow; lia.
           ++ destruct (Z_lt_ge_dec k halfway) as [Hkh|Hkh].
              ** apply IHhigh; lia.
              ** apply (cmp_trans cmp Hc _ (a halfway)); [lia|].
                 apply Habove; lia.
Qed.

End FindInsertAnyComparator.

(** ** The stable branch without transitivity *)

Section StableAdjacent.

Context {E : Type} (cmp : E -> E -> Z).
Implicit Types (s : State E).

Hypothesis Hflip : neverAfterBothWays cmp.

(** The pairs of neighbours left of the cursor are in order. *)
Lemma stableSort_adjacent fuel s firstElement lastElement s' :
  firstElement <= lastElement ->
  stableSort cmp fuel s firstElement lastElement = Returned s' ->
  sortedRange cmp (array s') firstElement lastElement.
Proof.
  intros Hfl. unfold stableSort.
  apply (runLoop_returned (stableStep cmp firstElement lastElement) fst
           (fun c => firstElement <= snd c <= lastElement /\
                     forall k, firstElement <= k < snd c ->
                               cmp (array (fst c) k) (array (fst c) (k + 1)) <= 0)
           (fun s' => sortedRange cmp (array s') firstElement lastElement)).
  - intros [s1 i] c' [Hi Hinv] Hstep. simpl in Hi, Hinv.
    destruct (Z_lt_ge_dec i lastElement) as [Hlt|Hge];
      [|rewrite stableStep_exit in Hstep by lia; discriminate].
    destruct (Z_le_gt_dec (cmp (array s1 i) (array s1 (i + 1))) 0) as [Hle|Hgt].
    + rewrite stableStep_keep in Hstep by assumption.
      injection Hstep as <-. simpl. split; [lia|]. intros k Hk.
      destruct (Z.eq_dec k i) as [->|Hne]; [assumption|apply Hinv; lia].
    + rewrite stableStep_swap in Hstep by assumption.
      injection Hstep as <-. simpl.
      destruct (Z.gtb_spec i firstElement) as [Hif|Hif]; (split; [lia|]);
        intros k Hk.
      * rewrite !swap_other by lia. apply Hinv; lia.
      * replace k with i by lia. rewrite swap_left, swap_right.
        apply Hflip. assumption.
  - intros [s1 i] s0 [Hi Hinv] Hstep. simpl in Hi, Hinv.
    destruct (Z_lt_ge_dec i lastElement) as [Hlt|Hge].
    + destruct (Z_le_gt_dec (cmp (array s1 i) (array s1 (i + 1))) 0).
      * rewrite stableStep_keep in Hstep by assumption. discriminate.
      * rewrite stableStep_swap in Hstep by assumption. discriminate.
    + rewrite stableStep_exit in Hstep by lia. injection Hstep as <-.
      intros k Hk. apply Hinv. lia.
  - simpl. split; [lia|]. intros k Hk. lia.
Qed.

End StableAdjacent.

(** ** Counting comparator calls and swaps *)

Section Counting.

Context {E : Type} (cmp : E -> E -> Z).
Implicit Types (s : State E).

Lemma maxScan_counts n j s k m :
  k <= j + 1 -> j + 1 - k <= Z.of_nat n ->
  countCompares (trace (snd (maxScanZ cmp n j s k m)))
  = countCompares (trace s) + (j + 1 - k) /\
  countSwaps (trace (snd (maxScanZ cmp n j s k m))) = countSwaps (trace s) /\
  pushIndices (trace (snd (maxScanZ cmp n j s k m))) = pushIndices (trace s).
Proof.
  revert s k m. induction n as [|n IH]; intros s k m Hk Hn; simpl.
  - splits; try reflexivity. lia.
  - destruct (Z.leb_spec k j) as [Hle|Hgt]; simpl.
    + destruct (IH (logEvent s (EvCompare k m)) (k + 1)
                   (if cmp (array s k) (array s m) >? 0 then k else m)
                   ltac:(lia) ltac:(lia)) as (H1 & H2 & H3).
      rewrite H1, H2, H3. cbn [countCompares countSwaps pushIndices trace logEvent].
      splits; try reflexivity. lia.
    + splits; try reflexivity. lia.
Qed.

(** The selection sort of [firstElement .. j] calls the comparator once
    for every pair of cells and [swapVariables] once for every cell but
    one, whatever the comparator answers. *)
Lemma selectionLoop_counts n firstElement s j :
  firstElement <= j -> j - firstElement <= Z.of_nat n ->
  2 * countCompares (trace (selectionLoopZ cmp n firstElement s j))
  = 2 * countCompares (trace s) + (j - firstElement) * (j - firstElement + 1) /\
  countSwaps (trace (selectionLoopZ cmp n firstElement s j))
  = countSwaps (trace s) + (j - firstElement) /\
  pushIndices (trace (selectionLoopZ cmp n firstElement s j))
  = pushIndices (trace s).
Proof.
  revert s j. induction n as [|n IH]; intros s j Hfj Hn; cbn [selectionLoopZ].
  - splits; try reflexivity; nia.
  - destruct (Z.gtb_spec j firstElement) as [Hgt|Hle].
    2:{ splits; try reflexivity; nia. }
    pose proof (maxScan_counts (Z.to_nat (j - firstElement)) j s
                  (firstElement + 1) firstElement ltac:(lia) ltac:(lia))
      as (H1 & H2 & H3).
    destruct (maxScanZ cmp (Z.to_nat (j - firstElement)) j s
                      (firstElement + 1) firstElement) as [m s1].
    cbn [snd] in H1, H2, H3.
    destruct (IH (swapAt s1 j m) (j - 1) ltac:(lia) ltac:(lia))
      as (I1 & I2 & I3).
    cbn [countCompares countSwaps pushIndices trace swapAt] in I1, I2, I3.
    splits; [nia|lia|congruence].
Qed.

(** Walking up a sorted stretch in the stable branch costs one
    comparison per pair of neighbours and no swap. *)
Lemma stable_walk_counts firstElement lastElement n : forall s i m,
  Z.to_nat (m - i) = n -> i <= m -> m <= lastElement ->
  sortedRange cmp (array s) i m ->
  exists s', array s' = array s /\
    countCompares (trace s') = countCompares (trace s) + (m - i) /\
    countSwaps (trace s') = countSwaps (trace s) /\
    forall k, runLoop (stableStep cmp firstElement lastElement) fst (n + k) (s, i)
              = runLoop (stableStep cmp firstElement lastElement) fst k (s', m).
Proof.
  induction n as [|n IH]; intros s i m Hn Him Hml Hsorted.
  - assert (i = m) by lia. subst i. exists s. splits; try reflexivity. lia.
  - destruct (IH (logEvent s (EvCompare i (i + 1))) (i + 1) m)
      as (s' & Ha & Hc & Hs & Hrun); try lia.
    + intros k Hk. simpl. apply Hsorted. lia.
    + exists s'. cbn [countCompares countSwaps trace logEvent array] in Ha, Hc, Hs.
      splits; try assumption; try lia.
      intros k. change (S n + k)%nat with (S (n + k)).
      rewrite (runLoop_inl _ _ _ _ (logEvent s (EvCompare i (i + 1)), i + 1));
        [apply Hrun|].
      apply stableStep_keep; [lia|apply Hsorted; lia].
Qed.

Lemma arrayEvents_no_push lo hi evs :
  Forall (arrayEvent lo hi) evs -> pushIndices evs = [].
Proof.
  induction 1 as [|e evs He _ IH]; simpl; [reflexivity|].
  destruct e; simpl in He; [assumption|assumption|contradiction].
Qed.

End Counting.

(** ** The pivot of a partition *)

Section PivotFacts.

Context {E : Type} (cmp : E -> E -> Z).
Implicit Types (s : State E).

(** The element that ends at [j] is the one that was in the middle cell. *)
Lemma partitionRange_pivot s firstElement lastElement :
  firstElement <= lastElement ->
  let '(i, j, s') := partitionRangeZ cmp s firstElement lastElement in
  array s' j
  = array s (firstElement + (lastElement - firstElement + 1) / 2).
Proof.
  intros Hfl. unfold partitionRangeZ. rewrite shiftr_half.
  set (mid := firstElement + (lastElement - firstElement + 1) / 2).
  assert (Hmid : firstElement <= mid <= lastElement)
    by (subst mid; Z.div_mod_to_equations; lia).
  pose proof (partitionLoop_spec cmp
                (Z.to_nat (lastElement + 1 - firstElement))
                firstElement lastElement (swapAt s mid firstElement)
                firstElement (lastElement + 1)
                ltac:(lia) ltac:(lia) ltac:(lia) ltac:(lia)
                ltac:(intros; lia) ltac:(intros; lia)) as Hloop.
  destruct (partitionLoopZ cmp (Z.to_nat (lastElement + 1 - firstElement))
                          firstElement lastElement (swapAt s mid firstElement)
                          firstElement (lastElement + 1))
    as [[i j] s2].
  destruct Hloop as (_ & Hpiv & _).
  simpl. rewrite swap_left, Hpiv. simpl. apply swap_right.
Qed.

(** A range of equivalent elements is partitioned in one sweep: the
    cursors run through to both ends. *)
Lemma partitionLoop_all_equivalent n firstElement lastElement s :
  firstElement < lastElement ->
  (forall p, firstElement <= p <= lastElement ->
             cmp (array s p) (array s firstElement) = 0) ->
  exists s',
    partitionLoopZ cmp (S n) firstElement lastElement s firstElement (lastElement + 1)
    = (lastElement + 1, firstElement, s') /\
    array s' = array s /\
    touches firstElement lastElement s s'.
Proof.
  intros Hfl Heq. simpl.
  pose proof (scanUp_spec cmp (Z.to_nat (lastElement - firstElement))
                          firstElement lastElement s firstElement
                          ltac:(lia) ltac:(lia)) as Hup.
  destruct (scanUpZ cmp (Z.to_nat (lastElement - firstElement))
                   firstElement lastElement s firstElement) as [i1 s1].
  simpl in Hup. destruct Hup as (Ht1 & Ha1 & Hi1 & Hi1ub & _ & Hupstop).
  assert (i1 = lastElement + 1).
  { destruct (Z_le_gt_dec i1 lastElement) as [Hle|Hgt]; [|lia].
    specialize (Hupstop Hle). rewrite Heq in Hupstop by lia. lia. }
  subst i1.
  pose proof (scanDown_spec cmp (Z.to_nat (lastElement + 1 - 1 - firstElement))
                            firstElement lastElement s1 (lastElement + 1)
                            ltac:(lia) ltac:(lia)) as Hdn.
  destruct (scanDownZ cmp (Z.to_nat (lastElement + 1 - 1 - firstElement))
                     firstElement s1 (lastElement + 1)) as [j1 s2].
  simpl in Hdn. destruct Hdn as (Ht2 & Ha2 & Hj1 & Hj1lb & _ & Hdnstop).
  rewrite Ha1 in Hdnstop.
  assert (j1 = firstElement).
  { destruct (Z_lt_ge_dec firstElement j1) as [Hlt|Hge]; [|lia].
    specialize (Hdnstop Hlt). rewrite Heq in Hdnstop by lia. lia. }
  subst j1.
  destruct (Z.ltb_spec firstElement (lastElement + 1)); [|lia].
  exists s2. splits; [reflexivity|congruence|].
  eapply touches_trans; eassumption.
Qed.

End PivotFacts.

(** ** DefaultElementComparator over a strict weak ordering *)

Section DefaultComparatorFacts.

Context {E : Type} (lessThan : E -> E -> bool).

Lemma default_le_iff :
  (forall x y, lessThan x y = true -> lessThan y x = false) ->
  forall x y, DefaultElementComparator lessThan x y <= 0 <-> lessThan y x = false.
Proof.
  intros Hasym x y. unfold DefaultElementComparator.
  destruct (lessThan x y) eqn:Hxy.
  - rewrite (Hasym x y Hxy). split; [reflexivity|lia].
  - destruct (lessThan y x); split; intros; try reflexivity; try lia; discriminate.
Qed.

End DefaultComparatorFacts.

Lemma ltb_asymmetric : forall x y, Z.ltb x y = true -> Z.ltb y x = false.
Proof. intros x y. destruct (Z.ltb_spec x y), (Z.ltb_spec y x); (lia || auto). Qed.

Lemma ltb_negatively_transitive :
  forall x y z, Z.ltb y x = false -> Z.ltb z y = false -> Z.ltb z x = false.
Proof.
  intros x y z.
  destruct (Z.ltb_spec y x), (Z.ltb_spec z y), (Z.ltb_spec z x);
    (lia || auto || discriminate).
Qed.

Lemma cyclicOrder_never_after_both_ways :
  forall x y, cyclicOrder x y > 0 -> cyclicOrder y x <= 0.
Proof.
  intros x y. unfold cyclicOrder.
  pose proof (Z.mod_pos_bound (y - x) 3 ltac:(lia)).
  pose proof (Z.mod_pos_bound (x - y) 3 ltac:(lia)).
  destruct (Z.eqb_spec ((y - x) mod 3) 0); [lia|].
  destruct (Z.eqb_spec ((y - x) mod 3) 1); [lia|].
  intros _.
  destruct (Z.eqb_spec ((x - y) mod 3) 0); [lia|].
  destruct (Z.eqb_spec ((x - y) mod 3) 1); [lia|].
  exfalso. Z.div_mod_to_equations. lia.
Qed.

(** ** The further properties *)

(** X1.  Whatever the array and the comparator, sorted or not, on a
    range with [firstElement <= lastElement] whose indices leave room for
    the sum [firstElement + lastElement],
    [findInsertIndexInSortedArray] returns an index between [firstElement]
    and [lastElement], and the only cells it compares [newElement] with
    are cells of [firstElement .. lastElement - 1]. *)
Theorem findInsertIndex_in_range {E : Type} (cmp : E -> E -> Z) (a : Z -> E)
        (newElement : E) (firstElement lastElement : Z) :
  firstElement <= lastElement ->
  searchFits firstElement lastElement ->
  exists r probes,
    findInsertIndexInSortedArray cmp a newElement firstElement lastElement
    = Some (Ok (r, probes)) /\
    (firstElement <= r <= lastElement /\
     Forall (fun k => firstElement <= k < lastElement) probes).
Proof.
  intros Hfl Hfit.
  apply (findInsertIndex_result cmp a newElement
           (fun r probes =>
              firstElement <= r <= lastElement /\
              Forall (fun k => firstElement <= k < lastElement) probes));
    try assumption.
  unfold findInsertIndexInSortedArrayZ.
  apply findInsertLoop_bounds; lia.
Qed.

Lemma findInsertIndex_in_range_witness :
  0 <= 4 /\ searchFits 0 4 /\
  (exists r probes,
      findInsertIndexInSortedArray naturalOrder fiveNumbers 3 0 4
      = Some (Ok (r, probes)) /\
      (0 <= r <= 4 /\ Forall (fun k => 0 <= k < 4) probes)).
Proof.
  assert (Hfit : searchFits 0 4) by fits.
  split; [lia|]. split; [exact Hfit|].
  apply (findInsertIndex_in_range naturalOrder fiveNumbers 3 0 4);
    [lia|exact Hfit].
Defined.

(** X2.  On a range that is sorted under a consistent comparator, and
    whose indices leave room for the sum [firstElement + lastElement], the
    returned index is a correct insertion point: no element before it
    comes after [newElement], and no element from it on comes before
    [newElement]. *)
Theorem findInsertIndex_is_insertion_point {E : Type} (cmp : E -> E -> Z)
        (a : Z -> E) (newElement : E) (firstElement lastElement : Z) :
  Consistent cmp ->
  firstElement <= lastElement ->
  searchFits firstElement lastElement ->
  sortedRange cmp a firstElement (lastElement - 1) ->
  exists r probes,
    findInsertIndexInSortedArray cmp a newElement firstElement lastElement
    = Some (Ok (r, probes)) /\
    ((forall k, firstElement <= k -> k < r -> cmp (a k) newElement <= 0) /\
     (forall k, r <= k -> k < lastElement -> cmp newElement (a k) <= 0)).
Proof.
  intros Hc Hfl Hfit Hsorted.
  apply (findInsertIndex_result cmp a newElement
           (fun r probes =>
              (forall k, firstElement <= k -> k < r -> cmp (a k) newElement <= 0) /\
              (forall k, r <= k -> k < lastElement -> cmp newElement (a k) <= 0)));
    try assumption.
  unfold findInsertIndexInSortedArrayZ.
  apply (findInsertLoop_position cmp a newElement Hc); try lia.
  now apply sorted_ordered.
Qed.

Lemma sortedNoMatch_sorted : sortedRange naturalOrder sortedNoMatch 0 (4 - 1).
Proof.
  intros i Hi.
  assert (Hcases : i = 0 \/ i = 1 \/ i = 2) by lia.
  destruct Hcases as [->|[->| ->]]; vm_compute; discriminate.
Qed.

Lemma findInsertIndex_is_insertion_point_witness :
  Consistent naturalOrder /\ 0 <= 4 /\ searchFits 0 4 /\
  sortedRange naturalOrder sortedNoMatch 0 (4 - 1) /\
  (exists r probes,
      findInsertIndexInSortedArray naturalOrder sortedNoMatch 3 0 4
      = Some (Ok (r, probes)) /\
      ((forall k, 0 <= k -> k < r -> naturalOrder (sortedNoMatch k) 3 <= 0) /\
       (forall k, r <= k -> k < 4 -> naturalOrder 3 (sortedNoMatch k) <= 0))).
Proof.
  assert (Hfit : searchFits 0 4) by fits.
  split; [exact naturalOrder_consistent|]. split; [lia|].
  split; [exact Hfit|]. split; [exact sortedNoMatch_sorted|].
  apply (findInsertIndex_is_insertion_point naturalOrder sortedNoMatch 3 0 4
           naturalOrder_consistent ltac:(lia) Hfit sortedNoMatch_sorted).
Defined.

(** X3.  The search is logarithmic whatever the comparator answers: on a
    range of at most [2^k] cells, with [firstElement <= lastElement] and
    indices that leave room for the sum [firstElement + lastElement], it
    calls the comparator at most [2 * (k + 1)] times. *)
Theorem findInsertIndex_comparisons {E : Type} (cmp : E -> E -> Z) (a : Z -> E)
        (newElement : E) (firstElement lastElement : Z) (k : nat) :
  firstElement <= lastElement ->
  searchFits firstElement lastElement ->
  lastElement - firstElement <= 2 ^ Z.of_nat k ->
  exists r probes,
    findInsertIndexInSortedArray cmp a newElement firstElement lastElement
    = Some (Ok (r, probes)) /\
    (length probes <= 2 * (k + 1))%nat.
Proof.
  intros Hfl Hfit Hk.
  apply (findInsertIndex_result cmp a newElement
           (fun r probes => (length probes <= 2 * (k + 1))%nat));
    try assumption.
  unfold findInsertIndexInSortedArrayZ.
  apply findInsertLoop_probe_count; [lia|assumption].
Qed.

Lemma findInsertIndex_comparisons_witness :
  0 <= 4 /\ searchFits 0 4 /\ 4 - 0 <= 2 ^ Z.of_nat 2 /\
  (exists r probes,
      findInsertIndexInSortedArray naturalOrder sortedNoMatch 3 0 4
      = Some (Ok (r, probes)) /\
      (length probes <= 2 * (2 + 1))%nat).
Proof.
  assert (Hfit : searchFits 0 4) by fits.
  split; [lia|]. split; [exact Hfit|].
  split; [vm_compute; discriminate|].
  apply (findInsertIndex_comparisons naturalOrder sortedNoMatch 3 0 4 2);
    [lia|exact Hfit|vm_compute; discriminate].
Defined.

(** X4.  If [newElement] compares [> 0] with every element of the range,
    the result is [lastElement], whatever the comparator and whether or
    not the range is sorted, provided the indices leave room for the sum
    [firstElement + lastElement]. *)
Theorem findInsertIndex_after_all {E : Type} (cmp : E -> E -> Z) (a : Z -> E)
        (newElement : E) (firstElement lastElement : Z) :
  firstElement <= lastElement ->
  searchFits firstElement lastElement ->
  (forall k, firstElement <= k < lastElement -> cmp newElement (a k) > 0) ->
  exists probes,
    findInsertIndexInSortedArray cmp a newElement firstElement lastElement
    = Some (Ok (lastElement, probes)).
Proof.
  intros Hfl Hfit Hall.
  destruct (findInsertIndex_result cmp a newElement
              (fun r probes => r = lastElement)
              firstElement lastElement Hfl Hfit)
    as (r & probes & Hrun & ->).
  - unfold findInsertIndexInSortedArrayZ.
    apply findInsertLoop_after_all; try assumption. lia.
  - now exists probes.
Qed.

Lemma nine_after_all :
  forall k, 0 <= k < 4 -> naturalOrder 9 (sortedNoMatch k) > 0.
Proof.
  intros k Hk.
  assert (Hcases : k = 0 \/ k = 1 \/ k = 2 \/ k = 3) by lia.
  destruct Hcases as [->|[->|[->| ->]]]; reflexivity.
Qed.

Lemma findInsertIndex_after_all_witness :
  0 <= 4 /\ searchFits 0 4 /\
  (forall k, 0 <= k < 4 -> naturalOrder 9 (sortedNoMatch k) > 0) /\
  (exists probes,
      findInsertIndexInSortedArray naturalOrder sortedNoMatch 9 0 4
      = Some (Ok (4, probes))).
Proof.
  assert (Hfit : searchFits 0 4) by fits.
  split; [lia|]. split; [exact Hfit|]. split; [exact nine_after_all|].
  apply (findInsertIndex_after_all naturalOrder sortedNoMatch 9 0 4);
    [lia|exact Hfit|exact nine_after_all].
Defined.

(** X5.  If [newElement] compares [< 0] with every element of the range,
    the result is [firstElement], whatever the comparator and whether or
    not the range is sorted, provided [firstElement <= lastElement] and
    the indices leave room for the sum [firstElement + lastElement]. *)
Theorem findInsertIndex_before_all {E : Type} (cmp : E -> E -> Z) (a : Z -> E)
        (newElement : E) (firstElement lastElement : Z) :
  firstElement <= lastElement ->
  searchFits firstElement lastElement ->
  (forall k, firstElement <= k < lastElement -> cmp newElement (a k) < 0) ->
  exists probes,
    findInsertIndexInSortedArray cmp a newElement firstElement lastElement
    = Some (Ok (firstElement, probes)).
Proof.
  intros Hfl Hfit Hall.
  destruct (findInsertIndex_result cmp a newElement
              (fun r probes => r = firstElement)
              firstElement lastElement Hfl Hfit)
    as (r & probes & Hrun & ->).
  - unfold findInsertIndexInSortedArrayZ.
    apply findInsertLoop_before_all; try assumption. lia.
  - now exists probes.
Qed.

Lemma zero_before_all :
  forall k, 0 <= k < 4 -> naturalOrder 0 (sortedNoMatch k) < 0.
Proof.
  intros k Hk.
  assert (Hcases : k = 0 \/ k = 1 \/ k = 2 \/ k = 3) by lia.
  destruct Hcases as [->|[->|[->| ->]]]; reflexivity.
Qed.

Lemma findInsertIndex_before_all_witness :
  0 <= 4 /\ searchFits 0 4 /\
  (forall k, 0 <= k < 4 -> naturalOrder 0 (sortedNoMatch k) < 0) /\
  (exists probes,
      findInsertIndexInSortedArray naturalOrder sortedNoMatch 0 0 4
      = Some (Ok (0, probes))).
Proof.
  assert (Hfit : searchFits 0 4) by fits.
  split; [lia|]. split; [exact Hfit|]. split; [exact zero_before_all|].
  apply (findInsertIndex_before_all naturalOrder sortedNoMatch 0 0 4);
    [lia|exact Hfit|exact zero_before_all].
Defined.

(** X6.  [DefaultElementComparator] obeys the three-way contract exactly
    when the element type's [operator<] is a strict weak ordering: never
    true both ways round, and "not less than" is transitive. *)
Theorem defaultComparator_consistent_iff {E : Type} (lessThan : E -> E -> bool) :
  Consistent (DefaultElementComparator lessThan) <->
  ((forall x y, lessThan x y = true -> lessThan y x = false) /\
   (forall x y z, lessThan y x = false -> lessThan z y = false ->
                  lessThan z x = false)).
Proof.
  split.
  - intros Hc.
    assert (Hasym : forall x y, lessThan x y = true -> lessThan y x = false).
    { intros x y Hxy. pose proof (cmp_flip _ Hc y x) as Hf.
      unfold DefaultElementComparator in Hf. rewrite Hxy in Hf.
      destruct (lessThan y x); [|reflexivity]. lia. }
    split; [exact Hasym|].
    intros x y z Hyx Hzy.
    apply (default_le_iff lessThan Hasym).
    apply (cmp_trans _ Hc _ y); now apply (default_le_iff lessThan Hasym).
  - intros [Hasym Hneg]. split.
    + intros x y. unfold DefaultElementComparator.
      destruct (lessThan x y) eqn:Hxy.
      * rewrite (Hasym x y Hxy). lia.
      * destruct (lessThan y x); lia.
    + intros x y z Hxy Hyz.
      apply (default_le_iff lessThan Hasym) in Hxy, Hyz.
      apply (default_le_iff lessThan Hasym). eauto.
Qed.

(** X7.  Sorting with [DefaultElementComparator] over a strict weak
    ordering [operator<] returns, in either mode, with no element of the
    range less than an element that stands before it; in the non-stable
    mode the indices have to leave room for the [int] arithmetic of the
    source. *)
Theorem sortArray_with_default_comparator {E : Type}
        (lessThan : E -> E -> bool) (a : Z -> E)
        (firstElement lastElement : Z) (retainOrderOfEquivalentItems : bool) :
  (forall x y, lessThan x y = true -> lessThan y x = false) ->
  (forall x y z, lessThan y x = false -> lessThan z y = false ->
                 lessThan z x = false) ->
  retainOrderOfEquivalentItems = true \/ indicesFit firstElement lastElement ->
  exists fuel s',
    sortArray (DefaultElementComparator lessThan) fuel a firstElement lastElement
              retainOrderOfEquivalentItems = Returned s' /\
    forall p q, firstElement <= p -> p < q -> q <= lastElement ->
                lessThan (array s' q) (array s' p) = false.
Proof.
  intros Hasym Hneg Hfit.
  assert (Hc : Consistent (DefaultElementComparator lessThan)).
  { split.
    - intros x y. unfold DefaultElementComparator.
      destruct (lessThan x y) eqn:Hxy.
      + rewrite (Hasym x y Hxy). lia.
      + destruct (lessThan y x); lia.
    - intros x y z Hxy Hyz.
      apply (default_le_iff lessThan Hasym) in Hxy, Hyz.
      apply (default_le_iff lessThan Hasym). eauto. }
  destruct (sortArray_returns_sorted (DefaultElementComparator lessThan) a
              firstElement lastElement retainOrderOfEquivalentItems Hc Hfit)
    as (fuel & s' & Hrun & Hsorted).
  exists fuel, s'. split; [exact Hrun|].
  intros p q Hp Hpq Hq.
  apply (default_le_iff lessThan Hasym).
  apply (sorted_ordered _ Hc _ _ _ Hsorted); assumption.
Qed.

Lemma sortArray_with_default_comparator_witness :
  (forall x y, Z.ltb x y = true -> Z.ltb y x = false) /\
  (forall x y z, Z.ltb y x = false -> Z.ltb z y = false -> Z.ltb z x = false) /\
  (false = true \/ indicesFit 0 4) /\
  (exists fuel s',
      sortArray (DefaultElementComparator Z.ltb) fuel fiveNumbers 0 4 false
      = Returned s' /\
      forall p q, 0 <= p -> p < q -> q <= 4 ->
                  Z.ltb (array s' q) (array s' p) = false).
Proof.
  assert (Hfit : false = true \/ indicesFit 0 4) by (right; fits).
  split; [exact ltb_asymmetric|]. split; [exact ltb_negatively_transitive|].
  split; [exact Hfit|].
  apply (sortArray_with_default_comparator Z.ltb fiveNumbers 0 4 false
           ltb_asymmetric ltb_negatively_transitive Hfit).
Defined.

(** X8.  The two operations fit together: after [sortArray] on the
    inclusive range [firstElement .. lastElement] with a consistent
    comparator, [findInsertIndexInSortedArray] on the half-open range
    [firstElement, lastElement + 1) returns an index that separates the
    elements not after [newElement] from the elements not before it.  The
    indices have to leave room for the [int] arithmetic of both
    functions. *)
Theorem sortArray_then_findInsertIndex {E : Type} (cmp : E -> E -> Z)
        (a : Z -> E) (newElement : E) (firstElement lastElement : Z)
        (retainOrderOfEquivalentItems : bool) :
  Consistent cmp ->
  firstElement <= lastElement ->
  retainOrderOfEquivalentItems = true \/ indicesFit firstElement lastElement ->
  searchFits firstElement (lastElement + 1) ->
  exists fuel s' r probes,
    sortArray cmp fuel a firstElement lastElement retainOrderOfEquivalentItems
    = Returned s' /\
    findInsertIndexInSortedArray cmp (array s') newElement
                                 firstElement (lastElement + 1)
    = Some (Ok (r, probes)) /\
    firstElement <= r <= lastElement + 1 /\
    (forall k, firstElement <= k -> k < r -> cmp (array s' k) newElement <= 0) /\
    (forall k, r <= k -> k <= lastElement -> cmp newElement (array s' k) <= 0).
Proof.
  intros Hc Hfl Hfit Hsearch.
  destruct (sortArray_returns_sorted cmp a firstElement lastElement
              retainOrderOfEquivalentItems Hc Hfit)
    as (fuel & s' & Hrun & Hsorted).
  destruct (findInsertIndex_result cmp (array s') newElement
              (fun r probes =>
                 firstElement <= r <= lastElement + 1 /\
                 (forall k, firstElement <= k -> k < r ->
                            cmp (array s' k) newElement <= 0) /\
                 (forall k, r <= k -> k <= lastElement ->
                            cmp newElement (array s' k) <= 0))
              firstElement (lastElement + 1) ltac:(lia) Hsearch)
    as (r & probes & Hfind & Hr & Hlow & Hhigh).
  - unfold findInsertIndexInSortedArrayZ.
    destruct (findInsertLoop_bounds cmp (array s') newElement
                (Z.to_nat (lastElement + 1 - firstElement)) firstElement
                (lastElement + 1) ltac:(lia) ltac:(lia)) as [Hr _].
    destruct (findInsertLoop_position cmp (array s') newElement Hc
                (Z.to_nat (lastElement + 1 - firstElement)) firstElement
                (lastElement + 1) ltac:(lia) ltac:(lia)) as [Hlow Hhigh].
    { replace (lastElement + 1 - 1) with lastElement by lia.
      now apply sorted_ordered. }
    split; [exact Hr|]. split; [exact Hlow|].
    intros k Hk1 Hk2. apply Hhigh; lia.
  - exists fuel, s', r, probes.
    split; [exact Hrun|]. split; [exact Hfind|]. split; [exact Hr|].
    split; assumption.
Qed.

Lemma sortArray_then_findInsertIndex_witness :
  Consistent naturalOrder /\ 0 <= 4 /\
  (false = true \/ indicesFit 0 4) /\ searchFits 0 (4 + 1) /\
  (exists fuel s' r probes,
      sortArray naturalOrder fuel fiveNumbers 0 4 false = Returned s' /\
      findInsertIndexInSortedArray naturalOrder (array s') 3 0 (4 + 1)
      = Some (Ok (r, probes)) /\
      0 <= r <= 4 + 1 /\
      (forall k, 0 <= k -> k < r -> naturalOrder (array s' k) 3 <= 0) /\
      (forall k, r <= k -> k <= 4 -> naturalOrder 3 (array s' k) <= 0)).
Proof.
  assert (Hfit : false = true \/ indicesFit 0 4) by (right; fits).
  assert (Hsearch : searchFits 0 (4 + 1)) by fits.
  split; [exact naturalOrder_consistent|]. split; [lia|].
  split; [exact Hfit|]. split; [exact Hsearch|].
  apply (sortArray_then_findInsertIndex naturalOrder fiveNumbers 3 0 4 false
           naturalOrder_consistent ltac:(lia) Hfit Hsearch).
Defined.

(** X9.  The stable mode does not need a transitive comparator: for every
    comparator that never answers "after" for a pair in both orders it
    returns with every pair of neighbours of the range in order. *)
Theorem stable_mode_sorts_without_transitivity {E : Type} (cmp : E -> E -> Z)
        (a : Z -> E) (firstElement lastElement : Z) :
  (forall x y, cmp x y > 0 -> cmp y x <= 0) ->
  exists fuel s',
    sortArray cmp fuel a firstElement lastElement true = Returned s' /\
    forall i, firstElement <= i <= lastElement - 1 ->
              cmp (array s' i) (array s' (i + 1)) <= 0.
Proof.
  intros Hflip.
  destruct (Z_lt_ge_dec firstElement lastElement) as [Hlt|Hge].
  - destruct (stableSort_terminates cmp Hflip (mkState a [])
                                    firstElement lastElement ltac:(lia))
      as (fuel & s' & Hrun).
    exists fuel, s'. rewrite sortArray_stable_branch by assumption.
    split; [exact Hrun|].
    apply (stableSort_adjacent cmp Hflip fuel (mkState a [])
                               firstElement lastElement s' ltac:(lia) Hrun).
  - exists 0%nat, (mkState a []). split; [apply sortArray_short; lia|].
    intros i Hi. lia.
Qed.

Lemma stable_mode_sorts_without_transitivity_witness :
  (forall x y, cyclicOrder x y > 0 -> cyclicOrder y x <= 0) /\
  (exists fuel s',
      sortArray cyclicOrder fuel fiveNumbers 0 4 true = Returned s' /\
      forall i, 0 <= i <= 4 - 1 ->
                cyclicOrder (array s' i) (array s' (i + 1)) <= 0).
Proof.
  split; [exact cyclicOrder_never_after_both_ways|].
  apply (stable_mode_sorts_without_transitivity cyclicOrder fiveNumbers 0 4).
  exact cyclicOrder_never_after_both_ways.
Defined.

(** X10.  For a consistent comparator, on a range whose indices leave
    room for the [int] arithmetic of the non-stable mode, the two modes
    return arrays that agree up to equivalence: every cell holds, after
    the stable sort and after the non-stable sort, elements that compare
    [0] with each other. *)
Theorem modes_agree_up_to_equivalence {E : Type} (cmp : E -> E -> Z)
        (a : Z -> E) (firstElement lastElement : Z) :
  Consistent cmp ->
  indicesFit firstElement lastElement ->
  exists fuel1 fuel2 s1 s2,
    sortArray cmp fuel1 a firstElement lastElement true = Returned s1 /\
    sortArray cmp fuel2 a firstElement lastElement false = Returned s2 /\
    forall k, cmp (array s1 k) (array s2 k) = 0.
Proof.
  intros Hc Hfit.
  destruct (sortArray_returns_sorted cmp a firstElement lastElement true Hc
                                     (or_introl eq_refl))
    as (fuel1 & s1 & Hrun1 & Hs1).
  destruct (sortArray_returns_sorted cmp a firstElement lastElement false Hc
                                     (or_intror Hfit))
    as (fuel2 & s2 & Hrun2 & Hs2).
  exists fuel1, fuel2, s1, s2. split; [exact Hrun1|]. split; [exact Hrun2|].
  pose proof (sortArray_reaches cmp fuel1 a firstElement lastElement true
                                (or_introl eq_refl)) as R1.
  pose proof (sortArray_reaches cmp fuel2 a firstElement lastElement false
                                (or_intror Hfit)) as R2.
  rewrite Hrun1 in R1. rewrite Hrun2 in R2. simpl in R1, R2.
  intros k.
  destruct (Z_le_gt_dec firstElement k) as [H1|H1];
    [destruct (Z_le_gt_dec k lastElement) as [H2|H2]|].
  - apply (sorted_perm_equiv cmp Hc (array s1) (array s2)
                             firstElement lastElement);
      try (now apply sorted_ordered); try lia.
    etransitivity.
    + apply (reaches_perm _ _ _ (quickEvent_inRange firstElement lastElement)
                          _ _ R1).
    + symmetry.
      apply (reaches_perm _ _ _ (quickEvent_inRange firstElement lastElement)
                          _ _ R2).
  - rewrite (reaches_frame _ _ _ (quickEvent_inRange firstElement lastElement)
                           _ _ R1 k) by lia.
    rewrite (reaches_frame _ _ _ (quickEvent_inRange firstElement lastElement)
                           _ _ R2 k) by lia.
    apply (cmp_refl cmp Hc).
  - rewrite (reaches_frame _ _ _ (quickEvent_inRange firstElement lastElement)
                           _ _ R1 k) by lia.
    rewrite (reaches_frame _ _ _ (quickEvent_inRange firstElement lastElement)
                           _ _ R2 k) by lia.
    apply (cmp_refl cmp Hc).
Qed.

Lemma modes_agree_up_to_equivalence_witness :
  Consistent compareByFirst /\ indicesFit 0 2 /\
  (exists fuel1 fuel2 s1 s2,
      sortArray compareByFirst fuel1 taggedPairs 0 2 true = Returned s1 /\
      sortArray compareByFirst fuel2 taggedPairs 0 2 false = Returned s2 /\
      forall k, compareByFirst (array s1 k) (array s2 k) = 0).
Proof.
  assert (Hfit : indicesFit 0 2) by fits.
  split; [exact compareByFirst_consistent|]. split; [exact Hfit|].
  apply (modes_agree_up_to_equivalence compareByFirst taggedPairs 0 2
           compareByFirst_consistent Hfit).
Defined.

(** ** Comparisons made by the two scans of the partition *)

Section ScanCounting.

Context {E : Type} (cmp : E -> E -> Z).
Implicit Types (s : State E).

(** [scanUpZ] compares every cell it passes and the one it stops at,
    unless it stops past [lastElement]. *)
Lemma scanUp_counts n firstElement lastElement s i :
  i <= lastElement -> lastElement - i <= Z.of_nat n ->
  let r := scanUpZ cmp n firstElement lastElement s i in
  countCompares (trace (snd r))
  = countCompares (trace s) + (Z.min (fst r) lastElement - i) /\
  countSwaps (trace (snd r)) = countSwaps (trace s) /\
  pushIndices (trace (snd r)) = pushIndices (trace s).
Proof.
  revert s i. induction n as [|n IH]; intros s i Hi Hn;
    cbn -[Z.add Z.sub Z.min Z.max Z.mul].
  - splits; try reflexivity. lia.
  - destruct (Z.leb_spec (i + 1) lastElement) as [Hle|Hgt]; cbn -[Z.add Z.sub Z.min Z.max Z.mul].
    + destruct (Z.leb_spec (cmp (array s (i + 1)) (array s firstElement)) 0)
        as [Hc|Hc]; cbn -[Z.add Z.sub Z.min Z.max Z.mul].
      * destruct (IH (logEvent s (EvCompare (i + 1) firstElement)) (i + 1)
                     ltac:(lia) ltac:(lia)) as (H1 & H2 & H3).
        cbn [countCompares countSwaps pushIndices trace logEvent] in H1, H2, H3.
        splits; [lia|assumption|assumption].
      * splits; try reflexivity. lia.
    + splits; try reflexivity. lia.
Qed.

(** [scanDownZ] likewise, unless it stops at [firstElement]. *)
Lemma scanDown_counts n firstElement s j :
  firstElement < j -> j - 1 - firstElement <= Z.of_nat n ->
  let r := scanDownZ cmp n firstElement s j in
  countCompares (trace (snd r))
  = countCompares (trace s) + (j - Z.max (fst r) (firstElement + 1)) /\
  countSwaps (trace (snd r)) = countSwaps (trace s) /\
  pushIndices (trace (snd r)) = pushIndices (trace s).
Proof.
  revert s j. induction n as [|n IH]; intros s j Hj Hn;
    cbn -[Z.add Z.sub Z.min Z.max Z.mul].
  - splits; try reflexivity. lia.
  - destruct (Z.gtb_spec (j - 1) firstElement) as [Hgt|Hle]; cbn -[Z.add Z.sub Z.min Z.max Z.mul].
    + destruct (Z.geb_spec (cmp (array s (j - 1)) (array s firstElement)) 0)
        as [Hc|Hc]; cbn -[Z.add Z.sub Z.min Z.max Z.mul].
      * destruct (IH (logEvent s (EvCompare (j - 1) firstElement)) (j - 1)
                     ltac:(lia) ltac:(lia)) as (H1 & H2 & H3).
        cbn [countCompares countSwaps pushIndices trace logEvent] in H1, H2, H3.
        splits; [lia|assumption|assumption].
      * splits; try reflexivity. lia.
    + splits; try reflexivity. lia.
Qed.

(** A range of equivalent elements: both cursors run through to the
    ends, every cell but the pivot's is compared twice, nothing is
    swapped. *)
Lemma partitionLoop_all_equivalent_counts n firstElement lastElement s :
  firstElement < lastElement ->
  (forall p, firstElement <= p <= lastElement ->
             cmp (array s p) (array s firstElement) = 0) ->
  exists s',
    partitionLoopZ cmp (S n) firstElement lastElement s firstElement (lastElement + 1)
    = (lastElement + 1, firstElement, s') /\
    array s' = array s /\
    countCompares (trace s')
    = countCompares (trace s) + 2 * (lastElement - firstElement) /\
    countSwaps (trace s') = countSwaps (trace s) /\
    pushIndices (trace s') = pushIndices (trace s).
Proof.
  intros Hfl Heq. cbn [partitionLoopZ].
  pose proof (scanUp_spec cmp (Z.to_nat (lastElement - firstElement))
                          firstElement lastElement s firstElement
                          ltac:(lia) ltac:(lia)) as Hup.
  pose proof (scanUp_counts (Z.to_nat (lastElement - firstElement))
                            firstElement lastElement s firstElement
                            ltac:(lia) ltac:(lia)) as Cup.
  destruct (scanUpZ cmp (Z.to_nat (lastElement - firstElement))
                   firstElement lastElement s firstElement) as [i1 s1].
  cbn [fst snd] in Hup, Cup.
  destruct Hup as (_ & Ha1 & Hi1 & Hi1ub & _ & Hupstop).
  destruct Cup as (C1 & C2 & C3).
  assert (i1 = lastElement + 1).
  { destruct (Z_le_gt_dec i1 lastElement) as [Hle|Hgt]; [|lia].
    specialize (Hupstop Hle). rewrite Heq in Hupstop by lia. lia. }
  subst i1.
  pose proof (scanDown_spec cmp (Z.to_nat (lastElement + 1 - 1 - firstElement))
                            firstElement lastElement s1 (lastElement + 1)
                            ltac:(lia) ltac:(lia)) as Hdn.
  pose proof (scanDown_counts (Z.to_nat (lastElement + 1 - 1 - firstElement))
                              firstElement s1 (lastElement + 1)
                              ltac:(lia) ltac:(lia)) as Cdn.
  destruct (scanDownZ cmp (Z.to_nat (lastElement + 1 - 1 - firstElement))
                     firstElement s1 (lastElement + 1)) as [j1 s2].
  cbn [fst snd] in Hdn, Cdn.
  destruct Hdn as (_ & Ha2 & Hj1 & Hj1lb & _ & Hdnstop).
  destruct Cdn as (D1 & D2 & D3).
  rewrite Ha1 in Hdnstop.
  assert (j1 = firstElement).
  { destruct (Z_lt_ge_dec firstElement j1) as [Hlt|Hge]; [|lia].
    specialize (Hdnstop Hlt). rewrite Heq in Hdnstop by lia. lia. }
  subst j1.
  destruct (Z.ltb_spec firstElement (lastElement + 1)); [|lia].
  exists s2. splits; [reflexivity|congruence|lia|congruence|congruence].
Qed.

End ScanCounting.

(** X11.  The partition of lines 104-126, for any comparator, on a range
    whose indices leave room for the [int] arithmetic of the source: the
    element of the middle cell becomes the pivot and ends at [j]; the
    cells left of [j] hold elements not after it, the cells between the
    cursors elements equivalent to it, the cells from [i] on elements not
    before it; the range is permuted and nothing outside it changes. *)
Theorem partitionRange_around_middle_element {E : Type} (cmp : E -> E -> Z)
        (s : State E) (firstElement lastElement : Z) :
  indicesFit firstElement lastElement ->
  firstElement <= lastElement ->
  exists i j s',
    partitionRange cmp s firstElement lastElement
                   (lastElement - firstElement + 1) = Ok (i, j, s') /\
    firstElement <= j /\ j < i /\ i <= lastElement + 1 /\
    array s' j = array s (firstElement + (lastElement - firstElement + 1) / 2) /\
    (forall p, firstElement <= p < j -> cmp (array s' p) (array s' j) <= 0) /\
    (forall p, j < p < i -> cmp (array s' p) (array s' j) = 0) /\
    (forall p, i <= p <= lastElement -> cmp (array s' p) (array s' j) >= 0) /\
    Permutation (contents (array s') firstElement lastElement)
                (contents (array s) firstElement lastElement) /\
    (forall k, ~ (firstElement <= k <= lastElement) -> array s' k = array s k).
Proof.
  intros Hfit Hfl.
  rewrite partitionRange_exact by fits.
  pose proof (partitionRange_spec cmp s firstElement lastElement Hfl) as Hspec.
  pose proof (partitionRange_pivot cmp s firstElement lastElement Hfl) as Hpiv.
  destruct (partitionRangeZ cmp s firstElement lastElement) as [[i j] s'].
  destruct Hspec as (Ht & Hj & Hji & Hi & Hlow & Hmid & Hhigh).
  exists i, j, s'. splits; try assumption; try reflexivity.
  - apply (reaches_perm _ _ _ (arrayEvent_inRange firstElement lastElement)
                        _ _ Ht).
  - apply (touches_frame _ _ _ _ Ht).
Qed.

Lemma partitionRange_around_middle_element_witness :
  indicesFit 0 9 /\ 0 <= 9 /\
  (exists i j s',
      partitionRange naturalOrder (mkState tenNumbers []) 0 9 (9 - 0 + 1)
      = Ok (i, j, s') /\
      0 <= j /\ j < i /\ i <= 9 + 1 /\
      array s' j = array (mkState tenNumbers []) (0 + (9 - 0 + 1) / 2) /\
      (forall p, 0 <= p < j -> naturalOrder (array s' p) (array s' j) <= 0) /\
      (forall p, j < p < i -> naturalOrder (array s' p) (array s' j) = 0) /\
      (forall p, i <= p <= 9 -> naturalOrder (array s' p) (array s' j) >= 0) /\
      Permutation (contents (array s') 0 9)
                  (contents (array (mkState tenNumbers [])) 0 9) /\
      (forall k, ~ (0 <= k <= 9) -> array s' k = array (mkState tenNumbers []) k)).
Proof.
  assert (Hfit : indicesFit 0 9) by fits.
  split; [exact Hfit|]. split; [lia|].
  exact (partitionRange_around_middle_element
           naturalOrder (mkState tenNumbers []) 0 9 Hfit ltac:(lia)).
Defined.

(** X12.  A range of 2 to 8 elements whose indices leave room for the
    [int] arithmetic of the source is sorted in one trip of the outer
    loop at a cost that does not depend on the comparator's answers: one
    comparison for every pair of cells, one call of [swapVariables] for
    every cell but one, and no stack write. *)
Theorem short_range_cost {E : Type} (cmp : E -> E -> Z) (a : Z -> E)
        (firstElement lastElement : Z) :
  indicesFit firstElement lastElement ->
  firstElement < lastElement ->
  lastElement - firstElement + 1 <= 8 ->
  exists s',
    sortArray cmp 1 a firstElement lastElement false = Returned s' /\
    2 * countCompares (trace s')
    = (lastElement - firstElement) * (lastElement - firstElement + 1) /\
    countSwaps (trace s') = lastElement - firstElement /\
    pushIndices (trace s') = [].
Proof.
  intros Hfit Hfl Hsize.
  exists (selectionSortZ cmp (mkState a []) firstElement lastElement).
  split.
  - rewrite sortArray_quick_branch by assumption. unfold quickSortZ.
    apply runLoop_inr. unfold quickStepZ. cbn [qfirst qlast qstate qstack].
    destruct (Z.leb_spec (lastElement - firstElement + 1) 8); [reflexivity|lia].
  - unfold selectionSortZ.
    destruct (selectionLoop_counts cmp (Z.to_nat (lastElement - firstElement))
                firstElement (mkState a []) lastElement ltac:(lia) ltac:(lia))
      as (H1 & H2 & H3).
    cbn [countCompares countSwaps pushIndices trace] in H1, H2, H3.
    splits; [lia|lia|assumption].
Qed.

Lemma short_range_cost_witness :
  indicesFit 0 4 /\ 0 < 4 /\ 4 - 0 + 1 <= 8 /\
  (exists s',
      sortArray naturalOrder 1 fiveNumbers 0 4 false = Returned s' /\
      2 * countCompares (trace s') = (4 - 0) * (4 - 0 + 1) /\
      countSwaps (trace s') = 4 - 0 /\
      pushIndices (trace s') = []).
Proof.
  assert (Hfit : indicesFit 0 4) by fits.
  split; [exact Hfit|]. split; [lia|]. split; [lia|].
  apply (short_range_cost naturalOrder fiveNumbers 0 4); [exact Hfit|lia|lia].
Defined.

(** X13.  On a range that is already in order the stable mode makes one
    pass: one comparison for every pair of neighbours, no swap, the array
    as it was. *)
Theorem stable_mode_on_sorted_is_linear {E : Type} (cmp : E -> E -> Z)
        (a : Z -> E) (firstElement lastElement : Z) :
  firstElement < lastElement ->
  sortedRange cmp a firstElement lastElement ->
  exists s',
    sortArray cmp (S (Z.to_nat (lastElement - firstElement)))
              a firstElement lastElement true = Returned s' /\
    array s' = a /\
    countCompares (trace s') = lastElement - firstElement /\
    countSwaps (trace s') = 0.
Proof.
  intros Hfl Hsorted.
  destruct (stable_walk_counts cmp firstElement lastElement
              (Z.to_nat (lastElement - firstElement)) (mkState a [])
              firstElement lastElement eq_refl ltac:(lia) ltac:(lia) Hsorted)
    as (s' & Ha & Hc & Hs & Hrun).
  exists s'. cbn [countCompares countSwaps trace array] in Ha, Hc, Hs.
  splits; [|assumption|lia|assumption].
  rewrite sortArray_stable_branch by assumption. unfold stableSort.
  replace (S (Z.to_nat (lastElement - firstElement)))
    with (Z.to_nat (lastElement - firstElement) + 1)%nat by lia.
  rewrite Hrun. apply runLoop_inr. apply stableStep_exit. lia.
Qed.

Lemma stable_mode_on_sorted_is_linear_witness :
  0 < 3 /\ sortedRange naturalOrder sortedNoMatch 0 3 /\
  (exists s',
      sortArray naturalOrder (S (Z.to_nat (3 - 0))) sortedNoMatch 0 3 true
      = Returned s' /\
      array s' = sortedNoMatch /\
      countCompares (trace s') = 3 - 0 /\
      countSwaps (trace s') = 0).
Proof.
  split; [lia|]. split; [exact sortedNoMatch_sorted|].
  apply (stable_mode_on_sorted_is_linear naturalOrder sortedNoMatch 0 3);
    [lia|exact sortedNoMatch_sorted].
Defined.

(** X14.  A range of 9 or more elements that are all equivalent, with
    indices that leave room for the [int] arithmetic of the source, is
    finished in one trip of the outer loop of the non-stable mode: both
    cursors of the partition run through to the ends, so every cell but
    the pivot's is compared twice, [swapVariables] is called twice, no
    stack slot is written, and the array is the input with the first and
    the middle cell exchanged. *)
Theorem equivalent_range_in_one_trip {E : Type} (cmp : E -> E -> Z)
        (a : Z -> E) (firstElement lastElement : Z) :
  indicesFit firstElement lastElement ->
  8 < lastElement - firstElement + 1 ->
  (forall p q, firstElement <= p <= lastElement ->
               firstElement <= q <= lastElement -> cmp (a p) (a q) = 0) ->
  exists s',
    sortArray cmp 1 a firstElement lastElement false = Returned s' /\
    countCompares (trace s') = 2 * (lastElement - firstElement) /\
    countSwaps (trace s') = 2 /\
    pushIndices (trace s') = [] /\
    forall k, array s' k
              = swapVariables a (firstElement
                                 + (lastElement - firstElement + 1) / 2)
                              firstElement k.
Proof.
  intros Hfit Hsize Heq.
  set (mid := firstElement + (lastElement - firstElement + 1) / 2).
  assert (Hmid : firstElement <= mid <= lastElement)
    by (subst mid; Z.div_mod_to_equations; lia).
  destruct (partitionLoop_all_equivalent_counts cmp
              (Z.to_nat (lastElement - firstElement))
              firstElement lastElement
              (swapAt (mkState a []) mid firstElement) ltac:(lia))
    as (s2 & Hloop & Ha2 & Hc2 & Hs2 & Hp2).
  { intros p Hp. cbn [array swapAt]. rewrite !swap_transpose.
    apply Heq; apply transpose_range; lia. }
  cbn [countCompares countSwaps pushIndices trace swapAt] in Hc2, Hs2, Hp2.
  exists (swapAt s2 firstElement firstElement).
  split.
  - rewrite sortArray_quick_branch by (assumption || lia). unfold quickSortZ.
    apply runLoop_inr. unfold quickStepZ. cbn [qfirst qlast qstate qstack].
    destruct (Z.leb_spec (lastElement - firstElement + 1) 8); [lia|].
    unfold partitionRangeZ. rewrite shiftr_half. fold mid.
    replace (Z.to_nat (lastElement + 1 - firstElement))
      with (S (Z.to_nat (lastElement - firstElement))) by lia.
    rewrite Hloop. unfold deferLargerZ.
    destruct (Z.geb_spec (firstElement - 1 - firstElement)
                         (lastElement - (lastElement + 1))); [|lia].
    destruct (Z.ltb_spec (firstElement + 1) firstElement); [lia|].
    destruct (Z.ltb_spec (lastElement + 1) lastElement); [lia|].
    reflexivity.
  - cbn [countCompares countSwaps pushIndices trace swapAt array].
    splits; [lia|lia|assumption|].
    intros k. rewrite Ha2. cbn [array swapAt]. fold mid.
    unfold swapVariables at 1.
    destruct (Z.eqb_spec k firstElement) as [->|Hne]; reflexivity.
Qed.

Lemma equivalent_range_in_one_trip_witness :
  indicesFit 0 9 /\ 8 < 9 - 0 + 1 /\
  (forall p q, 0 <= p <= 9 -> 0 <= q <= 9 ->
               naturalOrder (allSevens p) (allSevens q) = 0) /\
  (exists s',
      sortArray naturalOrder 1 allSevens 0 9 false = Returned s' /\
      countCompares (trace s') = 2 * (9 - 0) /\
      countSwaps (trace s') = 2 /\
      pushIndices (trace s') = [] /\
      forall k, array s' k = swapVariables allSevens (0 + (9 - 0 + 1) / 2) 0 k).
Proof.
  assert (Hfit : indicesFit 0 9) by fits.
  split; [exact Hfit|]. split; [lia|]. split; [intros; reflexivity|].
  apply (equivalent_range_in_one_trip naturalOrder allSevens 0 9);
    [exact Hfit|lia|intros; reflexivity].
Defined.

(** ** The cost of the stable mode *)

Section StableCost.

Context {E : Type} (cmp : E -> E -> Z).
Implicit Types (s : State E) (a : Z -> E).

Lemma filter_nil_of_all_false (f : E -> bool) (l : list E) :
  (forall x, In x l -> f x = false) -> filter f l = [].
Proof.
  induction l as [|x l IH]; intros Hf; simpl; [reflexivity|].
  rewrite (Hf x (or_introl eq_refl)). apply IH.
  intros y Hy. apply Hf. now right.
Qed.

(** A range in which no element is after a later one has no inversion. *)
Lemma ordered_no_inversions a hi n : forall lo,
  Z.to_nat (hi + 1 - lo) = n ->
  orderedRange cmp a lo hi ->
  inversions cmp (contents a lo hi) = 0%nat.
Proof.
  induction n as [|n IH]; intros lo Hn Hord.
  - rewrite contents_empty by lia. reflexivity.
  - rewrite contents_cons by lia. cbn [inversions].
    rewrite filter_nil_of_all_false.
    + rewrite IH; [reflexivity|lia|].
      intros p q Hp Hpq Hq. apply Hord; lia.
    + intros x Hx. apply in_contents in Hx. destruct Hx as (k & Hk & <-).
      destruct (Z.gtb_spec (cmp (a lo) (a k)) 0) as [Hgt|Hle]; [|reflexivity].
      pose proof (Hord lo k ltac:(lia) ltac:(lia) ltac:(lia)). lia.
Qed.

Hypothesis Hflip : neverAfterBothWays cmp.

(** Every swap removes one inversion; every trip makes one comparison
    and either removes an inversion or moves the cursor up. *)
Lemma stableSort_counts fuel s firstElement lastElement s' :
  firstElement <= lastElement ->
  stableSort cmp fuel s firstElement lastElement = Returned s' ->
  countSwaps (trace s')
  + Z.of_nat (inversions cmp (contents (array s') firstElement lastElement))
  = countSwaps (trace s)
    + Z.of_nat (inversions cmp (contents (array s) firstElement lastElement)) /\
  countCompares (trace s')
  + 2 * Z.of_nat (inversions cmp (contents (array s') firstElement lastElement))
  <= countCompares (trace s)
     + 2 * Z.of_nat (inversions cmp (contents (array s) firstElement lastElement))
     + (lastElement - firstElement).
Proof.
  intros Hfl. unfold stableSort.
  set (inv0 := Z.of_nat (inversions cmp (contents (array s) firstElement lastElement))).
  apply (runLoop_returned (stableStep cmp firstElement lastElement) fst
           (fun c =>
              firstElement <= snd c <= lastElement /\
              countSwaps (trace (fst c))
              + Z.of_nat (inversions cmp (contents (array (fst c))
                                                   firstElement lastElement))
              = countSwaps (trace s) + inv0 /\
              countCompares (trace (fst c))
              + 2 * Z.of_nat (inversions cmp (contents (array (fst c))
                                                       firstElement lastElement))
              + (lastElement - snd c)
              <= countCompares (trace s) + 2 * inv0
                 + (lastElement - firstElement))
           (fun s' =>
              countSwaps (trace s')
              + Z.of_nat (inversions cmp (contents (array s')
                                                   firstElement lastElement))
              = countSwaps (trace s) + inv0 /\
              countCompares (trace s')
              + 2 * Z.of_nat (inversions cmp (contents (array s')
                                                       firstElement lastElement))
              <= countCompares (trace s) + 2 * inv0
                 + (lastElement - firstElement))).
  - intros [s1 i] c' (Hi & Hsw & Hcm) Hstep. cbn [fst snd] in Hi, Hsw, Hcm.
    destruct (Z_lt_ge_dec i lastElement) as [Hlt|Hge];
      [|rewrite stableStep_exit in Hstep by lia; discriminate].
    destruct (Z_le_gt_dec (cmp (array s1 i) (array s1 (i + 1))) 0) as [Hle|Hgt].
    + rewrite stableStep_keep in Hstep by assumption.
      injection Hstep as <-.
      cbn [fst snd trace array logEvent countSwaps countCompares].
      splits; lia.
    + rewrite stableStep_swap in Hstep by assumption.
      injection Hstep as <-.
      cbn [fst snd trace array logEvent swapAt countSwaps countCompares].
      rewrite contents_swap_adjacent by lia.
      rewrite (contents_split_adjacent (array s1) firstElement lastElement i)
        in Hsw, Hcm by lia.
      rewrite (inversions_swap_adjacent cmp _ (array s1 i) (array s1 (i + 1)))
        in Hsw, Hcm by (try apply Hflip; assumption).
      destruct (Z.gtb_spec i firstElement); splits; lia.
  - intros [s1 i] s2 (Hi & Hsw & Hcm) Hstep. cbn [fst snd] in Hi, Hsw, Hcm.
    destruct (Z_lt_ge_dec i lastElement) as [Hlt|Hge].
    + destruct (Z_le_gt_dec (cmp (array s1 i) (array s1 (i + 1))) 0).
      * rewrite stableStep_keep in Hstep by assumption. discriminate.
      * rewrite stableStep_swap in Hstep by assumption. discriminate.
    + rewrite stableStep_exit in Hstep by lia. injection Hstep as <-.
      split; lia.
  - cbn [fst snd]. fold inv0. splits; lia.
Qed.

(** The number of trips is bounded by the measure of the input. *)
Lemma stableSort_returns_within s firstElement lastElement :
  firstElement <= lastElement ->
  exists s',
    stableSort cmp
               (S (2 * inversions cmp (contents (array s) firstElement lastElement)
                   + Z.to_nat (lastElement - firstElement)))
               s firstElement lastElement = Returned s'.
Proof.
  intros Hfl. unfold stableSort.
  apply (runLoop_terminates (stableStep cmp firstElement lastElement) fst
           (fun c => firstElement <= snd c <= lastElement)
           (fun c => (2 * inversions cmp
                            (contents (array (fst c)) firstElement lastElement)
                      + Z.to_nat (lastElement - snd c))%nat)).
  - intros [s1 i] c' Hi Hstep. simpl in Hi. simpl fst. simpl snd.
    now apply stableStep_decreases.
  - simpl. lia.
  - simpl. lia.
Qed.

End StableCost.

(** X15.  The cost of the stable mode with a consistent comparator: it
    returns within [2 * inversions + (lastElement - firstElement) + 1]
    loop tests, calls [swapVariables] exactly once for every inversion of
    the input range (a pair of elements of which the earlier compares
    [> 0] with the later), and calls the comparator at most
    [2 * inversions + (lastElement - firstElement)] times. *)
Theorem stable_mode_cost {E : Type} (cmp : E -> E -> Z) (a : Z -> E)
        (firstElement lastElement : Z) :
  Consistent cmp ->
  firstElement <= lastElement ->
  exists s',
    sortArray cmp
              (S (2 * inversions cmp (contents a firstElement lastElement)
                  + Z.to_nat (lastElement - firstElement)))
              a firstElement lastElement true = Returned s' /\
    countSwaps (trace s')
    = Z.of_nat (inversions cmp (contents a firstElement lastElement)) /\
    countCompares (trace s')
    <= 2 * Z.of_nat (inversions cmp (contents a firstElement lastElement))
       + (lastElement - firstElement).
Proof.
  intros Hc Hfl.
  assert (Hflip : neverAfterBothWays cmp).
  { intros x y Hxy. pose proof (cmp_flip cmp Hc x y). lia. }
  destruct (Z.eq_dec firstElement lastElement) as [->|Hne].
  - exists (mkState a []). rewrite sortArray_short by lia.
    rewrite (contents_cons a lastElement lastElement) by lia.
    rewrite contents_empty by lia.
    cbn [inversions filter length trace countSwaps countCompares].
    splits; [reflexivity|reflexivity|lia].
  - destruct (stableSort_returns_within cmp Hflip (mkState a [])
                                        firstElement lastElement Hfl)
      as (s' & Hrun).
    cbn [array] in Hrun.
    exists s'. rewrite sortArray_stable_branch by lia.
    split; [exact Hrun|].
    destruct (stableSort_counts cmp Hflip _ _ _ _ _ Hfl Hrun) as (Hsw & Hcm).
    cbn [array trace countSwaps countCompares] in Hsw, Hcm.
    pose proof (stableSort_adjacent cmp Hflip _ _ _ _ _ Hfl Hrun) as Hsorted.
    rewrite (ordered_no_inversions cmp (array s') lastElement
                                   (Z.to_nat (lastElement + 1 - firstElement))
                                   firstElement eq_refl
                                   (sorted_ordered cmp Hc _ _ _ Hsorted))
      in Hsw, Hcm.
    split; lia.
Qed.

Lemma stable_mode_cost_witness :
  Consistent naturalOrder /\ 0 <= 4 /\
  (exists s',
      sortArray naturalOrder
                (S (2 * inversions naturalOrder (contents fiveNumbers 0 4)
                    + Z.to_nat (4 - 0)))
                fiveNumbers 0 4 true = Returned s' /\
      countSwaps (trace s')
      = Z.of_nat (inversions naturalOrder (contents fiveNumbers 0 4)) /\
      countCompares (trace s')
      <= 2 * Z.of_nat (inversions naturalOrder (contents fiveNumbers 0 4))
         + (4 - 0)).
Proof.
  split; [exact naturalOrder_consistent|]. split; [lia|].
  apply (stable_mode_cost naturalOrder fiveNumbers 0 4
           naturalOrder_consistent).
  lia.
Defined.

(** X16.  On a range whose indices leave room for its [int] arithmetic,
    the outer loop of the non-stable mode makes at most one trip for
    every cell of the range and one more, whatever the comparator
    answers. *)
Theorem quick_mode_trip_bound {E : Type} (cmp : E -> E -> Z) (a : Z -> E)
        (firstElement lastElement : Z) :
  indicesFit firstElement lastElement ->
  exists s',
    sortArray cmp (S (Z.to_nat (lastElement - firstElement + 1)))
              a firstElement lastElement false = Returned s'.
Proof. apply sortArray_quick_returns. Qed.

Lemma quick_mode_trip_bound_witness :
  indicesFit 0 9 /\
  (exists s',
      sortArray naturalOrder (S (Z.to_nat (9 - 0 + 1))) tenNumbers 0 9 false
      = Returned s').
Proof.
  assert (Hfit : indicesFit 0 9) by fits.
  split; [exact Hfit|].
  apply (quick_mode_trip_bound naturalOrder tenNumbers 0 9 Hfit).
Defined.

(** ** Where the [int] arithmetic of the non-stable branch ends *)

Section IndexArithmetic.

Context {E : Type} (cmp : E -> E -> Z).
Implicit Types (s : State E) (a : Z -> E).

Lemma int_overflows {St : Type} (st : St) z :
  INT_MAX < z -> int st z = @IntOverflow St Z st.
Proof.
  intros H. unfold int.
  destruct (Z.leb_spec z INT_MAX); [lia|]. now rewrite andb_false_r.
Qed.

Lemma runLoop_no_overflow {C St : Type} (body : C -> C + St) (stateOf : C -> St)
      fuel : forall c (st : St), runLoop body stateOf fuel c <> Overflow st.
Proof.
  induction fuel as [|fuel IH]; intros c st; simpl; [discriminate|].
  destruct (body c); [apply IH|discriminate].
Qed.

(** With [j = INT_MAX] the test [k <= j] cannot fail: the scan ends in
    the overflow of [++k]. *)
Lemma maxScan_overflows n s k m :
  INT_MIN <= k <= INT_MAX -> INT_MAX + 1 - k <= Z.of_nat n ->
  exists s', maxScan cmp n INT_MAX s k m = IntOverflow s'.
Proof.
  revert s k m. induction n as [|n IH]; intros s k m Hk Hn; [lia|].
  cbn [maxScan]. destruct (Z.leb_spec k INT_MAX); [|lia].
  unfold compareAt.
  destruct (Z.eq_dec k INT_MAX) as [->|Hne].
  - rewrite int_overflows by lia. cbn [bind]. eexists. reflexivity.
  - rewrite int_ok by lia. cbn [bind]. apply IH; lia.
Qed.

End IndexArithmetic.

(** X17.  On a range whose indices leave room for it, no [int] operation
    of the non-stable mode overflows: however many trips the run is
    given, it has returned or is still under way. *)
Theorem quick_mode_never_overflows {E : Type} (cmp : E -> E -> Z) (a : Z -> E)
        (firstElement lastElement : Z) (fuel : nat) :
  indicesFit firstElement lastElement ->
  forall s, sortArray cmp fuel a firstElement lastElement false <> Overflow s.
Proof.
  intros Hfit s.
  destruct (Z_lt_ge_dec firstElement lastElement) as [Hlt|Hge].
  - rewrite sortArray_quick_branch by assumption. apply runLoop_no_overflow.
  - rewrite sortArray_short by lia. discriminate.
Qed.

Lemma quick_mode_never_overflows_witness :
  indicesFit 0 9 /\
  (forall s, sortArray naturalOrder 3 tenNumbers 0 9 false <> Overflow s).
Proof.
  assert (Hfit : indicesFit 0 9) by fits.
  split; [exact Hfit|].
  apply (quick_mode_never_overflows naturalOrder tenNumbers 0 9 3 Hfit).
Defined.

(** X18.  The bound [lastElement < INT_MAX] is needed: on every range of
    two cells or more that ends at [INT_MAX] the non-stable mode runs
    into an [int] overflow on its first trip, whatever the array and the
    comparator, and so never returns. *)
Theorem quick_mode_overflows_at_INT_MAX {E : Type} (cmp : E -> E -> Z)
        (a : Z -> E) (firstElement : Z) (fuel : nat) :
  firstElement < INT_MAX ->
  exists s, sortArray cmp (S fuel) a firstElement INT_MAX false = Overflow s.
Proof.
  intros Hlt. unfold sortArray.
  destruct (Z.gtb_spec INT_MAX firstElement); [|lia].
  unfold quickSort. cbn [runChecked].
  assert (Hstep : exists s,
             quickStep cmp (mkQ (mkState a []) firstElement INT_MAX [])
             = IntOverflow s).
  { unfold quickStep. cbn [qfirst qlast qstate qstack].
    destruct (Z_le_gt_dec firstElement (-1)) as [Hneg|Hpos].
    { rewrite int_overflows by lia. eexists. reflexivity. }
    rewrite int_ok by fits. cbn [bind].
    destruct (Z.eq_dec firstElement 0) as [->|Hne].
    { rewrite int_overflows by lia. eexists. reflexivity. }
    rewrite int_ok by fits. cbn [bind].
    destruct (INT_MAX - firstElement + 1 <=? 8).
    - unfold selectionSort.
      destruct (Z.to_nat (INT_MAX - firstElement)) as [|n] eqn:Hn; [lia|].
      cbn [selectionLoop]. destruct (Z.gtb_spec INT_MAX firstElement); [|lia].
      rewrite int_ok by fits. cbn [bind].
      destruct (maxScan_overflows cmp (Z.to_nat (INT_MAX - firstElement))
                                  (mkState a []) (firstElement + 1) firstElement
                                  ltac:(fits) ltac:(lia)) as (s' & Hs').
      rewrite Hs'. eexists. reflexivity.
    - unfold partitionRange.
      rewrite int_ok
        by (rewrite shiftr_half; unfold INT_MIN, INT_MAX in *;
            Z.div_mod_to_equations; lia).
      cbn [bind]. rewrite int_overflows by lia. eexists. reflexivity. }
  destruct Hstep as (s & ->). now exists s.
Qed.

Lemma quick_mode_overflows_at_INT_MAX_witness :
  2147483643 < INT_MAX /\
  (exists s,
      sortArray naturalOrder (S 0) allSevens 2147483643 INT_MAX false
      = Overflow s).
Proof.
  split; [reflexivity|].
  apply (quick_mode_overflows_at_INT_MAX naturalOrder allSevens 2147483643 0).
  reflexivity.
Defined.
